(** * BESS analytics pipeline: a shallow embedding of the analytics core

    The development follows the three modules of [src/analytics]:
    - [battery_metrics.py]  (class [BatteryMetricsCalculator]),
    - [data_processor.py]   (class [BatteryDataProcessor]),
    - [anomaly_detector.py] (class [BatteryAnomalyDetector]).

    Conventions of the embedding.
    - A [float64] is an exact rational extended with [NaN] and the two
      infinities.  Division follows IEEE-754 at zero ([x/0] is an infinity
      for [x <> 0], [0/0] is [NaN]); rounding and signed zeros are not
      modelled.  The square root is a parameter of the development.
    - A data frame is an ordered association list of named, typed columns.
      Numeric telemetry is [float64]; time stamps are nanoseconds since the
      epoch with [NaT]; flags are booleans; everything else is a column of
      strings with missing entries.
    - A Python exception is a value of type [error]; a method that may raise
      returns a [result].
    - The methods of the anomaly detector work on references into a store of
      frames, because they copy their argument and then assign columns in
      place. *)

From Stdlib Require Import ZArith QArith Qround Qabs Lqa Lia.
From Stdlib Require Import Bool String Ascii List.
From Stdlib Require Import Structures.OrdersEx.
From Stdlib Require Import Sorting.Sorted Sorting.Permutation.
From Stdlib Require Import RelationClasses Morphisms.
Import ListNotations.

Local Open Scope string_scope.
Local Open Scope Z_scope.
Local Open Scope Q_scope.

(** ** Floating-point values *)

Inductive float64 : Type :=
| NaN
| Inf (neg : bool)
| Fin (q : Q).

Definition Qneg (q : Q) : bool :=
  match q ?= 0 with Lt => true | _ => false end.

Definition Qzero (q : Q) : bool :=
  match q ?= 0 with Eq => true | _ => false end.

Definition is_nan (x : float64) : bool :=
  match x with NaN => true | _ => false end.

Definition notna (x : float64) : bool := negb (is_nan x).

Definition is_finite (x : float64) : bool :=
  match x with Fin _ => true | _ => false end.

Definition fopp (x : float64) : float64 :=
  match x with
  | NaN => NaN
  | Inf s => Inf (negb s)
  | Fin q => Fin (Qred (- q))
  end.

Definition fadd (x y : float64) : float64 :=
  match x, y with
  | NaN, _ | _, NaN => NaN
  | Inf a, Inf b => if Bool.eqb a b then Inf a else NaN
  | Inf a, Fin _ => Inf a
  | Fin _, Inf b => Inf b
  | Fin a, Fin b => Fin (Qred (a + b))
  end.

Definition fsub (x y : float64) : float64 := fadd x (fopp y).

Definition fmul (x y : float64) : float64 :=
  match x, y with
  | NaN, _ | _, NaN => NaN
  | Inf a, Inf b => Inf (xorb a b)
  | Inf a, Fin q | Fin q, Inf a =>
      if Qzero q then NaN else Inf (xorb a (Qneg q))
  | Fin a, Fin b => Fin (Qred (a * b))
  end.

Definition fdiv (x y : float64) : float64 :=
  match x, y with
  | NaN, _ | _, NaN => NaN
  | Inf _, Inf _ => NaN
  | Inf a, Fin q => Inf (xorb a (Qneg q))
  | Fin _, Inf _ => Fin 0
  | Fin a, Fin b =>
      if Qzero b then (if Qzero a then NaN else Inf (Qneg a))
      else Fin (Qred (a / b))
  end.

Definition fabs (x : float64) : float64 :=
  match x with
  | NaN => NaN
  | Inf _ => Inf false
  | Fin q => Fin (Qred (Qabs q))
  end.

(** Comparison of two floats; [None] as soon as one side is [NaN]. *)
Definition fcompare (x y : float64) : option comparison :=
  match x, y with
  | NaN, _ | _, NaN => None
  | Inf a, Inf b =>
      Some (if a then (if b then Eq else Lt) else (if b then Gt else Eq))
  | Inf a, Fin _ => Some (if a then Lt else Gt)
  | Fin _, Inf b => Some (if b then Gt else Lt)
  | Fin a, Fin b => Some (a ?= b)
  end.

Definition fltb (x y : float64) : bool :=
  match fcompare x y with Some Lt => true | _ => false end.
Definition fleb (x y : float64) : bool :=
  match fcompare x y with Some Lt | Some Eq => true | _ => false end.
Definition fgtb (x y : float64) : bool := fltb y x.
Definition fgeb (x y : float64) : bool := fleb y x.
Definition feqb (x y : float64) : bool :=
  match fcompare x y with Some Eq => true | _ => false end.

Definition of_Z (z : Z) : float64 := Fin (inject_Z z).
Definition of_nat (n : nat) : float64 := of_Z (Z.of_nat n).
Definition of_bool (b : bool) : float64 := if b then Fin 1 else Fin 0.

(** Python truth value of a float: zero is false, anything else is true. *)
Definition truthy_float (x : float64) : bool :=
  match x with Fin q => negb (Qzero q) | _ => true end.

(** ** Exceptions *)

Inductive error : Type :=
| KeyError (key : string)
| ValueError (msg : string)
| TypeError
| AttributeError.

Definition result (A : Type) : Type := (error + A)%type.

Definition ok {A} (a : A) : result A := inr a.
Definition raise {A} (e : error) : result A := inl e.

Definition rbind {A B} (m : result A) (k : A -> result B) : result B :=
  match m with
  | inl e => inl e
  | inr a => k a
  end.

Declare Scope result_scope.
Delimit Scope result_scope with result.
Notation "'let?' x ':=' m 'in' k" := (rbind m (fun x => k))
  (at level 10, x name, m at level 100, k at level 200) : result_scope.
Local Open Scope result_scope.

Definition is_ok {A} (r : result A) : bool :=
  match r with inr _ => true | inl _ => false end.

(** * battery_metrics.py *)

Module Metrics.

(** [BatteryMetricsCalculator.assess_health_status]. *)
Definition assess_health_status (soh temperature : float64) : string :=
  let temp_normal := fleb (of_Z 15) temperature && fleb temperature (of_Z 35) in
  if fgeb soh (of_Z 95) && temp_normal then "excellent"
  else if fgeb soh (of_Z 85) && temp_normal then "good"
  else if fgeb soh (of_Z 70) then "fair"
  else if fgeb soh (of_Z 50) then "poor"
  else "critical".

End Metrics.

(** * Data frames *)

Inductive column : Type :=
| FloatCol (xs : list float64)
| TimeCol (ts : list (option Z))
| BoolCol (bs : list bool)
| ObjCol (ss : list (option string)).

Definition table : Type := list (string * column).

Definition col_len (c : column) : nat :=
  match c with
  | FloatCol xs => length xs
  | TimeCol ts => length ts
  | BoolCol bs => length bs
  | ObjCol ss => length ss
  end.

Definition columns (df : table) : list string := map fst df.

Definition nrows (df : table) : nat :=
  match df with
  | [] => 0%nat
  | (_, c) :: _ => col_len c
  end.

Fixpoint lookup (name : string) (df : table) : option column :=
  match df with
  | [] => None
  | (n, c) :: rest => if String.eqb name n then Some c else lookup name rest
  end.

(** [name in df.columns] *)
Definition has_col (name : string) (df : table) : bool :=
  match lookup name df with Some _ => true | None => false end.

(** [df[name]] *)
Definition getitem (name : string) (df : table) : result column :=
  match lookup name df with
  | Some c => ok c
  | None => raise (KeyError name)
  end.

(** [df[name] = c]: an existing column is replaced where it stands, a new
    one is appended. *)
Fixpoint setitem (name : string) (c : column) (df : table) : table :=
  match df with
  | [] => [(name, c)]
  | (n, c0) :: rest =>
      if String.eqb name n then (n, c) :: rest
      else (n, c0) :: setitem name c rest
  end.

(** A frame is well formed when its column names are pairwise distinct and
    its columns have one common length. *)
Fixpoint distinct (l : list string) : bool :=
  match l with
  | [] => true
  | x :: r => negb (existsb (String.eqb x) r) && distinct r
  end.

Definition wf_table (df : table) : bool :=
  distinct (columns df) &&
  forallb (fun nc => Nat.eqb (col_len (snd nc)) (nrows df)) df.

(** [df.select_dtypes(include=[np.number]).columns] *)
Definition is_numeric (c : column) : bool :=
  match c with FloatCol _ => true | _ => false end.

Definition select_numeric (df : table) : list string :=
  map fst (filter (fun nc => is_numeric (snd nc)) df).

(** The numeric view numpy takes of a column in arithmetic and comparisons:
    booleans count as 0 and 1; strings and date-times do not take part in
    float arithmetic. *)
Definition as_float (c : column) : result (list float64) :=
  match c with
  | FloatCol xs => ok xs
  | BoolCol bs => ok (map of_bool bs)
  | _ => raise TypeError
  end.

(** ** Cells, for comparing and ordering the rows of one column *)

Inductive cell : Type :=
| CNegInf
| CNum (q : Q)
| CPosInf
| CTime (t : Z)
| CBool (b : bool)
| CStr (s : string)
| CNa.

Definition cell_of_float (x : float64) : cell :=
  match x with
  | NaN => CNa
  | Inf true => CNegInf
  | Inf false => CPosInf
  | Fin q => CNum q
  end.

Definition cells (c : column) : list cell :=
  match c with
  | FloatCol xs => map cell_of_float xs
  | TimeCol ts => map (fun t => match t with Some z => CTime z | None => CNa end) ts
  | BoolCol bs => map CBool bs
  | ObjCol ss => map (fun s => match s with Some x => CStr x | None => CNa end) ss
  end.

Definition rank (c : cell) : nat :=
  match c with
  | CNegInf => 0 | CNum _ => 1 | CPosInf => 2
  | CTime _ => 3 | CBool _ => 4 | CStr _ => 5 | CNa => 6
  end.

(** Strings compare by code point, as [str] does. *)
Definition str_leb (a b : string) : bool :=
  match String_as_OT.compare a b with Gt => false | _ => true end.

(** The order [sort_values] uses inside one column: values ascending, the
    missing ones last. *)
Definition cell_leb (a b : cell) : bool :=
  match a, b with
  | CNum x, CNum y => Qle_bool x y
  | CTime x, CTime y => Z.leb x y
  | CBool x, CBool y => implb x y
  | CStr x, CStr y => str_leb x y
  | _, _ => Nat.leb (rank a) (rank b)
  end.

Definition cell_ltb (a b : cell) : bool := negb (cell_leb b a).

(** Equality as [duplicated] sees it: missing values are equal to each
    other. *)
Definition cell_eqb (a b : cell) : bool := cell_leb a b && cell_leb b a.

(** ** Row selection *)

Fixpoint mask_filter {A} (mask : list bool) (xs : list A) : list A :=
  match mask, xs with
  | m :: mask', x :: xs' =>
      if m then x :: mask_filter mask' xs' else mask_filter mask' xs'
  | _, _ => []
  end.

Definition take {A} (idx : list nat) (xs : list A) : list A :=
  flat_map (fun i => match nth_error xs i with Some x => [x] | None => [] end) idx.

Definition map_rows (f : forall A, list A -> list A) (c : column) : column :=
  match c with
  | FloatCol xs => FloatCol (f _ xs)
  | TimeCol ts => TimeCol (f _ ts)
  | BoolCol bs => BoolCol (f _ bs)
  | ObjCol ss => ObjCol (f _ ss)
  end.

Definition select_rows (f : forall A, list A -> list A) (df : table) : table :=
  map (fun nc => (fst nc, map_rows f (snd nc))) df.

(** [Series.duplicated(keep='first')] *)
Fixpoint duplicated_from (seen : list cell) (l : list cell) : list bool :=
  match l with
  | [] => []
  | x :: r => existsb (cell_eqb x) seen :: duplicated_from (x :: seen) r
  end.

Definition duplicated (l : list cell) : list bool := duplicated_from [] l.

(** [df.drop_duplicates(subset=[name], keep='first')] *)
Definition drop_duplicates (name : string) (df : table) : result table :=
  let? key := getitem name df in
  let keep := map negb (duplicated (cells key)) in
  ok (select_rows (fun A => @mask_filter A keep) df).

(** ** Sorting *)

Section InsertionSort.
Context {A : Type} (leb : A -> A -> bool).

Fixpoint insert_by (x : A) (l : list A) : list A :=
  match l with
  | [] => [x]
  | y :: r => if leb x y then x :: l else y :: insert_by x r
  end.

Definition sort_by (l : list A) : list A := fold_right insert_by [] l.
End InsertionSort.

(** [argsort] with missing values last; equal keys keep their order. *)
Definition argsort (keys : list cell) : list nat :=
  map snd
    (sort_by (fun a b : cell * nat => cell_leb (fst a) (fst b))
       (combine keys (seq 0 (length keys)))).

(** [df.sort_values(name)] (followed or not by [reset_index(drop=True)]:
    a frame here carries no index of its own). *)
Definition sort_values (name : string) (df : table) : result table :=
  let? key := getitem name df in
  let idx := argsort (cells key) in
  ok (select_rows (fun A => @take A idx) df).

(** ** Series operations on floats *)

Fixpoint zip_with {A B C} (f : A -> B -> C) (xs : list A) (ys : list B) : list C :=
  match xs, ys with
  | x :: xs', y :: ys' => f x y :: zip_with f xs' ys'
  | _, _ => []
  end.

(** [fillna(method='ffill')] *)
Fixpoint ffill_from (last : float64) (xs : list float64) : list float64 :=
  match xs with
  | [] => []
  | x :: r => if is_nan x then last :: ffill_from last r else x :: ffill_from x r
  end.

Definition ffill (xs : list float64) : list float64 := ffill_from NaN xs.

(** [fillna(method='bfill')] *)
Definition bfill (xs : list float64) : list float64 := rev (ffill (rev xs)).

(** [Series.diff()]: the first entry has no predecessor. *)
Definition diff (xs : list float64) : list float64 :=
  match xs with
  | [] => []
  | _ :: r => NaN :: zip_with fsub r xs
  end.

(** [Series.diff()] on a boolean column is an exclusive or. *)
Definition diff_bool (bs : list bool) : list float64 :=
  match bs with
  | [] => []
  | _ :: r => NaN :: zip_with (fun b a => of_bool (xorb b a)) r bs
  end.

(** [Series.diff()] on date-times, then [.dt.total_seconds()]. *)
Definition total_seconds (d : option Z) : float64 :=
  match d with
  | Some ns => Fin (Qred (inject_Z ns / inject_Z 1000000000))
  | None => NaN
  end.

Definition time_sub (b a : option Z) : option Z :=
  match b, a with
  | Some y, Some x => Some (y - x)%Z
  | _, _ => None
  end.

Definition diff_time (ts : list (option Z)) : list (option Z) :=
  match ts with
  | [] => []
  | _ :: r => None :: zip_with time_sub r ts
  end.

(** [Series.cumsum()], which leaves a [NaN] where it meets one and carries
    the running sum past it. *)
Fixpoint cumsum_from (acc : float64) (xs : list float64) : list float64 :=
  match xs with
  | [] => []
  | x :: r =>
      if is_nan x then NaN :: cumsum_from acc r
      else let acc' := fadd acc x in acc' :: cumsum_from acc' r
  end.

Definition cumsum (xs : list float64) : list float64 := cumsum_from (Fin 0) xs.

Definition fsum (xs : list float64) : float64 := fold_left fadd xs (Fin 0).

(** [Series.mean()] skips missing values; nothing left gives [NaN]. *)
Definition mean (xs : list float64) : float64 :=
  let vs := filter notna xs in
  match vs with
  | [] => NaN
  | _ => fdiv (fsum vs) (of_nat (length vs))
  end.

(** Sample variance ([ddof=1]) of the non-missing values. *)
Definition var (xs : list float64) : float64 :=
  let vs := filter notna xs in
  match vs with
  | [] | [_] => NaN
  | _ =>
      let m := fdiv (fsum vs) (of_nat (length vs)) in
      fdiv (fsum (map (fun x => fmul (fsub x m) (fsub x m)) vs))
           (of_nat (length vs - 1))
  end.

(** [Series.quantile(q)]: linear interpolation between the two order
    statistics around position [(n-1)*q], the way numpy's [_lerp] does. *)
Definition lerp (a b : float64) (t : Q) : float64 :=
  let d := fsub b a in
  if Qle_bool (1 # 2) t then fsub b (fmul d (Fin (Qred (1 - t))))
  else fadd a (fmul d (Fin t)).

Definition quantile (q : Q) (xs : list float64) : float64 :=
  let vs := sort_by fleb (filter notna xs) in
  match vs with
  | [] => NaN
  | _ =>
      let n := length vs in
      let pos := inject_Z (Z.of_nat (n - 1)) * q in
      let lo := Qfloor pos in
      let i := Z.to_nat lo in
      lerp (nth i vs NaN) (nth (Nat.min (i + 1) (n - 1)) vs NaN)
           (Qred (pos - inject_Z lo))
  end.

(** [Series.clip(lower, upper)] with scalar bounds: a [NaN] bound is no
    bound, reversed bounds are swapped, missing values stay missing. *)
Definition bound (b : float64) : option float64 :=
  if is_nan b then None else Some b.

Definition clip_value (lower upper : option float64) (x : float64) : float64 :=
  if is_nan x then x
  else
    let r := match lower with
             | Some l => if fgeb x l then x else l
             | None => x
             end in
    match upper with
    | Some u => if fleb x u then r else u
    | None => r
    end.

Definition clip (lower upper : float64) (xs : list float64) : list float64 :=
  let lo := bound lower in
  let hi := bound upper in
  let '(lo, hi) :=
    match lo, hi with
    | Some l, Some u => if fleb l u then (Some l, Some u) else (Some u, Some l)
    | _, _ => (lo, hi)
    end in
  map (clip_value lo hi) xs.

(** The trailing window of at most [w] samples that ends at position [i]. *)
Definition window {A} (w i : nat) (xs : list A) : list A :=
  firstn (Nat.min w (i + 1)) (skipn (i + 1 - w) xs).

(** [Series.rolling(window=w, min_periods=mp)] followed by an aggregate
    over the non-missing samples of each window. *)
Definition rolling (w mp : nat) (agg : list float64 -> float64)
    (xs : list float64) : list float64 :=
  map (fun i =>
         let vs := filter notna (window w i xs) in
         if Nat.ltb (length vs) mp then NaN else agg vs)
      (seq 0 (length xs)).

(** The square root of a float, from a square root [qsqrt] on the
    non-negative rationals. *)
Definition fsqrt (qsqrt : Q -> Q) (x : float64) : float64 :=
  match x with
  | NaN => NaN
  | Inf neg => if neg then NaN else Inf false
  | Fin q => if Qneg q then NaN else Fin (Qred (qsqrt q))
  end.

(** [Series.std()] *)
Definition std (qsqrt : Q -> Q) (xs : list float64) : float64 :=
  fsqrt qsqrt (var xs).

(** A square root on the rationals that is exact on the squares of
    multiples of 10^-6; it instantiates [qsqrt] in the examples. *)
Definition sqrt_micro (q : Q) : Q :=
  Qred (inject_Z (Z.sqrt (Qfloor (q * inject_Z 1000000000000)))
        / inject_Z 1000000).

(** ** Strings *)

(** [s.endswith(suffix)] *)
Definition endswith (s suffix : string) : bool :=
  let n := String.length s in
  let m := String.length suffix in
  Nat.leb m n && String.eqb (substring (n - m) m s) suffix.

(** [sub in s] *)
Fixpoint contains (sub s : string) : bool :=
  prefix sub s ||
  match s with
  | EmptyString => false
  | String _ rest => contains sub rest
  end.

(** * data_processor.py *)

Module Processor.

Definition REQUIRED_COLUMNS : list string :=
  ["timestamp"; "voltage"; "current"; "temperature"].

Record validation_results : Type := {
  has_required_columns : bool;
  has_valid_timestamps : bool;
  has_valid_ranges : bool;
  has_duplicates : bool;
  has_missing_values : bool
}.

(** [pd.api.types.is_datetime64_any_dtype] *)
Definition is_datetime64_any_dtype (c : column) : bool :=
  match c with TimeCol _ => true | _ => false end.

(** Row [i] of a frame, cell by cell. *)
Definition row (df : table) (i : nat) : list cell :=
  map (fun nc => nth i (cells (snd nc)) CNa) df.

Fixpoint row_eqb (r1 r2 : list cell) : bool :=
  match r1, r2 with
  | [], [] => true
  | a :: r1', b :: r2' => cell_eqb a b && row_eqb r1' r2'
  | _, _ => false
  end.

(** [df.duplicated()] over whole rows. *)
Fixpoint rows_duplicated_from (seen : list (list cell)) (rows : list (list cell))
  : list bool :=
  match rows with
  | [] => []
  | r :: rest => existsb (row_eqb r) seen :: rows_duplicated_from (r :: seen) rest
  end.

Definition rows_duplicated (df : table) : list bool :=
  rows_duplicated_from [] (map (row df) (seq 0 (nrows df))).

Definition is_na (c : cell) : bool :=
  match c with CNa => true | _ => false end.

(** [df.isnull().any().any()] *)
Definition any_null (df : table) : bool :=
  existsb (fun nc => existsb is_na (cells (snd nc))) df.

(** [BatteryDataProcessor.validate_data] *)
Definition validate_data (data : table) : result validation_results :=
  let required :=
    forallb (fun c => has_col c data) REQUIRED_COLUMNS in
  let timestamps :=
    match lookup "timestamp" data with
    | Some c => is_datetime64_any_dtype c
    | None => true
    end in
  let duplicates := existsb (fun b => b) (rows_duplicated data) in
  let missing := any_null data in
  let? ranges :=
    match lookup "voltage" data with
    | Some c =>
        let? v := as_float c in
        ok (forallb (fun x => fgeb x (of_Z 0)) v)
    | None => ok true
    end in
  let? ranges :=
    match lookup "temperature" data with
    | Some c =>
        let? t := as_float c in
        let temp_valid :=
          map (fun x => fgeb x (of_Z (-50)) && fleb x (of_Z 100)) t in
        ok (ranges && forallb (fun b => b) temp_valid)
    | None => ok ranges
    end in
  ok {| has_required_columns := required;
        has_valid_timestamps := timestamps;
        has_valid_ranges := ranges;
        has_duplicates := duplicates;
        has_missing_values := missing |}.

(** [df[numeric_cols] = df[numeric_cols].fillna(method='ffill')
                                       .fillna(method='bfill')] *)
Definition fill_column (c : column) : column :=
  match c with
  | FloatCol xs => FloatCol (bfill (ffill xs))
  | _ => c
  end.

Definition fill_numeric (df : table) : table :=
  map (fun nc => (fst nc, fill_column (snd nc))) df.

(** The quantile and the clip of a column need floats; the quantile of a
    boolean or string column raises.  (Quantiles of date-times are outside
    this embedding and are treated alike.) *)
Definition float_values (c : column) : result (list float64) :=
  match c with
  | FloatCol xs => ok xs
  | _ => raise TypeError
  end.

(** The interquartile bounds of the clipping step. *)
Definition iqr_bounds (xs : list float64) : float64 * float64 :=
  let Q1 := quantile (1 # 4) xs in
  let Q3 := quantile (3 # 4) xs in
  let IQR := fsub Q3 Q1 in
  (fsub Q1 (fmul (of_Z 3) IQR), fadd Q3 (fmul (of_Z 3) IQR)).

(** One turn of the loop [for col in ['voltage', 'current', 'temperature']]. *)
Definition clip_outliers (df : table) (col : string) : result table :=
  if has_col col df then
    let? c := getitem col df in
    let? xs := float_values c in
    let '(lower_bound, upper_bound) := iqr_bounds xs in
    ok (setitem col (FloatCol (clip lower_bound upper_bound xs)) df)
  else ok df.

Fixpoint for_each {A S} (l : list A) (body : S -> A -> result S) (s : S)
  : result S :=
  match l with
  | [] => ok s
  | x :: r => let? s' := body s x in for_each r body s'
  end.

(** The frame as it stands when the clipping loop starts: duplicates
    dropped, rows sorted, numeric gaps filled. *)
Definition before_clip (data : table) : result table :=
  let df := data in
  let? df := drop_duplicates "timestamp" df in
  let? df :=
    if has_col "timestamp" df then sort_values "timestamp" df else ok df in
  ok (fill_numeric df).

(** [BatteryDataProcessor.clean_data] *)
Definition clean_data (data : table) : result table :=
  let? df := before_clip data in
  for_each ["voltage"; "current"; "temperature"] clip_outliers df.

Section Features.
Variable qsqrt : Q -> Q.

(** [df['voltage'] * df['current']]: booleans multiply to a boolean,
    anything else goes through the numeric view. *)
Definition mul_columns (a b : column) : result column :=
  match a, b with
  | BoolCol x, BoolCol y => ok (BoolCol (zip_with andb x y))
  | _, _ =>
      let? x := as_float a in
      let? y := as_float b in
      ok (FloatCol (zip_with fmul x y))
  end.

(** [df['timestamp'].diff().dt.total_seconds()]: strings do not
    subtract, and only date-times have the [.dt] accessor. *)
Definition elapsed_seconds (c : column) : result (list float64) :=
  match c with
  | TimeCol ts => ok (map total_seconds (diff_time ts))
  | ObjCol _ => raise TypeError
  | FloatCol _ | BoolCol _ => raise AttributeError
  end.

(** [df[col].diff()] as the numbers the later arithmetic sees.
    (Differences of date-times are outside this embedding.) *)
Definition diff_column (c : column) : result (list float64) :=
  match c with
  | FloatCol xs => ok (diff xs)
  | BoolCol bs => ok (diff_bool bs)
  | _ => raise TypeError
  end.

Definition rolling_std (w mp : nat) (xs : list float64) : list float64 :=
  rolling w mp (std qsqrt) xs.

Definition rolling_mean (w mp : nat) (xs : list float64) : list float64 :=
  rolling w mp mean xs.

Definition derive_power (df : table) : result table :=
  if negb (has_col "power" df) && has_col "voltage" df && has_col "current" df
  then
    let? v := getitem "voltage" df in
    let? c := getitem "current" df in
    let? p := mul_columns v c in
    ok (setitem "power" p df)
  else ok df.

Definition derive_energy (df : table) : result table :=
  if has_col "power" df && has_col "timestamp" df then
    let? df := sort_values "timestamp" df in
    let? ts := getitem "timestamp" df in
    let? secs := elapsed_seconds ts in
    let time_diff := map (fun s => fdiv s (of_Z 3600)) secs in
    let? pc := getitem "power" df in
    let? power := as_float pc in
    let energy_delta :=
      map (fun x => fdiv x (of_Z 1000)) (zip_with fmul power time_diff) in
    let df := setitem "energy_delta" (FloatCol energy_delta) df in
    ok (setitem "cumulative_energy" (FloatCol (cumsum energy_delta)) df)
  else ok df.

Definition derive_temperature (df : table) : result table :=
  if has_col "temperature" df then
    let? t := getitem "temperature" df in
    let? temp_delta := diff_column t in
    let df := setitem "temp_delta" (FloatCol temp_delta) df in
    let? delta := getitem "temp_delta" df in
    let? delta := as_float delta in
    let? ts := getitem "timestamp" df in
    let? secs := elapsed_seconds ts in
    ok (setitem "temp_rate" (FloatCol (zip_with fdiv delta secs)) df)
  else ok df.

Definition derive_voltage (df : table) : result table :=
  if has_col "voltage" df then
    let? v := getitem "voltage" df in
    let? xs := as_float v in
    ok (setitem "voltage_rolling_std" (FloatCol (rolling_std 10 1 xs)) df)
  else ok df.

(** [BatteryDataProcessor.calculate_derived_features] *)
Definition calculate_derived_features (data : table) : result table :=
  let df := data in
  let? df := derive_power df in
  let? df := derive_energy df in
  let? df := derive_temperature df in
  derive_voltage df.

End Features.

End Processor.

(** * anomaly_detector.py *)

Module Detector.

Section WithForest.
Variable qsqrt : Q -> Q.

(** The isolation forest comes from scikit-learn.  [Model] is a fitted
    forest, [forest_fit contamination X] fits one on the feature columns
    [X] (with [random_state=42], so it is a function), and
    [forest_predict m X] gives one of -1 and 1 per row. *)
Variable Model : Type.
Variable forest_fit : float64 -> list (list float64) -> result Model.
Variable forest_predict : Model -> list (list float64) -> result (list Z).

(** ** The store *)

(** [frames] holds every data frame allocated so far; a reference is a
    position in it.  [isolation_forest] is the attribute of the detector:
    [None] before the first use, [Some None] once the estimator object
    has been built, [Some (Some m)] once it has been fitted. *)
Record state : Type := {
  frames : list table;
  contamination : float64;
  isolation_forest : option (option Model)
}.

Definition ref : Type := nat.

Definition M (A : Type) : Type := state -> result A * state.

Definition ret {A} (a : A) : M A := fun st => (ok a, st).

Definition bind {A B} (m : M A) (k : A -> M B) : M B :=
  fun st =>
    match m st with
    | (inl e, st') => (inl e, st')
    | (inr a, st') => k a st'
    end.

Definition throw {A} (e : error) : M A := fun st => (raise e, st).

Definition lift {A} (r : result A) : M A := fun st => (r, st).

Definition frame_at (st : state) (r : ref) : table := nth r (frames st) [].

(** The frame a reference points to. *)
Definition read (r : ref) : M table := fun st => (ok (frame_at st r), st).

(** [data.copy()] *)
Definition copy (r : ref) : M ref :=
  fun st =>
    (ok (length (frames st)),
     {| frames := frames st ++ [frame_at st r];
        contamination := contamination st;
        isolation_forest := isolation_forest st |}).

Fixpoint update {A} (i : nat) (f : A -> A) (l : list A) : list A :=
  match l, i with
  | [], _ => []
  | x :: r, O => f x :: r
  | x :: r, S j => x :: update j f r
  end.

(** [df[name] = c], in place. *)
Definition assign (r : ref) (name : string) (c : column) : M unit :=
  fun st =>
    (ok tt,
     {| frames := update r (setitem name c) (frames st);
        contamination := contamination st;
        isolation_forest := isolation_forest st |}).

Definition get_forest : M (option (option Model)) :=
  fun st => (ok (isolation_forest st), st).

Definition set_forest (f : option Model) : M unit :=
  fun st =>
    (ok tt,
     {| frames := frames st;
        contamination := contamination st;
        isolation_forest := Some f |}).

Definition get_contamination : M float64 :=
  fun st => (ok (contamination st), st).

Notation "x <- m ;; k" := (bind m (fun x => k))
  (at level 61, m at next level, right associativity).
Notation "m ;;; k" := (bind m (fun _ => k))
  (at level 61, right associativity).

(** [for x in l: body(x)] *)
Fixpoint for_ {A} (l : list A) (body : A -> M unit) : M unit :=
  match l with
  | [] => ret tt
  | x :: r => body x ;;; for_ r body
  end.

(** A loop that rebinds one variable: [for x in l: v = body(v, x)]. *)
Fixpoint for_with {A V} (l : list A) (body : V -> A -> M V) (v : V) : M V :=
  match l with
  | [] => ret v
  | x :: r => v' <- body v x ;; for_with r body v'
  end.

(** ** Row-wise reductions *)

(** Truth values of a column, as [any] reads them with [skipna=True]. *)
Definition truth_values (c : column) : result (list bool) :=
  match c with
  | FloatCol xs => ok (map (fun x => notna x && truthy_float x) xs)
  | BoolCol bs => ok bs
  | ObjCol ss =>
      ok (map (fun s => match s with
                        | Some x => negb (String.eqb x "")
                        | None => false
                        end) ss)
  | TimeCol _ => raise TypeError
  end.

Fixpoint select {A} (f : string -> result A) (names : list string)
  : result (list A) :=
  match names with
  | [] => ok []
  | n :: r =>
      let? a := f n in
      let? rest := select f r in
      ok (a :: rest)
  end.

(** [df[names].any(axis=1)] *)
Definition any_axis1 (df : table) (names : list string) : result (list bool) :=
  let? cols := select (fun n => let? c := getitem n df in truth_values c) names in
  ok (map (fun i => existsb (fun c => nth i c false) cols) (seq 0 (nrows df))).

(** [df[names].sum(axis=1)], missing values counting for nothing. *)
Definition sum_axis1 (df : table) (names : list string) : result (list float64) :=
  let? cols := select (fun n => let? c := getitem n df in as_float c) names in
  ok (map (fun i =>
             fsum (map (fun c => let x := nth i c NaN in
                                 if is_nan x then Fin 0 else x) cols))
          (seq 0 (nrows df))).

(** ** The detection passes *)

Definition zscores (xs : list float64) : list float64 :=
  let mean := mean xs in
  let std := std qsqrt xs in
  map (fun x => fabs (fdiv (fsub x mean) std)) xs.

(** [BatteryAnomalyDetector.detect_statistical_anomalies] *)
Definition detect_statistical_anomalies
    (data : ref) (columns : option (list string)) (std_threshold : float64)
  : M ref :=
  df <- copy data ;;
  t <- read df ;;
  let columns :=
    match columns with
    | None => select_numeric t
    | Some cs => cs
    end in
  for_ columns (fun col =>
    t <- read df ;;
    if has_col col t then
      c <- lift (getitem col t) ;;
      xs <- lift (as_float c) ;;
      let z_scores := zscores xs in
      assign df (col ++ "_anomaly")
        (BoolCol (map (fun z => fgtb z std_threshold) z_scores)) ;;;
      assign df (col ++ "_zscore") (FloatCol z_scores)
    else ret tt) ;;;
  t <- read df ;;
  let anomaly_cols :=
    filter (fun n => has_col n t) (map (fun col => col ++ "_anomaly") columns) in
  flags <- lift (any_axis1 t anomaly_cols) ;;
  assign df "is_anomaly" (BoolCol flags) ;;;
  ret df.

(** [data[features].fillna(data[features].mean())], column by column. *)
Definition impute_mean (c : column) : result (list float64) :=
  let? xs := as_float c in
  let m := mean xs in
  ok (map (fun x => if is_nan x then m else x) xs).

(** [BatteryAnomalyDetector.detect_isolation_forest] *)
Definition detect_isolation_forest
    (data : ref) (features : option (list string)) : M (list Z) :=
  t <- read data ;;
  let features :=
    match features with
    | None => select_numeric t
    | Some fs => fs
    end in
  X <- lift (select (fun n => let? c := getitem n t in impute_mean c) features) ;;
  f <- get_forest ;;
  match f with
  | None =>
      set_forest None ;;;
      c <- get_contamination ;;
      m <- lift (forest_fit c X) ;;
      set_forest (Some m)
  | Some _ => ret tt
  end ;;;
  f <- get_forest ;;
  match f with
  | Some (Some m) => lift (forest_predict m X)
  | _ => throw (ValueError "This IsolationForest instance is not fitted yet")
  end.

(** [BatteryAnomalyDetector.detect_threshold_violations] *)
Definition detect_threshold_violations
    (data : ref) (thresholds : list (string * (float64 * float64))) : M ref :=
  df <- copy data ;;
  for_ thresholds (fun entry =>
    let '(col, (min_val, max_val)) := entry in
    t <- read df ;;
    if has_col col t then
      c <- lift (getitem col t) ;;
      xs <- lift (as_float c) ;;
      let violations := map (fun x => fltb x min_val || fgtb x max_val) xs in
      assign df (col ++ "_violation") (BoolCol violations)
    else ret tt) ;;;
  t <- read df ;;
  let violation_cols :=
    filter (fun col => endswith col "_violation") (columns t) in
  flags <- lift (any_axis1 t violation_cols) ;;
  assign df "has_violation" (BoolCol flags) ;;;
  ret df.

Definition column_not_found (column : string) : error :=
  ValueError ("Column '" ++ column ++ "' not found in data").

(** [BatteryAnomalyDetector.detect_sudden_changes] *)
Definition detect_sudden_changes
    (data : ref) (column : string) (change_threshold : float64) : M ref :=
  df <- copy data ;;
  t <- read df ;;
  if negb (has_col column t) then throw (column_not_found column)
  else
    c <- lift (getitem column t) ;;
    delta <- lift (Processor.diff_column c) ;;
    assign df (column ++ "_delta") (FloatCol delta) ;;;
    t <- read df ;;
    d <- lift (getitem (column ++ "_delta") t) ;;
    d <- lift (as_float d) ;;
    assign df (column ++ "_sudden_change")
      (BoolCol (map (fun x => fgtb (fabs x) change_threshold) d)) ;;;
    ret df.

(** [BatteryAnomalyDetector.detect_pattern_deviations] *)
Definition detect_pattern_deviations
    (data : ref) (column : string) (window : nat) : M ref :=
  df <- copy data ;;
  t <- read df ;;
  if negb (has_col column t) then throw (column_not_found column)
  else
    c <- lift (getitem column t) ;;
    xs <- lift (as_float c) ;;
    assign df (column ++ "_rolling_mean")
      (FloatCol (Processor.rolling_mean window window xs)) ;;;
    assign df (column ++ "_rolling_std")
      (FloatCol (Processor.rolling_std qsqrt window window xs)) ;;;
    t <- read df ;;
    c <- lift (getitem column t) ;;
    xs <- lift (as_float c) ;;
    rm <- lift (getitem (column ++ "_rolling_mean") t) ;;
    rm <- lift (as_float rm) ;;
    let deviation := zip_with (fun x m => fabs (fsub x m)) xs rm in
    rs <- lift (getitem (column ++ "_rolling_std") t) ;;
    rs <- lift (as_float rs) ;;
    assign df (column ++ "_pattern_deviation")
      (BoolCol (zip_with (fun d s => fgtb d (fmul (of_Z 3) s)) deviation rs)) ;;;
    ret df.

Definition default_thresholds : list (string * (float64 * float64)) :=
  [("voltage", (of_Z 40, of_Z 60));
   ("current", (of_Z (-200), of_Z 200));
   ("temperature", (of_Z 0, of_Z 50))].

Definition is_indicator (col : string) : bool :=
  contains "anomaly" col || contains "violation" col ||
  contains "deviation" col || contains "change" col.

(** [df[name] = values] for an array: the lengths have to agree. *)
Definition assign_array (r : ref) (name : string) (values : list Z) : M unit :=
  t <- read r ;;
  if Nat.eqb (length values) (nrows t) then
    assign r name (FloatCol (map of_Z values))
  else throw (ValueError "Length of values does not match length of index").

(** [BatteryAnomalyDetector.comprehensive_anomaly_detection] *)
Definition comprehensive_anomaly_detection
    (data : ref)
    (operational_thresholds : option (list (string * (float64 * float64))))
  : M ref :=
  df <- copy data ;;
  df <- detect_statistical_anomalies df None (of_Z 3) ;;
  t <- read df ;;
  let numeric_cols := select_numeric t in
  match numeric_cols with
  | [] => ret tt
  | _ =>
      preds <- detect_isolation_forest df (Some numeric_cols) ;;
      assign_array df "isolation_forest_anomaly" preds ;;;
      t <- read df ;;
      c <- lift (getitem "isolation_forest_anomaly" t) ;;
      xs <- lift (as_float c) ;;
      assign df "isolation_forest_anomaly"
        (BoolCol (map (fun x => feqb x (of_Z (-1))) xs))
  end ;;;
  let operational_thresholds :=
    match operational_thresholds with
    | None => default_thresholds
    | Some th => th
    end in
  df <- detect_threshold_violations df operational_thresholds ;;
  df <- for_with ["temperature"; "voltage"] (fun df col =>
          t <- read df ;;
          if has_col col t then detect_sudden_changes df col (of_Z 10)
          else ret df) df ;;
  df <- for_with ["voltage"; "current"] (fun df col =>
          t <- read df ;;
          if has_col col t then detect_pattern_deviations df col 20
          else ret df) df ;;
  t <- read df ;;
  let anomaly_indicators := filter is_indicator (columns t) in
  match anomaly_indicators with
  | [] => ret tt
  | _ =>
      s <- lift (sum_axis1 t anomaly_indicators) ;;
      assign df "anomaly_score"
        (FloatCol (map (fun x => fdiv x (of_nat (length anomaly_indicators))) s))
  end ;;;
  ret df.

End WithForest.

Arguments frames {Model} _.
Arguments contamination {Model} _.
Arguments isolation_forest {Model} _.
Arguments ret {Model A} _ _.
Arguments bind {Model A B} _ _ _.
Arguments throw {Model A} _ _.
Arguments lift {Model A} _ _.
Arguments frame_at {Model} _ _.
Arguments read {Model} _ _.
Arguments copy {Model} _ _.
Arguments assign {Model} _ _ _ _.
Arguments get_forest {Model} _.
Arguments set_forest {Model} _ _.
Arguments get_contamination {Model} _.
Arguments for_ {Model A} _ _ _.
Arguments for_with {Model A V} _ _ _ _.
Arguments assign_array {Model} _ _ _ _.
Arguments detect_statistical_anomalies _ {Model} _ _ _ _.
Arguments detect_isolation_forest {Model} _ _ _ _ _.
Arguments detect_threshold_violations {Model} _ _ _.
Arguments detect_sudden_changes {Model} _ _ _ _.
Arguments detect_pattern_deviations _ {Model} _ _ _ _.
Arguments comprehensive_anomaly_detection _ {Model} _ _ _ _ _.

End Detector.

(** * battery_metrics.py, the other methods *)

Module Calculator.

(** What the arithmetic of the calculator raises. *)
Inductive arithmetic_error : Type :=
| ZeroDivisionError.

(** [a / b] on Python floats: a zero divisor raises, every other case is
    the IEEE quotient. *)
Definition py_div (a b : float64) : arithmetic_error + float64 :=
  match b with
  | Fin q => if Qzero q then inl ZeroDivisionError else inr (fdiv a b)
  | _ => inr (fdiv a b)
  end.

(** The builtins [min(a, b)] and [max(a, b)]: the first argument stays
    unless the second is strictly smaller (greater), so a [NaN] in second
    place is never chosen. *)
Definition py_min (a b : float64) : float64 := if fltb b a then b else a.
Definition py_max (a b : float64) : float64 := if fgtb b a then b else a.

(** [BatteryMetricsCalculator.calculate_soh]; [nominal_capacity] is the
    attribute of the calculator. *)
Definition calculate_soh (nominal_capacity current_capacity : float64)
  : arithmetic_error + float64 :=
  match py_div current_capacity nominal_capacity with
  | inl e => inl e
  | inr ratio =>
      let soh := fmul ratio (of_Z 100) in
      inr (py_max (of_Z 0) (py_min (of_Z 100) soh))
  end.

(** [BatteryMetricsCalculator.calculate_soc] *)
Definition calculate_soc (current_charge max_capacity : float64)
  : arithmetic_error + float64 :=
  match py_div current_charge max_capacity with
  | inl e => inl e
  | inr ratio =>
      let soc := fmul ratio (of_Z 100) in
      inr (py_max (of_Z 0) (py_min (of_Z 100) soc))
  end.

(** [BatteryMetricsCalculator.calculate_energy_efficiency]: the guard
    keeps the divisor away from zero, so nothing can be raised. *)
Definition calculate_energy_efficiency (energy_in energy_out : float64) : float64 :=
  if fleb energy_in (of_Z 0) then of_Z 0
  else
    let efficiency := fmul (fdiv energy_out energy_in) (of_Z 100) in
    py_min (of_Z 100) (py_max (of_Z 0) efficiency).

(** [BatteryMetricsCalculator.calculate_degradation_rate] on a series of
    floats; the samples are numpy scalars, whose division never raises. *)
Definition calculate_degradation_rate
    (capacity_history : list float64) (time_period_days : Z) : float64 :=
  if Nat.ltb (length capacity_history) 2 then of_Z 0
  else
    let initial_capacity := hd NaN capacity_history in
    let final_capacity := last capacity_history NaN in
    let degradation :=
      fmul (fdiv (fsub initial_capacity final_capacity) initial_capacity)
           (of_Z 100) in
    let months := fdiv (of_Z time_period_days) (of_Z 30) in
    let degradation_rate :=
      if fgtb months (of_Z 0) then fdiv degradation months else of_Z 0 in
    py_max (of_Z 0) degradation_rate.

(** The body of the loop of [count_cycles]: the swings of the state of
    charge, each divided by 100, added up from 0. *)
Fixpoint swing_sum (acc : float64) (prev : float64) (rest : list float64) : float64 :=
  match rest with
  | [] => acc
  | x :: r =>
      let delta_soc := fabs (fsub x prev) in
      swing_sum (fadd acc (fdiv delta_soc (of_Z 100))) x r
  end.

Definition partial_cycle_sum (soc_values : list float64) : float64 :=
  match soc_values with
  | [] => of_Z 0
  | x :: r => swing_sum (of_Z 0) x r
  end.

(** [charge_data['soc'].values], as far as the loop looks at it: with
    fewer than two rows nothing is subtracted; otherwise only floats
    subtract. *)
Definition soc_values (c : column) : result (list float64) :=
  match c with
  | FloatCol xs => ok xs
  | _ => if Nat.ltb (col_len c) 2 then ok [] else raise TypeError
  end.

(** [BatteryMetricsCalculator.count_cycles]: [//] and [%] are the floor
    division and its remainder; [int] of a sum that is not a number
    raises. *)
Definition count_cycles (charge_data : table) : result (Z * float64) :=
  if negb (has_col "soc" charge_data) then ok (0%Z, of_Z 0)
  else
    let? c := getitem "soc" charge_data in
    let? values := soc_values c in
    match partial_cycle_sum values with
    | Fin s =>
        let full_cycles := Qfloor (s / 2) in
        let partial_cycles := Fin (Qred (s - 2 * inject_Z full_cycles)) in
        ok (full_cycles, partial_cycles)
    | _ => raise (ValueError "cannot convert float NaN to integer")
    end.

End Calculator.

(** * data_processor.py, the pipeline *)

Module Pipeline.
Import Processor.

Section WithResampler.
Variable qsqrt : Q -> Q.

(** The resampling itself is pandas':
    [df[numeric_cols].resample(frequency).mean()] on the frame indexed by
    its time stamps, followed by [reset_index()].  It is a function of the
    frequency, the index and the numeric columns. *)
Variable resample_mean : string -> column -> table -> result table.

(** The processor object: [self.data]. *)
Record processor : Type := { data : option table }.

(** [BatteryDataProcessor.load_data] on a data frame (reading a CSV file
    is outside this embedding): the copy is kept in [self.data] and
    returned. *)
Definition load_data (frame : table) (self : processor) : table * processor :=
  (frame, {| data := Some frame |}).

(** [df.set_index('timestamp')] takes the column out of the frame. *)
Definition drop_column (name : string) (df : table) : table :=
  filter (fun nc => negb (String.eqb (fst nc) name)) df.

(** [df[numeric_cols]] with [numeric_cols] the numeric columns of [df]. *)
Definition numeric_part (df : table) : table :=
  filter (fun nc => is_numeric (snd nc)) df.

(** [BatteryDataProcessor.resample_data] *)
Definition resample_data (frame : table) (frequency : string) : result table :=
  let df := frame in
  if negb (has_col "timestamp" df) then
    raise (ValueError "Data must have 'timestamp' column")
  else
    let? index := getitem "timestamp" df in
    let df := drop_column "timestamp" df in
    resample_mean frequency index (numeric_part df).

Definition missing_required_columns : error :=
  ValueError
    "Missing required columns: ['timestamp', 'voltage', 'current', 'temperature']".

(** [BatteryDataProcessor.process_pipeline] on a data frame.  An empty
    frequency string is as good as none. *)
Definition process_pipeline
    (frame : table) (clean add_features : bool) (resample_freq : option string)
    (self : processor) : result table * processor :=
  let '(df, self) := load_data frame self in
  (let? validation := validate_data df in
   if negb (has_required_columns validation) then raise missing_required_columns
   else
     let? df := if clean then clean_data df else ok df in
     let? df :=
       if add_features then calculate_derived_features qsqrt df else ok df in
     match resample_freq with
     | Some frequency =>
         if String.eqb frequency "" then ok df else resample_data df frequency
     | None => ok df
     end,
   self).

End WithResampler.

End Pipeline.

(** The quotient of a float by an elapsed time of zero seconds. *)
Definition over_zero (x : float64) : float64 :=
  match x with
  | NaN => NaN
  | Inf s => Inf s
  | Fin d => if Qzero d then NaN else Inf (Qneg d)
  end.

(** ** Notions used to state the specification *)

(** A string of the form [YYYY-MM-DD hh:mm:ss]: every date-time parser
    reads it. *)
Definition is_digit (c : ascii) : bool :=
  let n := nat_of_ascii c in Nat.leb 48 n && Nat.leb n 57.

Definition iso_datetime (s : string) : bool :=
  match list_ascii_of_string s with
  | [y1; y2; y3; y4; d1; m1; m2; d2; a1; a2; sp; h1; h2; c1; n1; n2; c2; s1; s2] =>
      forallb is_digit [y1; y2; y3; y4; m1; m2; a1; a2; h1; h2; n1; n2; s1; s2]
      && Ascii.eqb d1 "-" && Ascii.eqb d2 "-" && Ascii.eqb sp " "
      && Ascii.eqb c1 ":" && Ascii.eqb c2 ":"
  | _ => false
  end.

(** Every value of the column can be read as a date-time: the column holds
    date-times already, or strings in the form above. *)
Definition parseable_as_datetime (c : column) : bool :=
  match c with
  | TimeCol _ => true
  | ObjCol ss =>
      forallb (fun s => match s with Some x => iso_datetime x | None => false end) ss
  | FloatCol _ | BoolCol _ => false
  end.

(** A column the range checks and the float arithmetic accept. *)
Definition numeric_view_ok (c : column) : bool :=
  match c with FloatCol _ | BoolCol _ => true | _ => false end.

Definition numeric_or_absent (name : string) (df : table) : bool :=
  match lookup name df with
  | Some c => numeric_view_ok c
  | None => true
  end.

(** The names the detection passes write: a checked column's name followed
    by one of these suffixes, or the composite score.  ([is_anomaly],
    [isolation_forest_anomaly] and [has_violation] end in one of the
    suffixes too.) *)
Definition generated_suffixes : list string :=
  ["_anomaly"; "_zscore"; "_violation"; "_delta"; "_sudden_change";
   "_rolling_mean"; "_rolling_std"; "_pattern_deviation"].

Definition generated_name (c : string) : bool :=
  existsb (endswith c) generated_suffixes || String.eqb c "anomaly_score".

(** The raw telemetry fields of the data model. *)
Definition TELEMETRY_COLUMNS : list string :=
  Processor.REQUIRED_COLUMNS ++ ["soc"; "capacity"; "power"].

(** [t'] extends [t]: the columns of [t] come first in [t'], in the same
    order, and every column whose name is not a generated one has the
    cells it had. *)
Definition additive (t t' : table) : Prop :=
  (exists extra, columns t' = (columns t ++ extra)%list) /\
  (forall c, generated_name c = false -> lookup c t' = lookup c t).

(** The float [x] is a number equal to [v]. *)
Definition fin_eq (v : Q) (x : float64) : Prop := exists q, x = Fin q /\ q == v.

(** The columns [detect_statistical_anomalies] checks. *)
Definition checked_columns (columns : option (list string)) (t : table)
  : list string :=
  match columns with
  | None => select_numeric t
  | Some cs => cs
  end.

(** Every non-missing value of the column is the number [v]. *)
Definition all_equal_to (v : Q) (xs : list float64) : bool :=
  forallb (fun x => match x with
                    | NaN => true
                    | Fin q => Qeq_bool q v
                    | Inf _ => false
                    end) xs.

(** Every checked column is in the frame and numeric. *)
Definition all_numeric (cols : list string) (t : table) : bool :=
  forallb (fun col => match lookup col t with
                      | Some cc => numeric_view_ok cc
                      | None => false
                      end) cols.

(** No name the pass assigns is the name of column [c] or of one of its
    two outputs: [c] is not [<col>_anomaly] or [<col>_zscore] for a checked
    [col], and [c ++ "_anomaly"] is not [is_anomaly]. *)
Definition no_collision (c : string) (cols : list string) : bool :=
  negb (String.eqb c "is") &&
  forallb (fun col => negb (String.eqb c (col ++ "_anomaly")) &&
                      negb (String.eqb c (col ++ "_zscore"))) cols.

(** ** Notions for the cleaner *)

(** Strictly ascending in the order of [sort_values]; since a missing
    value is below nothing, at most one is left and it comes last. *)
Definition cell_lt (a b : cell) : Prop := cell_ltb a b = true.

Definition strictly_increasing (c : column) : Prop :=
  StronglySorted cell_lt (cells c).

(** No two keys of the list are equal. *)
Fixpoint distinct_keys (l : list cell) : Prop :=
  match l with
  | [] => True
  | x :: r => (forall y, In y r -> cell_eqb x y = false) /\ distinct_keys r
  end.

(** The filling step leaves the column alone: it is not a float column,
    or it has no missing value. *)
Definition fill_free (c : column) : bool :=
  negb (is_numeric c) || forallb notna (match c with FloatCol xs => xs | _ => [] end).

Definition float_or_absent (name : string) (df : table) : bool :=
  match lookup name df with
  | Some c => is_numeric c
  | None => true
  end.

Definition CLIPPED_COLUMNS : list string := ["voltage"; "current"; "temperature"].

(** The number of distinct non-missing values of a float column. *)
Fixpoint dedup_cells (l : list cell) : list cell :=
  match l with
  | [] => []
  | x :: r => if existsb (cell_eqb x) r then dedup_cells r else x :: dedup_cells r
  end.

Definition n_distinct (xs : list float64) : nat :=
  length (dedup_cells (map cell_of_float (filter notna xs))).

(** A float that is a number or missing. *)
Definition finite_or_nan (x : float64) : bool :=
  match x with Inf _ => false | _ => true end.

(** The order statistic interpolated at position [(n-1)*q] of an ascending
    list of rationals. *)
Definition interpolate (qs : list Q) (q : Q) : Q :=
  let n := length qs in
  let pos := inject_Z (Z.of_nat (n - 1)) * q in
  let i := Z.to_nat (Qfloor pos) in
  nth i qs 0
  + (nth (Nat.min (i + 1) (n - 1)) qs 0 - nth i qs 0) * (pos - inject_Z (Qfloor pos)).

(** The float is missing or a number equal to [v]. *)
Definition nan_or_eq (v : Q) (x : float64) : Prop := x = NaN \/ fin_eq v x.

(** What one turn of the clipping loop does to the column it visits. *)
Definition clip_column (c : column) : column :=
  match c with
  | FloatCol xs =>
      FloatCol (clip (fst (Processor.iqr_bounds xs))
                     (snd (Processor.iqr_bounds xs)) xs)
  | _ => c
  end.

Definition is_clipped (n : string) : bool :=
  existsb (String.eqb n) CLIPPED_COLUMNS.

(** The type of a column, as far as the code tells types apart. *)
Definition kind (c : column) : nat :=
  match c with
  | FloatCol _ => 0
  | TimeCol _ => 1
  | BoolCol _ => 2
  | ObjCol _ => 3
  end.

(** ** Notions for the calculator *)

(** The swings of a series of states of charge, each as a fraction of a
    full charge, added up. *)
Fixpoint total_swing (prev : Q) (rest : list Q) : Q :=
  match rest with
  | [] => 0
  | x :: r => Qabs (x - prev) / 100 + total_swing x r
  end.

Definition swings (qs : list Q) : Q :=
  match qs with
  | [] => 0
  | q :: r => total_swing q r
  end.

(** A percentage cut to the range from 0 to 100. *)
Definition clamped (x r : Q) : Prop :=
  (x <= 0 /\ r == 0) \/ (0 <= x /\ x <= 100 /\ r == x) \/ (100 <= x /\ r == 100).

Definition soc_trace : table :=
  [("soc", FloatCol [Fin 0; Fin 100; Fin 0; Fin 50])].

Definition soc_gap : table :=
  [("soc", FloatCol [Fin 80; NaN; Fin 70])].

(** The five health statuses, from worst to best. *)
Definition status_rank (status : string) : nat :=
  if String.eqb status "excellent" then 4
  else if String.eqb status "good" then 3
  else if String.eqb status "fair" then 2
  else if String.eqb status "poor" then 1
  else 0.

(** ** Notions for the validator *)

(** The float readings of a column; none when the column is absent. *)
Definition readings (name : string) (data : table) : list float64 :=
  match lookup name data with
  | Some (FloatCol xs) => xs
  | _ => []
  end.

Definition voltage_in_range (x : float64) : Prop :=
  x = Inf false \/ exists q, x = Fin q /\ 0 <= q.

Definition temperature_in_range (x : float64) : Prop :=
  exists q, x = Fin q /\ -50 <= q /\ q <= 100.

(** ** Notions for the isolation forest *)

(** The feature matrix [X] the isolation-forest pass hands to the
    estimator: the chosen columns, each with its missing values replaced
    by the column mean. *)
Definition feature_matrix (t : table) (features : option (list string))
  : result (list (list float64)) :=
  Detector.select (fun n => let? c := getitem n t in Detector.impute_mean c)
    (match features with
     | None => select_numeric t
     | Some fs => fs
     end).

(** An estimator that refuses a matrix without columns, as scikit-learn
    does. *)
Definition picky_fit (c : float64) (X : list (list float64)) : result unit :=
  match X with
  | [] => raise (ValueError "at least one array or dtype is required")
  | _ => ok tt
  end.

(** ** Notions for the threshold pass *)

Definition is_bool_col (c : column) : bool :=
  match c with BoolCol _ => true | _ => false end.

(** Every column whose name ends in [_violation] holds booleans: true of
    a frame without such columns, and of a frame the threshold pass
    returned. *)
Definition violation_columns_boolean (t : table) : bool :=
  forallb (fun nc => negb (endswith (fst nc) "_violation") || is_bool_col (snd nc)) t.

(** The flags of one column under its pair of bounds. *)
Definition out_of_bounds (lo hi : float64) (xs : list float64) : list bool :=
  map (fun x => fltb x lo || fgtb x hi) xs.

(** The thresholds name each column once (they are the keys of a
    dictionary), every named column that is present is numeric, and no
    flag the pass writes lands on column [col] or is the overall flag. *)
Definition thresholds_apply (keys : list string) (col : string) (t : table) : bool :=
  distinct keys &&
  forallb (fun k => numeric_or_absent k t) keys &&
  forallb (fun k => negb (String.eqb (k ++ "_violation") col)) keys &&
  negb (String.eqb col "has").

Section ThresholdSpec.
Context {Model : Type}.

(** What holds of the working copy while the threshold loop runs. *)
Definition violation_invariant (old : list table) (keys : list string)
    (col : string) (xs : list float64) (lo hi : float64)
    (done : list (string * (float64 * float64)))
    (st : Detector.state Model) : Prop :=
  exists t,
    Detector.frames st = (old ++ [t])%list /\
    lookup col t = Some (FloatCol xs) /\
    (forall k, In k keys -> numeric_or_absent k t = true) /\
    (forall n c, lookup n t = Some c -> endswith n "_violation" = true ->
                 exists bs, c = BoolCol bs) /\
    (In (col, (lo, hi)) done ->
     lookup (col ++ "_violation") t = Some (BoolCol (out_of_bounds lo hi xs))).
End ThresholdSpec.

(** ** Notions for the statistical pass *)

Section StatisticalSpec.
Context {Model : Type}.

(** What holds of the working copy while the z-score loop runs: column
    [c] still holds [xs], every checked column is numeric, every visited
    column has its boolean flag, and once [c] has been visited its
    z-scores [zs] and flags [fs] are in place. *)
Definition flags_invariant (old : list table) (cols : list string)
    (c : string) (xs zs : list float64) (fs : list bool) (done : list string)
    (st : Detector.state Model) : Prop :=
  exists t,
    Detector.frames st = (old ++ [t])%list /\
    lookup c t = Some (FloatCol xs) /\
    all_numeric cols t = true /\
    (forall col, In col done ->
                 exists bs, lookup (col ++ "_anomaly") t = Some (BoolCol bs)) /\
    (In c done ->
     lookup (c ++ "_zscore") t = Some (FloatCol zs) /\
     lookup (c ++ "_anomaly") t = Some (BoolCol fs)).
End StatisticalSpec.

(** ** Specifications over the store *)

Section StoreSpec.
Context {Model : Type}.

(** The outcome of running [m] from [st] satisfies [Q]. *)
Definition wp {A} (m : Detector.M Model A) (st : Detector.state Model)
    (Q : result A -> Detector.state Model -> Prop) : Prop :=
  Q (fst (m st)) (snd (m st)).

(** The store only grew: the frames of [old] are where and what they
    were. *)
Definition grown (old : list table) (st : Detector.state Model) : Prop :=
  exists new, Detector.frames st = (old ++ new)%list.

(** [df] is the newest frame of a store grown from [base], and that
    frame satisfies [P]. *)
Definition at_last (base : list table) (P : table -> Prop)
    (df : Detector.ref) (st : Detector.state Model) : Prop :=
  exists old t,
    Detector.frames st = (old ++ [t])%list /\
    df = length old /\
    (exists mid, old = (base ++ mid)%list) /\
    P t.

Definition outcome (base : list table) (P : table -> Prop)
  : result Detector.ref -> Detector.state Model -> Prop :=
  fun r st =>
    match r with
    | inl _ => grown base st
    | inr df => at_last base P df st
    end.

(** Running the pass [m] on the frame [data] leaves every frame of the
    store as it was and, when it returns, returns a frame that extends
    the input. *)
Definition additive_run (m : Detector.M Model Detector.ref)
    (st : Detector.state Model) (data : Detector.ref) : Prop :=
  wp m st (fun r st' =>
    (forall k, (k < length (Detector.frames st))%nat ->
               Detector.frame_at st' k = Detector.frame_at st k) /\
    match r with
    | inl _ => True
    | inr out =>
        additive (Detector.frame_at st data) (Detector.frame_at st' out)
    end).
(** The invariant of the loops that assign to the working copy. *)
Definition working (old : list table) (t0 : table)
    (st : Detector.state Model) : Prop :=
  exists t, Detector.frames st = (old ++ [t])%list /\ additive t0 t.

(** The invariant of the z-score loop, seen from a constant column [c]
    with cells [xs], once the columns [done] have been visited: [c] is
    untouched, every checked column is numeric, every visited column has
    its boolean flag column, and if [c] was visited its z-scores are all
    [NaN] and its flags all false. *)
Definition zscore_invariant (old : list table) (cols : list string)
    (c : string) (xs : list float64) (done : list string)
    (st : Detector.state Model) : Prop :=
  exists t,
    Detector.frames st = (old ++ [t])%list /\
    lookup c t = Some (FloatCol xs) /\
    all_numeric cols t = true /\
    (forall col, In col done ->
                 exists bs, lookup (col ++ "_anomaly") t = Some (BoolCol bs)) /\
    (In c done ->
     lookup (c ++ "_zscore") t = Some (FloatCol (map (fun _ => NaN) xs)) /\
     lookup (c ++ "_anomaly") t = Some (BoolCol (map (fun _ => false) xs))).
End StoreSpec.

(** ** Sample frames *)

Definition iso_stamps : table :=
  [("timestamp", ObjCol [Some "2025-01-01 00:00:00"; Some "2025-01-01 00:01:00"]);
   ("voltage", FloatCol [Fin 48; Fin 49])].

Definition minute_stamps : table :=
  [("timestamp", TimeCol [Some 0%Z; Some 60000000000%Z]);
   ("voltage", FloatCol [Fin 48; Fin 49]);
   ("temperature", FloatCol [Fin 25; Fin 26])].

Definition same_instant : table :=
  [("timestamp", TimeCol [Some 0%Z; Some 0%Z]);
   ("temperature", FloatCol [Fin 20; Fin 25])].

Definition temperature_only : table :=
  [("temperature", FloatCol [Fin 20; Fin 25])].

Definition spike : table :=
  [("temperature", FloatCol [Fin 20; Fin 35; Fin 30])].

Definition spike_store : Detector.state unit :=
  {| Detector.frames := [spike];
     Detector.contamination := Fin (1 # 20);
     Detector.isolation_forest := None |}.

(** A frame as the feature deriver leaves it, with its rolling
    volatility column. *)
Definition derived_frame : table :=
  [("voltage", FloatCol [Fin 48; Fin 50; Fin 49]);
   ("voltage_rolling_std", FloatCol [NaN; Fin (1414213 # 1000000); Fin 1])].

Definition derived_store : Detector.state unit :=
  {| Detector.frames := [derived_frame];
     Detector.contamination := Fin (1 # 20);
     Detector.isolation_forest := None |}.

(** A stand-in for the isolation forest: it fits anything and finds every
    row normal. *)
Definition sample_fit (c : float64) (X : list (list float64)) : result unit :=
  ok tt.

Definition sample_predict (m : unit) (X : list (list float64)) : result (list Z) :=
  ok (map (fun _ => 1%Z) (hd [] X)).

(** Sixteen readings with one outlier, next to a constant float column
    that happens to be called [x_anomaly]. *)
Definition shadowed : table :=
  [("x", FloatCol (repeat (Fin 0) 15 ++ [Fin 1]));
   ("x_anomaly", FloatCol (repeat (Fin 0) 16))].

Definition shadowed_store : Detector.state unit :=
  {| Detector.frames := [shadowed];
     Detector.contamination := Fin (1 # 20);
     Detector.isolation_forest := None |}.

Definition steady : table :=
  [("voltage", FloatCol [Fin 48; Fin 48; NaN; Fin 48]);
   ("current", FloatCol [Fin 1; Fin 2; Fin 3; Fin 40])].

Definition steady_store : Detector.state unit :=
  {| Detector.frames := [steady];
     Detector.contamination := Fin (1 # 20);
     Detector.isolation_forest := None |}.

Definition two_levels : table :=
  [("timestamp", TimeCol (map (fun z => Some z) [1; 2; 3; 4; 5; 6; 7; 8; 9]%Z));
   ("voltage", FloatCol (repeat (Fin 0) 8 ++ [Fin 100]))].

Definition repeated_stamp : table :=
  [("timestamp", TimeCol (Some 1%Z :: repeat (Some 2%Z) 8));
   ("voltage", FloatCol (Fin 0 :: Fin 100 :: repeat (Fin 0) 7))].

Definition hidden_reading : table :=
  [("timestamp", TimeCol [Some 1%Z; Some 1%Z]);
   ("voltage", FloatCol [NaN; Fin 5])].

Definition shuffled : table :=
  [("timestamp", TimeCol [Some 3%Z; Some 1%Z; Some 1%Z; Some 2%Z]);
   ("voltage", FloatCol [Fin 50; NaN; Fin 47; Fin 48]);
   ("label", ObjCol [Some "c"; Some "a"; None; Some "b"])].

(** [shuffled] once cleaned: all three readings lie inside the fence, so
    the clipping step changes nothing. *)
Definition shuffled_clean : table :=
  [("timestamp", TimeCol [Some 1%Z; Some 2%Z; Some 3%Z]);
   ("voltage", FloatCol [Fin 48; Fin 48; Fin 50]);
   ("label", ObjCol [Some "a"; Some "b"; Some "c"])].

(** Three hourly readings, listed out of order. *)
Definition out_of_order : table :=
  [("timestamp", TimeCol [Some 7200000000000%Z; Some 0%Z; Some 3600000000000%Z]);
   ("voltage", FloatCol [Fin 50; Fin 48; Fin 49]);
   ("current", FloatCol [Fin 10; Fin 20; Fin (-5)]);
   ("temperature", FloatCol [Fin 25; Fin 24; Fin 26])].

(** All four required columns, with a voltage below zero, a repeated
    row and a missing temperature. *)
Definition below_zero : table :=
  [("timestamp", TimeCol [Some 0%Z; Some 0%Z]);
   ("voltage", FloatCol [Fin (-5); Fin (-5)]);
   ("current", FloatCol [Fin 1; Fin 1]);
   ("temperature", FloatCol [NaN; NaN])].

(** * Properties *)

(** ** Floats *)

Lemma fleb_Fin (a b : Q) : fleb (Fin a) (Fin b) = true <-> a <= b.
Proof.
  unfold fleb; simpl. rewrite Qle_alt.
  destruct (a ?= b); split; intros H; try reflexivity; try discriminate;
    try (intro; discriminate); exfalso; apply H; reflexivity.
Qed.

Lemma fltb_Fin (a b : Q) : fltb (Fin a) (Fin b) = true <-> a < b.
Proof.
  unfold fltb; simpl. rewrite Qlt_alt.
  destruct (a ?= b); split; intros H; try reflexivity; discriminate.
Qed.

Lemma fgeb_Fin (a b : Q) : fgeb (Fin a) (Fin b) = true <-> b <= a.
Proof. apply fleb_Fin. Qed.

Lemma fgtb_Fin (a b : Q) : fgtb (Fin a) (Fin b) = true <-> b < a.
Proof. apply fltb_Fin. Qed.

Lemma fleb_Fin_false (a b : Q) : fleb (Fin a) (Fin b) = false <-> b < a.
Proof.
  rewrite <- not_true_iff_false, fleb_Fin. split; intros H.
  - apply Qnot_le_lt, H.
  - apply Qlt_not_le, H.
Qed.

Lemma fltb_nan_l (x : float64) : fltb NaN x = false.
Proof. reflexivity. Qed.

Lemma fltb_nan_r (x : float64) : fltb x NaN = false.
Proof. destruct x; reflexivity. Qed.

Lemma fleb_nan_r (x : float64) : fleb x NaN = false.
Proof. destruct x; reflexivity. Qed.

Lemma Qzero_iff (q : Q) : Qzero q = true <-> q == 0.
Proof.
  unfold Qzero. rewrite Qeq_alt.
  destruct (q ?= 0); split; intros H; try reflexivity; discriminate.
Qed.

Lemma fdiv_nan_l (y : float64) : fdiv NaN y = NaN.
Proof. reflexivity. Qed.

Lemma fdiv_nan_r (x : float64) : fdiv x NaN = NaN.
Proof. now destruct x. Qed.

Lemma fdiv_zero (x : float64) : fdiv x (Fin 0) = over_zero x.
Proof. destruct x as [| s | d]; simpl; auto. now destruct s. Qed.

(** ** battery_metrics.py *)

Module MetricsFacts.
Import Metrics.

Ltac decide_cmp :=
  repeat match goal with
  | |- context [fgeb (Fin ?a) (Fin ?b)] =>
      let E := fresh "E" in
      destruct (fgeb (Fin a) (Fin b)) eqn:E;
      [apply fgeb_Fin in E | apply fleb_Fin_false in E]
  | |- context [fleb (Fin ?a) (Fin ?b)] =>
      let E := fresh "E" in
      destruct (fleb (Fin a) (Fin b)) eqn:E;
      [apply fleb_Fin in E | apply fleb_Fin_false in E]
  end.

(** C4. For every real [soh] and [temperature], [assess_health_status]
    follows the decision table in its priority order: "excellent" when
    [soh >= 95] and [15 <= temperature <= 35]; otherwise "good" when
    [soh >= 85] and the temperature is in that range; otherwise "fair" when
    [soh >= 70]; otherwise "poor" when [soh >= 50]; otherwise "critical".
    The four sample points of the specification evaluate to "excellent",
    "good", "fair" and "critical". *)
Theorem assess_health_status_decision_table :
  (forall soh temperature : Q,
      let normal := 15 <= temperature /\ temperature <= 35 in
      let status := assess_health_status (Fin soh) (Fin temperature) in
      (95 <= soh /\ normal -> status = "excellent") /\
      (~ (95 <= soh /\ normal) -> 85 <= soh /\ normal -> status = "good") /\
      (~ (95 <= soh /\ normal) -> ~ (85 <= soh /\ normal) ->
       70 <= soh -> status = "fair") /\
      (~ (95 <= soh /\ normal) -> ~ (85 <= soh /\ normal) ->
       ~ 70 <= soh -> 50 <= soh -> status = "poor") /\
      (~ (95 <= soh /\ normal) -> ~ (85 <= soh /\ normal) ->
       ~ 70 <= soh -> ~ 50 <= soh -> status = "critical")) /\
  assess_health_status (Fin 96) (Fin 25) = "excellent" /\
  assess_health_status (Fin 90) (Fin 25) = "good" /\
  assess_health_status (Fin 75) (Fin 25) = "fair" /\
  assess_health_status (Fin 45) (Fin 25) = "critical".
Proof.
  split; [| repeat split; reflexivity].
  intros soh temperature normal status. subst normal status.
  unfold assess_health_status, of_Z.
  change (inject_Z 15) with 15; change (inject_Z 35) with 35;
    change (inject_Z 95) with 95; change (inject_Z 85) with 85;
    change (inject_Z 70) with 70; change (inject_Z 50) with 50.
  decide_cmp; simpl; repeat split; intros;
    try reflexivity;
    try (exfalso; intuition lra).
Qed.

End MetricsFacts.

(** ** battery_metrics.py, the other methods *)

Module CalculatorFacts.
Import Calculator.

Lemma clamp_mid (x : Q) :
  exists r, py_max (of_Z 0) (py_min (of_Z 100) (Fin x)) = Fin r /\ clamped x r.
Proof.
  unfold py_max, py_min, of_Z.
  change (inject_Z 100) with 100. change (inject_Z 0) with 0.
  destruct (fltb (Fin x) (Fin 100)) eqn:E1.
  - apply fltb_Fin in E1.
    destruct (fgtb (Fin x) (Fin 0)) eqn:E2.
    + apply fgtb_Fin in E2. exists x. split; [reflexivity |].
      right; left. repeat split; try lra; reflexivity.
    + exists 0. split; [reflexivity |]. left.
      assert (~ 0 < x) by (rewrite <- fgtb_Fin; congruence).
      split; [lra | reflexivity].
  - exists 100. split; [reflexivity |]. right; right.
    assert (~ x < 100) by (rewrite <- fltb_Fin; congruence).
    split; [lra | reflexivity].
Qed.

Lemma clamp_any (x : float64) :
  exists r, py_max (of_Z 0) (py_min (of_Z 100) x) = Fin r /\ 0 <= r /\ r <= 100.
Proof.
  destruct x as [| s | q].
  - exists 100. split; [reflexivity | lra].
  - destruct s; [exists 0 | exists 100]; (split; [reflexivity | lra]).
  - destruct (clamp_mid q) as [r [-> H]]. exists r. split; [reflexivity |].
    destruct H as [[_ H] | [[H0 [H1 H]] | [_ H]]]; rewrite H; lra.
Qed.

Lemma clamped_mono (x y r s : Q) :
  x <= y -> clamped x r -> clamped y s -> r <= s.
Proof.
  intros Hxy [[Hx Hr] | [[Hx0 [Hx1 Hr]] | [Hx Hr]]]
             [[Hy Hs] | [[Hy0 [Hy1 Hs]] | [Hy Hs]]];
    rewrite Hr, Hs; lra.
Qed.

Lemma percent_of (c n : Q) :
  0 < n ->
  exists x, fmul (fdiv (Fin c) (Fin n)) (of_Z 100) = Fin x /\ x == c / n * 100.
Proof.
  intros Hn. unfold fdiv.
  replace (Qzero n) with false
    by (symmetry; apply not_true_iff_false; rewrite Qzero_iff; lra).
  unfold fmul, of_Z. eexists. split; [reflexivity |].
  rewrite !Qred_correct. reflexivity.
Qed.

Lemma py_div_pos (a : float64) (n : Q) :
  0 < n -> py_div a (Fin n) = inr (fdiv a (Fin n)).
Proof.
  intros Hn. unfold py_div.
  replace (Qzero n) with false
    by (symmetry; apply not_true_iff_false; rewrite Qzero_iff; lra).
  reflexivity.
Qed.




(** The round-trip efficiency never raises and is always a number between
    0 and 100: it is 0 when nothing was charged ([energy_in <= 0]) and when
    either energy is missing, and otherwise the ratio in percent cut to
    that range. *)
Theorem calculate_energy_efficiency_is_total_and_bounded :
  (forall energy_in energy_out : float64,
      exists r, calculate_energy_efficiency energy_in energy_out = Fin r /\
                0 <= r /\ r <= 100) /\
  (forall (i : Q) (energy_out : float64),
      i <= 0 -> calculate_energy_efficiency (Fin i) energy_out = Fin 0) /\
  (forall x : float64,
      calculate_energy_efficiency NaN x = Fin 0 /\
      calculate_energy_efficiency x NaN = Fin 0) /\
  (forall i o : Q,
      0 < i ->
      exists r, calculate_energy_efficiency (Fin i) (Fin o) = Fin r /\
                clamped (o / i * 100) r).
Proof.
  assert (Hclamp : forall x : Q,
             exists r, py_min (of_Z 100) (py_max (of_Z 0) (Fin x)) = Fin r /\
                       clamped x r).
  { intros x. unfold py_max, py_min, of_Z.
    change (inject_Z 100) with 100. change (inject_Z 0) with 0.
    destruct (fgtb (Fin x) (Fin 0)) eqn:E1.
    - apply fgtb_Fin in E1.
      destruct (fltb (Fin x) (Fin 100)) eqn:E2.
      + apply fltb_Fin in E2. exists x. split; [reflexivity |].
        right; left. repeat split; try lra; reflexivity.
      + exists 100. split; [reflexivity |]. right; right.
        assert (~ x < 100) by (rewrite <- fltb_Fin; congruence).
        split; [lra | reflexivity].
    - exists 0. split; [reflexivity |]. left.
      assert (~ 0 < x) by (rewrite <- fgtb_Fin; congruence).
      split; [lra | reflexivity]. }
  assert (Hany : forall x : float64,
             exists r, py_min (of_Z 100) (py_max (of_Z 0) x) = Fin r /\
                       0 <= r /\ r <= 100).
  { intros [| s | q].
    - exists 0. split; [reflexivity | lra].
    - destruct s; [exists 0 | exists 100]; (split; [reflexivity | lra]).
    - destruct (Hclamp q) as [r [-> H]]. exists r. split; [reflexivity |].
      destruct H as [[_ H] | [[H0 [H1 H]] | [_ H]]]; rewrite H; lra. }
  split; [| split; [| split]].
  - intros energy_in energy_out. unfold calculate_energy_efficiency.
    destruct (fleb energy_in (of_Z 0)).
    + exists 0. split; [reflexivity | lra].
    + apply Hany.
  - intros i energy_out Hi. unfold calculate_energy_efficiency, of_Z.
    change (inject_Z 0) with 0.
    replace (fleb (Fin i) (Fin 0)) with true
      by (symmetry; now apply fleb_Fin).
    reflexivity.
  - intros x. split.
    + unfold calculate_energy_efficiency.
      change (fleb NaN (of_Z 0)) with false. cbv iota.
      now rewrite fdiv_nan_r.
    + unfold calculate_energy_efficiency.
      destruct (fleb x (of_Z 0)); [reflexivity |].
      now rewrite fdiv_nan_l.
  - intros i o Hi. unfold calculate_energy_efficiency, of_Z.
    change (inject_Z 0) with 0.
    replace (fleb (Fin i) (Fin 0)) with false
      by (symmetry; apply fleb_Fin_false; exact Hi).
    destruct (percent_of o i Hi) as [x [Ex Hx]].
    unfold of_Z in Ex. rewrite Ex.
    destruct (Hclamp x) as [r [Er Hr]]. unfold of_Z in Er.
    change (inject_Z 0) with 0 in Er. rewrite Er.
    exists r. split; [reflexivity |].
    unfold clamped in *. rewrite <- Hx. exact Hr.
Qed.

Lemma py_max_zero (x : float64) :
  py_max (of_Z 0) x = Inf false \/
  exists r, py_max (of_Z 0) x = Fin r /\ 0 <= r.
Proof.
  destruct x as [| s | q].
  - right. exists 0. split; [reflexivity | lra].
  - destruct s; [right; exists 0; split; [reflexivity | lra] | left; reflexivity].
  - right. unfold py_max, of_Z. change (inject_Z 0) with 0.
    destruct (fgtb (Fin q) (Fin 0)) eqn:E.
    + apply fgtb_Fin in E. exists q. split; [reflexivity | lra].
    + exists 0. split; [reflexivity | lra].
Qed.

Lemma Qzero_false (q : Q) : ~ q == 0 -> Qzero q = false.
Proof. intros H. apply not_true_iff_false. now rewrite Qzero_iff. Qed.

Lemma last_between (A : Type) (a b d : A) (mid : list A) :
  last (a :: mid ++ [b])%list d = b.
Proof. rewrite app_comm_cons. apply last_last. Qed.

(** The degradation rate is never negative and never [NaN], and it never
    raises: fewer than two samples or a period of zero days or less give
    0; otherwise only the first and the last sample count, and for a
    positive first sample and a positive period the rate is the relative
    loss in percent per 30 days, or 0 when the capacity did not drop. *)
Theorem calculate_degradation_rate_is_monthly_loss_or_zero :
  (forall (capacity_history : list float64) (days : Z),
      calculate_degradation_rate capacity_history days = Inf false \/
      exists r, calculate_degradation_rate capacity_history days = Fin r /\ 0 <= r) /\
  (forall (capacity_history : list float64) (days : Z),
      (length capacity_history < 2)%nat \/ (days <= 0)%Z ->
      calculate_degradation_rate capacity_history days = Fin 0) /\
  (forall (c0 c1 : Q) (mid : list float64) (days : Z),
      0 < c0 -> (0 < days)%Z ->
      exists r,
        calculate_degradation_rate (Fin c0 :: mid ++ [Fin c1])%list days = Fin r /\
        (c0 <= c1 -> r == 0) /\
        (c1 <= c0 -> r == (c0 - c1) / c0 * 100 / (inject_Z days / 30))).
Proof.
  split; [| split].
  - intros h days. unfold calculate_degradation_rate.
    destruct (Nat.ltb (length h) 2).
    + right. exists 0. split; [reflexivity | lra].
    + apply py_max_zero.
  - intros h days [Hlen | Hdays]; unfold calculate_degradation_rate.
    + replace (Nat.ltb (length h) 2) with true
        by (symmetry; now apply Nat.ltb_lt).
      reflexivity.
    + destruct (Nat.ltb (length h) 2); [reflexivity |].
      assert (Hm : fgtb (fdiv (of_Z days) (of_Z 30)) (of_Z 0) = false).
      { unfold of_Z, fdiv. change (Qzero (inject_Z 30)) with false.
        apply not_true_iff_false. rewrite fgtb_Fin, Qred_correct.
        assert (inject_Z days <= 0)
          by (change 0 with (inject_Z 0); now rewrite <- Zle_Qle).
        change (inject_Z 30) with 30. change (inject_Z 0) with 0.
        intros H0. apply Qlt_not_le in H0. apply H0.
        apply Qle_shift_div_r; lra. }
      rewrite Hm. reflexivity.
  - intros c0 c1 mid days Hc Hd. unfold calculate_degradation_rate.
    replace (Nat.ltb (length (Fin c0 :: mid ++ [Fin c1])%list) 2) with false
      by (symmetry; apply Nat.ltb_ge; cbn [length]; rewrite length_app;
          cbn [length]; lia).
    rewrite last_between. cbn [hd].
    assert (Hd' : 0 < inject_Z days)
      by (change 0 with (inject_Z 0); now rewrite <- Zlt_Qlt).
    assert (Hmq : 0 < inject_Z days / 30).
    { apply Qlt_shift_div_l; lra. }
    unfold of_Z. change (inject_Z 30) with 30. change (inject_Z 0) with 0.
    change (inject_Z 100) with 100.
    assert (Hmonths : fdiv (Fin (inject_Z days)) (Fin 30) =
                      Fin (Qred (inject_Z days / 30))) by reflexivity.
    assert (Hdeg : fmul (fdiv (fsub (Fin c0) (Fin c1)) (Fin c0)) (Fin 100) =
                   Fin (Qred (Qred (Qred (c0 + Qred (- c1)) / c0) * 100))).
    { unfold fsub, fopp, fadd, fdiv. rewrite (Qzero_false c0) by lra.
      reflexivity. }
    rewrite Hmonths, Hdeg.
    replace (fgtb (Fin (Qred (inject_Z days / 30))) (Fin 0)) with true
      by (symmetry; apply fgtb_Fin; now rewrite Qred_correct).
    unfold fdiv.
    rewrite (Qzero_false (Qred (inject_Z days / 30)))
      by (rewrite Qred_correct; lra).
    set (rate := Qred (Qred (Qred (Qred (c0 + Qred (- c1)) / c0) * 100) /
                       Qred (inject_Z days / 30))).
    assert (Hrate : rate == (c0 - c1) / c0 * 100 / (inject_Z days / 30)).
    { unfold rate. rewrite !Qred_correct. reflexivity. }
    assert (Hsign : c0 <= c1 -> rate <= 0).
    { intros Hle. rewrite Hrate.
      setoid_replace ((c0 - c1) / c0 * 100 / (inject_Z days / 30))
        with (- ((c1 - c0) * (100 / c0 / (inject_Z days / 30))))
        by (field; split; lra).
      assert (0 <= (c1 - c0) * (100 / c0 / (inject_Z days / 30))); [| lra].
      apply Qmult_le_0_compat; [lra |].
      apply Qlt_le_weak, Qlt_shift_div_l; [lra |].
      rewrite Qmult_0_l. apply Qlt_shift_div_l; lra. }
    assert (Hsign' : c1 <= c0 -> 0 <= rate).
    { intros Hle. rewrite Hrate.
      setoid_replace ((c0 - c1) / c0 * 100 / (inject_Z days / 30))
        with ((c0 - c1) * (100 / c0 / (inject_Z days / 30)))
        by (field; split; lra).
      apply Qmult_le_0_compat; [lra |].
      apply Qlt_le_weak, Qlt_shift_div_l; [lra |].
      rewrite Qmult_0_l. apply Qlt_shift_div_l; lra. }
    unfold py_max.
    destruct (fgtb (Fin rate) (Fin 0)) eqn:E.
    + apply fgtb_Fin in E. exists rate. split; [reflexivity |]. split.
      * intros Hle. specialize (Hsign Hle). lra.
      * intros _. exact Hrate.
    + assert (~ 0 < rate) by (rewrite <- fgtb_Fin; congruence).
      exists 0. split; [reflexivity |]. split.
      * reflexivity.
      * intros Hle. specialize (Hsign' Hle). rewrite <- Hrate. lra.
Qed.

Lemma calculate_degradation_rate_is_monthly_loss_or_zero_witness :
  exists r,
    calculate_degradation_rate [Fin 100; Fin 99; Fin 95] 30 = Fin r /\
    (100 <= 95 -> r == 0) /\
    (95 <= 100 -> r == (100 - 95) / 100 * 100 / (inject_Z 30 / 30)).
Proof.
  apply (proj2 (proj2 calculate_degradation_rate_is_monthly_loss_or_zero)
           100 95 [Fin 99] 30%Z); [reflexivity | reflexivity].
Defined.

Lemma swing_sum_finite (qs : list Q) : forall a p : Q,
  exists s, swing_sum (Fin a) (Fin p) (map Fin qs) = Fin s /\
            s == a + total_swing p qs.
Proof.
  induction qs as [| x qs IH]; intros a p.
  - exists a. split; [reflexivity | simpl; ring].
  - cbn [map swing_sum total_swing].
    assert (E : fadd (Fin a) (fdiv (fabs (fsub (Fin x) (Fin p))) (of_Z 100)) =
                Fin (Qred (a + Qred (Qred (Qabs (Qred (x + Qred (- p)))) / 100))))
      by reflexivity.
    rewrite E.
    destruct (IH (Qred (a + Qred (Qred (Qabs (Qred (x + Qred (- p)))) / 100))) x)
      as [s [-> Hs]].
    exists s. split; [reflexivity |].
    rewrite Hs, !Qred_correct. unfold Qminus. ring.
Qed.

Lemma fadd_not_finite_l (x y : float64) :
  is_finite x = false -> is_finite (fadd x y) = false.
Proof.
  destruct x as [| a | p]; [reflexivity | | discriminate].
  intros _. destruct y as [| b | q]; try reflexivity.
  simpl. now destruct (Bool.eqb a b).
Qed.

Lemma fadd_not_finite_r (x y : float64) :
  is_finite y = false -> is_finite (fadd x y) = false.
Proof.
  destruct y as [| b | q]; [now destruct x | | discriminate].
  intros _. destruct x as [| a | p]; try reflexivity.
  simpl. now destruct (Bool.eqb a b).
Qed.

Lemma swing_not_finite (x prev : float64) :
  is_finite x = false \/ is_finite prev = false ->
  is_finite (fdiv (fabs (fsub x prev)) (of_Z 100)) = false.
Proof.
  intros H.
  assert (Hs : is_finite (fsub x prev) = false).
  { unfold fsub. destruct H as [H | H].
    - now apply fadd_not_finite_l.
    - apply fadd_not_finite_r. destruct prev; try reflexivity; discriminate. }
  destruct (fsub x prev); [reflexivity | reflexivity | discriminate].
Qed.

Lemma swing_sum_acc_not_finite (rest : list float64) : forall acc prev,
  is_finite acc = false -> is_finite (swing_sum acc prev rest) = false.
Proof.
  induction rest as [| x rest IH]; intros acc prev H; [exact H |].
  cbn [swing_sum]. apply IH. now apply fadd_not_finite_l.
Qed.

Lemma swing_sum_not_finite (rest : list float64) : forall acc prev,
  rest <> [] ->
  forallb is_finite (prev :: rest) = false ->
  is_finite (swing_sum acc prev rest) = false.
Proof.
  induction rest as [| x rest IH]; intros acc prev Hne H; [congruence |].
  cbn [swing_sum]. cbn [forallb] in H.
  destruct (is_finite prev) eqn:Ep.
  - destruct (is_finite x) eqn:Ex.
    + destruct rest as [| y rest'].
      * simpl in H. discriminate.
      * apply IH; [discriminate |]. cbn [forallb]. rewrite Ex. exact H.
    + apply swing_sum_acc_not_finite, fadd_not_finite_r, swing_not_finite.
      now left.
  - apply swing_sum_acc_not_finite, fadd_not_finite_r, swing_not_finite.
    now right.
Qed.

Lemma all_finite_map (vs : list float64) :
  forallb is_finite vs = true -> exists qs, vs = map Fin qs.
Proof.
  induction vs as [| v vs IH]; intros H.
  - now exists [].
  - cbn [forallb] in H. apply andb_prop in H as [Hv Hvs].
    destruct (IH Hvs) as [qs ->].
    destruct v as [| |q]; try discriminate. now exists (q :: qs).
Qed.

Lemma partial_cycle_sum_finite (qs : list Q) :
  exists s, partial_cycle_sum (map Fin qs) = Fin s /\ s == swings qs /\ 0 <= s.
Proof.
  assert (Hpos : forall l p, 0 <= total_swing p l).
  { induction l as [| x l IH]; intros p; cbn [total_swing]; [lra |].
    specialize (IH x). pose proof (Qabs_nonneg (x - p)).
    assert (0 <= Qabs (x - p) / 100) by (apply Qle_shift_div_l; lra). lra. }
  destruct qs as [| q qs].
  - exists 0. repeat split; try reflexivity; simpl; lra.
  - cbn [map partial_cycle_sum swings].
    destruct (swing_sum_finite qs 0 q) as [s [E Hs]].
    unfold of_Z. change (inject_Z 0) with 0. rewrite E.
    exists s. split; [reflexivity |].
    assert (s == total_swing q qs) by (rewrite Hs; ring).
    split; [assumption |]. specialize (Hpos qs q). lra.
Qed.

Lemma count_cycles_finite_result (charge_data : table) (qs : list Q) :
  lookup "soc" charge_data = Some (FloatCol (map Fin qs)) ->
  exists (full : Z) (partial : Q), count_cycles charge_data = ok (full, Fin partial).
Proof.
  intros H. unfold count_cycles, has_col, getitem. rewrite H.
  cbn [negb rbind ok soc_values].
  destruct (partial_cycle_sum_finite qs) as [s [-> _]].
  eexists _, _. reflexivity.
Qed.





(** Without readings to compare there are no cycles: a frame with no
    [soc] column, or with fewer than two rows whatever the column holds,
    gives [(0, 0.0)]; a [soc] column of two or more rows that is not
    numeric raises [TypeError]. *)
Theorem count_cycles_without_readings (charge_data : table) :
  (has_col "soc" charge_data = false ->
   count_cycles charge_data = ok (0%Z, Fin 0)) /\
  (forall c, lookup "soc" charge_data = Some c -> (col_len c < 2)%nat ->
   count_cycles charge_data = ok (0%Z, Fin 0)) /\
  (forall c, lookup "soc" charge_data = Some c -> (2 <= col_len c)%nat ->
   is_numeric c = false ->
   count_cycles charge_data = raise TypeError).
Proof.
  split; [| split].
  - intros H. unfold count_cycles. now rewrite H.
  - intros c H Hlen. unfold count_cycles, has_col, getitem. rewrite H.
    cbn [negb rbind ok].
    assert (E : exists vs, soc_values c = ok vs /\ (length vs < 2)%nat).
    { destruct c as [xs | ts | bs | ss]; cbn [soc_values col_len] in *;
        try (replace (Nat.ltb _ 2) with true
               by (symmetry; now apply Nat.ltb_lt);
             exists []; split; [reflexivity | simpl; lia]).
      exists xs. now split. }
    destruct E as [vs [-> Hvs]]. cbn [rbind ok].
    destruct vs as [| v [| w rest]]; cbn [length] in Hvs; try lia; reflexivity.
  - intros c H Hlen Hnum. unfold count_cycles, has_col, getitem. rewrite H.
    cbn [negb rbind ok].
    destruct c as [xs | ts | bs | ss]; try discriminate;
      cbn [soc_values col_len] in *;
      (replace (Nat.ltb _ 2) with false
         by (symmetry; now apply Nat.ltb_ge));
      reflexivity.
Qed.

(** The health status with missing inputs, and its order.  A missing
    state of health is "critical" whatever the temperature; a missing
    temperature never gives better than "fair"; for a fixed temperature
    the status never gets worse when the state of health grows.  And a
    missing capacity reading, which [calculate_soh] turns into 100, is
    rated "excellent" at a normal temperature. *)
Theorem health_status_order_and_missing_inputs :
  (forall temperature, Metrics.assess_health_status NaN temperature = "critical") /\
  (forall soh,
      In (Metrics.assess_health_status soh NaN) ["fair"; "poor"; "critical"]) /\
  (forall (s1 s2 : Q) temperature,
      s1 <= s2 ->
      (status_rank (Metrics.assess_health_status (Fin s1) temperature)
       <= status_rank (Metrics.assess_health_status (Fin s2) temperature))%nat) /\
  (forall nominal t : Q,
      0 < nominal -> 15 <= t -> t <= 35 ->
      exists soh,
        calculate_soh (Fin nominal) NaN = inr soh /\
        Metrics.assess_health_status soh (Fin t) = "excellent").
Proof.
  split; [| split; [| split]].
  - intros temperature. reflexivity.
  - intros soh. unfold Metrics.assess_health_status.
    rewrite fleb_nan_r. cbn [andb]. rewrite !andb_false_r.
    destruct (fgeb soh (of_Z 70)); [simpl; auto |].
    destruct (fgeb soh (of_Z 50)); simpl; auto.
  - intros s1 s2 temperature Hle. unfold Metrics.assess_health_status.
    destruct (fleb (of_Z 15) temperature && fleb temperature (of_Z 35));
      rewrite ?andb_true_r, ?andb_false_r; unfold of_Z;
      change (inject_Z 95) with 95; change (inject_Z 85) with 85;
      change (inject_Z 70) with 70; change (inject_Z 50) with 50;
      repeat match goal with
        | |- context [fgeb (Fin ?a) (Fin ?b)] =>
            let E := fresh "E" in
            destruct (fgeb (Fin a) (Fin b)) eqn:E;
            [apply fgeb_Fin in E | apply fleb_Fin_false in E]
        end;
      cbn; try lia; exfalso; lra.
  - intros nominal t Hn H15 H35. exists (Fin 100). split.
    + unfold calculate_soh. rewrite py_div_pos by exact Hn. reflexivity.
    + unfold Metrics.assess_health_status, of_Z.
      change (inject_Z 15) with 15. change (inject_Z 35) with 35.
      replace (fleb (Fin 15) (Fin t)) with true
        by (symmetry; now apply fleb_Fin).
      replace (fleb (Fin t) (Fin 35)) with true
        by (symmetry; now apply fleb_Fin).
      reflexivity.
Qed.

End CalculatorFacts.

(** ** Frames *)

Lemma lookup_setitem_eq (n : string) (c : column) (df : table) :
  lookup n (setitem n c df) = Some c.
Proof.
  induction df as [| [m c0] df IH]; simpl.
  - now rewrite String.eqb_refl.
  - destruct (String.eqb n m) eqn:E; simpl; rewrite E; auto.
Qed.

Lemma lookup_setitem_ne (n m : string) (c : column) (df : table) :
  n <> m -> lookup n (setitem m c df) = lookup n df.
Proof.
  intros Hne. induction df as [| [k c0] df IH]; simpl.
  - apply String.eqb_neq in Hne. now rewrite Hne.
  - destruct (String.eqb m k) eqn:E; simpl.
    + apply String.eqb_eq in E; subst k.
      apply String.eqb_neq in Hne. now rewrite Hne.
    + now rewrite IH.
Qed.

Lemma has_col_setitem_ne (n m : string) (c : column) (df : table) :
  n <> m -> has_col n (setitem m c df) = has_col n df.
Proof. intros H. unfold has_col. now rewrite lookup_setitem_ne. Qed.

Lemma has_col_setitem_eq (n : string) (c : column) (df : table) :
  has_col n (setitem n c df) = true.
Proof. unfold has_col. now rewrite lookup_setitem_eq. Qed.

Lemma getitem_setitem_eq (n : string) (c : column) (df : table) :
  getitem n (setitem n c df) = inr c.
Proof. unfold getitem. now rewrite lookup_setitem_eq. Qed.

Lemma getitem_setitem_ne (n m : string) (c : column) (df : table) :
  n <> m -> getitem n (setitem m c df) = getitem n df.
Proof. intros H. unfold getitem. now rewrite lookup_setitem_ne. Qed.

Lemma getitem_lookup (n : string) (df : table) (c : column) :
  lookup n df = Some c -> getitem n df = inr c.
Proof. unfold getitem. now intros ->. Qed.

Lemma getitem_has_col (n : string) (df : table) :
  has_col n df = true -> exists c, lookup n df = Some c /\ getitem n df = inr c.
Proof.
  unfold has_col, getitem. destruct (lookup n df); [eauto | discriminate].
Qed.

Lemma getitem_absent (n : string) (df : table) :
  has_col n df = false -> getitem n df = inl (KeyError n).
Proof.
  unfold has_col, getitem. destruct (lookup n df); [discriminate | reflexivity].
Qed.

Lemma columns_setitem_length (n : string) (c : column) (df : table) :
  (length df <= length (setitem n c df))%nat.
Proof.
  induction df as [| [m c0] df IH]; simpl; [lia |].
  destruct (String.eqb n m); simpl; lia.
Qed.

(** ** Lists *)

Lemma zip_with_length {A B C} (f : A -> B -> C) (xs : list A) (ys : list B) :
  length (zip_with f xs ys) = Nat.min (length xs) (length ys).
Proof.
  revert ys; induction xs as [| x xs IH]; intros [| y ys]; simpl; auto.
Qed.

Lemma nth_zip_with {A B C} (f : A -> B -> C) (xs : list A) (ys : list B)
    (i : nat) (dc : C) (da : A) (db : B) :
  (i < length xs)%nat -> (i < length ys)%nat ->
  nth i (zip_with f xs ys) dc = f (nth i xs da) (nth i ys db).
Proof.
  revert ys i; induction xs as [| x xs IH]; intros [| y ys] [| i] Hx Hy;
    simpl in *; try lia; auto.
  apply IH; lia.
Qed.

Lemma nth_map_lt {A B} (f : A -> B) (l : list A) (i : nat) (db : B) (da : A) :
  (i < length l)%nat -> nth i (map f l) db = f (nth i l da).
Proof.
  revert i; induction l as [| x l IH]; intros [| i] H; simpl in *;
    try lia; auto.
  apply IH; lia.
Qed.

Lemma diff_length (xs : list float64) : length (diff xs) = length xs.
Proof.
  destruct xs as [| x xs]; simpl; auto.
  rewrite zip_with_length. simpl. f_equal. lia.
Qed.

Lemma diff_time_length (ts : list (option Z)) :
  length (diff_time ts) = length ts.
Proof.
  destruct ts as [| x xs]; simpl; auto.
  rewrite zip_with_length. simpl. f_equal. lia.
Qed.

Lemma nth_diff (xs : list float64) (i : nat) :
  (1 <= i < length xs)%nat ->
  nth i (diff xs) NaN = fsub (nth i xs NaN) (nth (i - 1) xs NaN).
Proof.
  destruct xs as [| x xs]; simpl; [lia |]. intros H.
  destruct i as [| i]; [lia |]. simpl.
  rewrite (nth_zip_with _ _ _ _ _ NaN NaN); simpl; try lia.
  now rewrite Nat.sub_0_r.
Qed.

Lemma nth_diff_time (ts : list (option Z)) (i : nat) :
  (1 <= i < length ts)%nat ->
  nth i (diff_time ts) None = time_sub (nth i ts None) (nth (i - 1) ts None).
Proof.
  destruct ts as [| x xs]; simpl; [lia |]. intros H.
  destruct i as [| i]; [lia |]. simpl.
  rewrite (nth_zip_with _ _ _ _ _ None None); simpl; try lia.
  now rewrite Nat.sub_0_r.
Qed.

Lemma nth_elapsed (ts : list (option Z)) (i : nat) :
  (1 <= i < length ts)%nat ->
  nth i (map total_seconds (diff_time ts)) NaN
  = total_seconds (time_sub (nth i ts None) (nth (i - 1) ts None)).
Proof.
  intros H. change NaN with (total_seconds None).
  rewrite map_nth. f_equal. now apply nth_diff_time.
Qed.

Lemma lookup_select_rows (f : forall A, list A -> list A) (n : string) (df : table) :
  lookup n (select_rows f df) = option_map (map_rows f) (lookup n df).
Proof.
  induction df as [| [m c] df IH]; simpl; auto.
  destruct (String.eqb n m); auto.
Qed.

Lemma has_col_select_rows (f : forall A, list A -> list A) (n : string) (df : table) :
  has_col n (select_rows f df) = has_col n df.
Proof.
  unfold has_col. rewrite lookup_select_rows. now destruct (lookup n df).
Qed.

Lemma numeric_view_ok_map_rows (f : forall A, list A -> list A) (c : column) :
  numeric_view_ok (map_rows f c) = numeric_view_ok c.
Proof. now destruct c. Qed.

Lemma as_float_ok (c : column) :
  numeric_view_ok c = true -> exists xs, as_float c = inr xs.
Proof. destruct c; simpl; try discriminate; eauto. Qed.

(** ** Strings *)

Lemma length_append (a b : string) :
  String.length (a ++ b) = (String.length a + String.length b)%nat.
Proof. induction a as [| ch a IH]; simpl; auto. Qed.

Lemma substring_all (s : string) : substring 0 (String.length s) s = s.
Proof. induction s as [| ch s IH]; simpl; [reflexivity | now rewrite IH]. Qed.

Lemma substring_append (a b : string) :
  substring (String.length a) (String.length b) (a ++ b) = b.
Proof.
  induction a as [| ch a IH]; simpl; [apply substring_all | exact IH].
Qed.

Lemma endswith_append (a suffix : string) : endswith (a ++ suffix) suffix = true.
Proof.
  unfold endswith. rewrite length_append.
  replace (String.length a + String.length suffix - String.length suffix)%nat
    with (String.length a) by lia.
  rewrite substring_append, String.eqb_refl.
  rewrite andb_true_r. apply Nat.leb_le. lia.
Qed.

Lemma append_inj_l (a b suffix : string) :
  a ++ suffix = b ++ suffix -> a = b.
Proof.
  revert b; induction a as [| ch a IH]; intros [| ch' b] H; simpl in H.
  - reflexivity.
  - apply (f_equal String.length) in H. simpl in H.
    rewrite length_append in H. lia.
  - apply (f_equal String.length) in H. simpl in H.
    rewrite length_append in H. lia.
  - injection H as -> H. f_equal. now apply IH.
Qed.

Lemma append_last_char (a b : string) (x y : ascii) :
  a ++ String x "" = b ++ String y "" -> x = y.
Proof.
  revert b; induction a as [| ch a IH]; intros [| ch' b] H; simpl in H.
  - now injection H.
  - injection H as _ H. destruct b; discriminate.
  - injection H as _ H. destruct a; discriminate.
  - injection H as _ H. now apply IH in H.
Qed.

Lemma append_assoc (a b c : string) : (a ++ b) ++ c = a ++ (b ++ c).
Proof. induction a as [| ch a IH]; simpl; [reflexivity | now rewrite IH]. Qed.

Lemma anomaly_is_not_zscore (a b : string) : a ++ "_anomaly" <> b ++ "_zscore".
Proof.
  change "_anomaly" with ("_anomal" ++ "y").
  change "_zscore" with ("_zscor" ++ "e").
  rewrite <- !append_assoc. intros H.
  apply append_last_char in H. discriminate.
Qed.

Lemma zscore_is_not_is_anomaly (a : string) : a ++ "_zscore" <> "is_anomaly".
Proof.
  intros H. symmetry in H. revert H.
  change "is_anomaly" with ("is" ++ "_anomaly"). apply anomaly_is_not_zscore.
Qed.

Lemma generated_name_suffix (col suffix : string) :
  In suffix generated_suffixes -> generated_name (col ++ suffix) = true.
Proof.
  intros Hin. unfold generated_name. apply orb_true_iff. left.
  apply existsb_exists. exists suffix. split; [exact Hin |].
  apply endswith_append.
Qed.

(** ** Additive updates of a frame *)

Lemma columns_setitem (n : string) (c : column) (t : table) :
  exists extra, columns (setitem n c t) = (columns t ++ extra)%list.
Proof.
  unfold columns. induction t as [| [m c0] t [extra IH]]; simpl.
  - now exists [n].
  - destruct (String.eqb n m); simpl.
    + exists []. now rewrite app_nil_r.
    + exists extra. now rewrite IH.
Qed.

Lemma additive_refl (t : table) : additive t t.
Proof. split; [exists []; now rewrite app_nil_r | auto]. Qed.

Lemma additive_trans (t1 t2 t3 : table) :
  additive t1 t2 -> additive t2 t3 -> additive t1 t3.
Proof.
  intros [[e1 H1] L1] [[e2 H2] L2]. split.
  - exists (e1 ++ e2)%list. now rewrite H2, H1, app_assoc.
  - intros c Hc. now rewrite L2, L1.
Qed.

Lemma additive_setitem (n : string) (c : column) (t : table) :
  generated_name n = true -> additive t (setitem n c t).
Proof.
  intros Hn. split; [apply columns_setitem |].
  intros k Hk. apply lookup_setitem_ne. congruence.
Qed.

Lemma additive_step (t0 t : table) (n : string) (c : column) :
  generated_name n = true -> additive t0 t -> additive t0 (setitem n c t).
Proof.
  intros Hn H. eapply additive_trans; [exact H | now apply additive_setitem].
Qed.

Create HintDb frames.
#[local] Hint Resolve additive_refl additive_step generated_name_suffix : frames.

(** ** Insertion sort *)

Section SortFacts.
Context {A : Type} (leb : A -> A -> bool) (P : A -> Prop).

Let R (a b : A) : Prop := leb a b = true.

Hypothesis leb_total : forall a b, P a -> P b -> leb a b = true \/ leb b a = true.
Hypothesis leb_trans :
  forall a b c, P a -> P b -> P c ->
                leb a b = true -> leb b c = true -> leb a c = true.

Lemma insert_by_perm (x : A) (l : list A) :
  Permutation (insert_by leb x l) (x :: l).
Proof.
  induction l as [| y l IH]; simpl; [reflexivity |].
  destruct (leb x y); [reflexivity |].
  rewrite IH. apply perm_swap.
Qed.

Lemma sort_by_perm (l : list A) : Permutation (sort_by leb l) l.
Proof.
  induction l as [| x l IH]; simpl; [reflexivity |].
  rewrite insert_by_perm. now constructor.
Qed.

Lemma insert_by_sorted (x : A) (l : list A) :
  P x -> Forall P l ->
  StronglySorted R l -> StronglySorted R (insert_by leb x l).
Proof.
  intros Px Pl Hs. induction Hs as [| y l Hs IH Hy]; simpl.
  - constructor; constructor.
  - inversion Pl as [| ? ? Py Pl']; subst.
    destruct (leb x y) eqn:E.
    + constructor; [now constructor |].
      constructor; [exact E |].
      rewrite Forall_forall in Hy, Pl' |- *. intros z Hz.
      apply (leb_trans x y z); auto. now apply Hy.
    + constructor; [now apply IH |].
      rewrite Forall_forall. intros z Hz.
      apply (Permutation_in _ (insert_by_perm x l)) in Hz.
      destruct Hz as [<- | Hz].
      * destruct (leb_total x y Px Py) as [H | H]; [congruence | exact H].
      * rewrite Forall_forall in Hy. now apply Hy.
Qed.

Lemma sort_by_sorted (l : list A) :
  Forall P l -> StronglySorted R (sort_by leb l).
Proof.
  induction 1 as [| x l Px Pl IH]; simpl; [constructor |].
  apply insert_by_sorted; auto.
  rewrite Forall_forall in *. intros z Hz.
  apply Pl. now apply (Permutation_in _ (sort_by_perm l)).
Qed.
End SortFacts.

(** ** The order on cells *)

Lemma str_leb_total (a b : string) : str_leb a b = true \/ str_leb b a = true.
Proof.
  unfold str_leb.
  destruct (String_as_OT.compare_spec a b) as [E | L | G]; auto.
  right. destruct (String_as_OT.compare_spec b a) as [E' | L' | G']; auto.
  exfalso. apply (StrictOrder_Irreflexive a).
  now transitivity b.
Qed.

Lemma str_leb_trans (a b c : string) :
  str_leb a b = true -> str_leb b c = true -> str_leb a c = true.
Proof.
  unfold str_leb.
  destruct (String_as_OT.compare_spec a b) as [-> | L1 | G1]; auto;
    [| discriminate].
  destruct (String_as_OT.compare_spec b c) as [<- | L2 | G2]; intros _ H;
    try discriminate.
  - destruct (String_as_OT.compare_spec a b) as [E | L | G]; auto.
    exfalso. apply (StrictOrder_Irreflexive a). now transitivity b.
  - destruct (String_as_OT.compare_spec a c) as [E | L | G]; auto.
    exfalso. apply (StrictOrder_Irreflexive a).
    transitivity b; [exact L1 |]. now transitivity c.
Qed.

Lemma str_leb_antisym (a b : string) :
  str_leb a b = true -> str_leb b a = true -> a = b.
Proof.
  unfold str_leb.
  destruct (String_as_OT.compare_spec a b) as [E | L | G]; auto;
    [| discriminate].
  destruct (String_as_OT.compare_spec b a) as [E' | L' | G']; auto;
    [| discriminate]. intros _ _.
  exfalso. apply (StrictOrder_Irreflexive a). now transitivity b.
Qed.

Lemma cell_leb_total (a b : cell) : cell_leb a b = true \/ cell_leb b a = true.
Proof.
  destruct a, b; simpl; auto.
  - rewrite !Qle_bool_iff. destruct (Qlt_le_dec q q0) as [H | H]; auto.
    left. now apply Qlt_le_weak.
  - rewrite !Z.leb_le. lia.
  - destruct b, b0; auto.
  - apply str_leb_total.
Qed.

Lemma cell_leb_trans (a b c : cell) :
  cell_leb a b = true -> cell_leb b c = true -> cell_leb a c = true.
Proof.
  destruct a, b, c; simpl; auto; try discriminate.
  - rewrite !Qle_bool_iff. apply Qle_trans.
  - rewrite !Z.leb_le. lia.
  - destruct b, b0, b1; auto.
  - apply str_leb_trans.
Qed.

Lemma cell_eqb_sym (a b : cell) : cell_eqb a b = cell_eqb b a.
Proof. unfold cell_eqb. apply andb_comm. Qed.

Lemma cell_lt_of_le (a b : cell) :
  cell_leb a b = true -> cell_eqb a b = false -> cell_lt a b.
Proof.
  unfold cell_eqb, cell_lt, cell_ltb. intros -> H. simpl in H. now rewrite H.
Qed.

(** ** Row selection *)

Lemma mask_filter_length_le {A} (mask : list bool) (xs : list A) :
  (length (mask_filter mask xs) <= length xs)%nat.
Proof.
  revert xs; induction mask as [| m mask IH]; intros [| x xs]; simpl; try lia.
  specialize (IH xs). destruct m; simpl; lia.
Qed.

Lemma mask_filter_length_eq {A B} (mask : list bool) (xs : list A) (ys : list B) :
  length xs = length ys ->
  length (mask_filter mask xs) = length (mask_filter mask ys).
Proof.
  revert xs ys; induction mask as [| m mask IH]; intros [| x xs] [| y ys] H;
    simpl in *; try lia.
  destruct m; simpl; auto.
Qed.

Lemma mask_filter_In {A} (mask : list bool) (xs : list A) (x : A) :
  In x (mask_filter mask xs) -> In x xs.
Proof.
  revert xs; induction mask as [| m mask IH]; intros [| y xs]; simpl;
    try tauto.
  destruct m; simpl; intuition.
Qed.

Lemma mask_filter_map {A B} (g : A -> B) (mask : list bool) (xs : list A) :
  map g (mask_filter mask xs) = mask_filter mask (map g xs).
Proof.
  revert xs; induction mask as [| m mask IH]; intros [| x xs]; simpl; auto.
  destruct m; simpl; now rewrite IH.
Qed.

Lemma take_map {A B} (g : A -> B) (idx : list nat) (xs : list A) :
  map g (take idx xs) = take idx (map g xs).
Proof.
  unfold take. induction idx as [| i idx IH]; simpl; auto.
  rewrite map_app, IH. f_equal.
  rewrite nth_error_map. now destruct (nth_error xs i).
Qed.

Lemma take_length_le {A} (idx : list nat) (xs : list A) :
  (length (take idx xs) <= length idx)%nat.
Proof.
  unfold take. induction idx as [| i idx IH]; simpl; auto.
  rewrite length_app. destruct (nth_error xs i); simpl; lia.
Qed.

Lemma take_length {A} (idx : list nat) (xs : list A) :
  Forall (fun i => (i < length xs)%nat) idx ->
  length (take idx xs) = length idx.
Proof.
  unfold take. induction 1 as [| i idx Hi _ IH]; simpl; auto.
  rewrite length_app, IH.
  apply nth_error_Some in Hi. destruct (nth_error xs i); simpl; congruence.
Qed.

Lemma take_In {A} (idx : list nat) (xs : list A) (x : A) :
  In x (take idx xs) -> In x xs.
Proof.
  unfold take. rewrite in_flat_map. intros [i [_ H]].
  destruct (nth_error xs i) eqn:E; simpl in H; [| contradiction].
  destruct H as [<- | []]. eapply nth_error_In; eauto.
Qed.

Lemma In_take {A} (idx : list nat) (xs : list A) (x : A) (i : nat) :
  nth_error xs i = Some x -> In i idx -> In x (take idx xs).
Proof.
  intros Hx Hi. unfold take. rewrite in_flat_map. exists i.
  split; [exact Hi |]. rewrite Hx. now left.
Qed.

Lemma cells_map_rows (f : forall A : Set, list A -> list A) (c : column) :
  (forall (A B : Set) (g : A -> B) xs, map g (f A xs) = f B (map g xs)) ->
  cells (map_rows f c) = f cell (cells c).
Proof. intros Hf. destruct c; simpl; apply Hf. Qed.

Lemma col_len_cells (c : column) : col_len c = length (cells c).
Proof. destruct c; simpl; now rewrite length_map. Qed.

(** ** De-duplication *)

Lemma duplicated_distinct (ks seen : list cell) :
  let kept := mask_filter (map negb (duplicated_from seen ks)) ks in
  distinct_keys kept /\
  forall y, In y kept -> forall s, In s seen -> cell_eqb y s = false.
Proof.
  revert seen; induction ks as [| k ks IH]; intros seen; simpl.
  - split; [exact I | intros y []].
  - destruct (IH (k :: seen)) as [Hd Hs].
    destruct (existsb (cell_eqb k) seen) eqn:E; simpl.
    + split; [exact Hd |]. intros y Hy s Hin. apply (Hs y Hy). now right.
    + split; [split; [| exact Hd] |].
      * intros y Hy. rewrite cell_eqb_sym. apply (Hs y Hy). now left.
      * intros y [<- | Hy] s Hin.
        -- destruct (cell_eqb k s) eqn:Ek; [| reflexivity].
           assert (existsb (cell_eqb k) seen = true)
             by (apply existsb_exists; eauto).
           congruence.
        -- apply (Hs y Hy). now right.
Qed.

Lemma distinct_keys_perm (l l' : list cell) :
  Permutation l l' -> distinct_keys l -> distinct_keys l'.
Proof.
  induction 1 as [| x l l' Hp IH | x y l | l l' l'' _ IH1 _ IH2]; simpl; auto.
  - intros [Hx Hd]. split; [| auto].
    intros y Hy. apply Hx. eapply Permutation_in; [symmetry |]; eauto.
  - intros [Hy [Hx Hd]]. repeat split; auto.
    intros z [<- | Hz]; [rewrite cell_eqb_sym; apply Hy; now left | now apply Hx].
Qed.

Lemma strictly_sorted (l : list cell) :
  StronglySorted (fun a b => cell_leb a b = true) l ->
  distinct_keys l ->
  StronglySorted cell_lt l.
Proof.
  induction 1 as [| x l Hs IH Hx]; simpl; [constructor |].
  intros [Hd Hd']. constructor; [auto |].
  rewrite Forall_forall in *. intros y Hy.
  apply cell_lt_of_le; auto.
Qed.

(** ** argsort *)

Lemma combine_seq_nth {A} (ks : list A) (start : nat) :
  Forall (fun p : A * nat =>
            (start <= snd p)%nat /\ nth_error ks (snd p - start) = Some (fst p))
         (combine ks (seq start (length ks))).
Proof.
  revert start; induction ks as [| k ks IH]; intros start; simpl; constructor.
  - simpl. rewrite Nat.sub_diag. auto.
  - eapply Forall_impl; [| apply IH]. intros [a i] [Hle Hn]; simpl in *.
    split; [lia |].
    replace (i - start)%nat with (S (i - S start)) by lia. exact Hn.
Qed.

Lemma map_fst_combine_seq {A} (ks : list A) (start : nat) :
  map fst (combine ks (seq start (length ks))) = ks.
Proof.
  revert start; induction ks as [| k ks IH]; intros start; simpl; auto.
  now rewrite IH.
Qed.

Lemma map_snd_combine_seq {A} (ks : list A) (start : nat) :
  map snd (combine ks (seq start (length ks))) = seq start (length ks).
Proof.
  revert start; induction ks as [| k ks IH]; intros start; simpl; auto.
  now rewrite IH.
Qed.

Lemma take_indexed {A} (ks : list A) (l : list (A * nat)) :
  Forall (fun p => nth_error ks (snd p) = Some (fst p)) l ->
  take (map snd l) ks = map fst l.
Proof.
  unfold take. induction 1 as [| [a i] l Hp _ IH]; simpl; auto.
  simpl in Hp. now rewrite Hp, IH.
Qed.

Definition sorted_pairs (ks : list cell) : list (cell * nat) :=
  sort_by (fun a b : cell * nat => cell_leb (fst a) (fst b))
          (combine ks (seq 0 (length ks))).

Lemma argsort_perm (ks : list cell) :
  Permutation (argsort ks) (seq 0 (length ks)).
Proof.
  unfold argsort. rewrite <- (map_snd_combine_seq ks 0) at 2.
  apply Permutation_map, sort_by_perm.
Qed.

Lemma take_argsort (ks : list cell) :
  take (argsort ks) ks = map fst (sorted_pairs ks).
Proof.
  unfold argsort. apply take_indexed.
  rewrite Forall_forall. intros p Hp.
  apply (Permutation_in _ (sort_by_perm _ _)) in Hp.
  pose proof (combine_seq_nth ks 0) as H. rewrite Forall_forall in H.
  destruct (H p Hp) as [_ Hn]. now rewrite Nat.sub_0_r in Hn.
Qed.

Lemma take_argsort_perm (ks : list cell) :
  Permutation (take (argsort ks) ks) ks.
Proof.
  rewrite take_argsort. rewrite <- (map_fst_combine_seq ks 0) at 2.
  apply Permutation_map, sort_by_perm.
Qed.

Lemma take_argsort_sorted (ks : list cell) :
  StronglySorted (fun a b => cell_leb a b = true) (take (argsort ks) ks).
Proof.
  rewrite take_argsort. unfold sorted_pairs.
  set (leb := fun a b : cell * nat => cell_leb (fst a) (fst b)).
  assert (H : StronglySorted (fun a b => leb a b = true)
                (sort_by leb (combine ks (seq 0 (length ks))))).
  { apply (sort_by_sorted leb (fun _ => True)).
    - intros a b _ _. apply cell_leb_total.
    - intros a b c _ _ _. apply cell_leb_trans.
    - apply Forall_forall. auto. }
  induction H as [| p l Hs IH Hp]; simpl; constructor; auto.
  rewrite Forall_forall in *. intros k Hk.
  apply in_map_iff in Hk. destruct Hk as [q [<- Hq]]. now apply Hp.
Qed.

(** ** Filling *)

Lemma ffill_from_length (last : float64) (xs : list float64) :
  length (ffill_from last xs) = length xs.
Proof.
  revert last; induction xs as [| x xs IH]; intros last; simpl; auto.
  destruct (is_nan x); simpl; now rewrite IH.
Qed.

Lemma ffill_from_notna (last : float64) (xs : list float64) :
  notna last = true -> Forall (fun x => notna x = true) (ffill_from last xs).
Proof.
  revert last; induction xs as [| x xs IH]; intros last Hl; simpl;
    [constructor |].
  destruct (is_nan x) eqn:E; constructor; auto.
  - unfold notna. now rewrite E.
  - apply IH. unfold notna. now rewrite E.
Qed.

Lemma ffill_from_head (last x : float64) (xs : list float64) :
  notna x = true -> Forall (fun y => notna y = true) (ffill_from last (x :: xs)).
Proof.
  intros Hx. simpl. unfold notna in Hx. apply negb_true_iff in Hx.
  rewrite Hx. constructor; [unfold notna; now rewrite Hx |].
  apply ffill_from_notna. unfold notna. now rewrite Hx.
Qed.

Lemma ffill_from_id (last : float64) (xs : list float64) :
  Forall (fun x => notna x = true) xs -> ffill_from last xs = xs.
Proof.
  intros H; revert last; induction H as [| x xs Hx _ IH]; intros last; simpl;
    auto.
  unfold notna in Hx. apply negb_true_iff in Hx. now rewrite Hx, IH.
Qed.

(** After the forward fill, the missing values form a prefix. *)
Lemma ffill_prefix (xs : list float64) :
  existsb notna xs = true ->
  exists k z zs,
    ffill xs = (repeat NaN k ++ z :: zs)%list /\
    Forall (fun x => notna x = true) (z :: zs).
Proof.
  unfold ffill. induction xs as [| x xs IH]; simpl; [discriminate |].
  destruct (is_nan x) eqn:E; unfold notna at 1; rewrite E; simpl.
  - intros H. destruct (IH H) as [k [z [zs [Hk Hz]]]].
    exists (S k), z, zs. simpl. now rewrite Hk.
  - intros _. exists 0%nat, x, (ffill_from x xs). split; [reflexivity |].
    constructor; [unfold notna; now rewrite E |].
    apply ffill_from_notna. unfold notna. now rewrite E.
Qed.

Lemma fill_notna (xs : list float64) :
  existsb notna xs = true ->
  Forall (fun x => notna x = true) (bfill (ffill xs)).
Proof.
  intros H. destruct (ffill_prefix xs H) as [k [z [zs [-> Hz]]]].
  unfold bfill, ffill. apply Forall_rev.
  rewrite rev_app_distr.
  assert (Hr : exists y ys, rev (z :: zs) = y :: ys /\ notna y = true).
  { destruct (rev (z :: zs)) as [| y ys] eqn:E.
    - apply (f_equal (@length _)) in E. rewrite length_rev in E. discriminate.
    - exists y, ys. split; [reflexivity |].
      rewrite Forall_forall in Hz. apply Hz.
      apply in_rev. rewrite E. now left. }
  destruct Hr as [y [ys [-> Hy]]].
  rewrite <- app_comm_cons. now apply ffill_from_head.
Qed.

Lemma fill_id (xs : list float64) :
  Forall (fun x => notna x = true) xs -> bfill (ffill xs) = xs.
Proof.
  intros H. unfold bfill, ffill.
  rewrite (ffill_from_id NaN xs H).
  rewrite ffill_from_id by (now apply Forall_rev).
  apply rev_involutive.
Qed.

Lemma fill_length (xs : list float64) : length (bfill (ffill xs)) = length xs.
Proof.
  unfold bfill, ffill.
  now rewrite length_rev, ffill_from_length, length_rev, ffill_from_length.
Qed.

(** ** Clipping *)

Lemma clip_length (lo hi : float64) (xs : list float64) :
  length (clip lo hi xs) = length xs.
Proof.
  unfold clip.
  destruct (bound lo) as [l |], (bound hi) as [u |];
    try destruct (fleb l u); apply length_map.
Qed.

Lemma bound_notna (b l : float64) : bound b = Some l -> notna l = true.
Proof.
  unfold bound, notna. destruct (is_nan b) eqn:E; [discriminate |].
  intros H; injection H as <-. now rewrite E.
Qed.

Lemma clip_value_notna (lo hi : option float64) (x : float64) :
  (forall l, lo = Some l -> notna l = true) ->
  (forall u, hi = Some u -> notna u = true) ->
  notna x = true -> notna (clip_value lo hi x) = true.
Proof.
  intros Hl Hu Hx. unfold clip_value.
  unfold notna in Hx. apply negb_true_iff in Hx. rewrite Hx.
  destruct lo as [l |], hi as [u |];
    repeat match goal with
           | |- context [if ?b then _ else _] => destruct b
           end;
    auto; unfold notna; try now rewrite Hx.
Qed.

Lemma clip_notna (lo hi : float64) (xs : list float64) :
  Forall (fun x => notna x = true) xs ->
  Forall (fun x => notna x = true) (clip lo hi xs).
Proof.
  intros H. unfold clip.
  pose proof (bound_notna lo) as Hlo. pose proof (bound_notna hi) as Hhi.
  destruct (bound lo) as [l |], (bound hi) as [u |];
    try destruct (fleb l u);
    apply Forall_map; eapply Forall_impl; try exact H;
    intros x Hx; apply clip_value_notna; auto;
    intros b Hb; injection Hb as <-; auto; discriminate.
Qed.

(** ** The z-scores of a constant column *)

Lemma Qred_zero (q : Q) : q == 0 -> Qred q = 0.
Proof. intros H. now rewrite (Qred_complete _ _ H). Qed.

Lemma fsum_from (v : Q) (vs : list float64) :
  Forall (fin_eq v) vs ->
  forall a, exists s,
    fold_left fadd vs (Fin a) = Fin s /\
    s == a + inject_Z (Z.of_nat (length vs)) * v.
Proof.
  induction 1 as [| x vs [q [-> Hq]] _ IH]; intros a.
  - exists a. split; [reflexivity |]. simpl. ring.
  - cbn [fold_left fadd]. destruct (IH (Qred (a + q))) as [s [Hs Es]].
    exists s. split; [exact Hs |].
    cbn [length]. rewrite Es, Qred_correct, Hq.
    rewrite Nat2Z.inj_succ, <- Z.add_1_r, inject_Z_plus.
    ring.
Qed.

Lemma all_equal_to_spec (v : Q) (xs : list float64) :
  all_equal_to v xs = true -> Forall (fin_eq v) (filter notna xs).
Proof.
  unfold all_equal_to. induction xs as [| x xs IH]; simpl; [constructor |].
  intros H. apply andb_true_iff in H. destruct H as [Hx Hxs].
  destruct x as [| s | q]; simpl; auto; [discriminate |].
  constructor; auto. exists q. split; [reflexivity |].
  now apply Qeq_bool_iff.
Qed.

Lemma Qzero_inject_pos (n : nat) : (0 < n)%nat -> Qzero (inject_Z (Z.of_nat n)) = false.
Proof.
  intros H. apply not_true_iff_false. rewrite Qzero_iff.
  intros E. unfold Qeq in E. simpl in E. lia.
Qed.

Lemma mean_constant (v : Q) (x : float64) (vs : list float64) :
  Forall (fin_eq v) (x :: vs) ->
  exists m, fdiv (fsum (x :: vs)) (of_nat (length (x :: vs))) = Fin m /\ m == v.
Proof.
  intros H. unfold fsum.
  destruct (fsum_from v _ H 0) as [s [-> Es]].
  unfold of_nat, of_Z, fdiv.
  rewrite Qzero_inject_pos by (simpl; lia).
  eexists. split; [reflexivity |].
  rewrite Qred_correct, Es.
  assert (Hn : ~ inject_Z (Z.of_nat (length (x :: vs))) == 0).
  { intros E. unfold Qeq in E. simpl in E. lia. }
  field. exact Hn.
Qed.

Lemma square_deviation_zero (v m : Q) (x : float64) :
  m == v -> fin_eq v x -> fin_eq 0 (fmul (fsub x (Fin m)) (fsub x (Fin m))).
Proof.
  intros Hm [q [-> Hq]]. unfold fsub, fopp, fadd, fmul.
  eexists. split; [reflexivity |].
  rewrite !Qred_correct, Hq, Hm. ring.
Qed.

Lemma var_constant (v : Q) (xs : list float64) :
  Forall (fin_eq v) (filter notna xs) ->
  var xs = NaN \/ var xs = Fin 0.
Proof.
  unfold var. intros H.
  destruct (filter notna xs) as [| x [| y vs]] eqn:E; auto.
  right.
  destruct (mean_constant v x (y :: vs) H) as [m [-> Hm]].
  assert (Hsq : Forall (fin_eq 0)
                  (map (fun z => fmul (fsub z (Fin m)) (fsub z (Fin m)))
                     (x :: y :: vs))).
  { apply Forall_map. eapply Forall_impl; [| exact H].
    intros z Hz. now apply (square_deviation_zero v). }
  unfold fsum at 1. destruct (fsum_from 0 _ Hsq 0) as [s [-> Es]].
  unfold of_nat, of_Z, fdiv.
  rewrite Qzero_inject_pos by (simpl; lia).
  f_equal. apply Qred_zero. rewrite Es.
  assert (Hn : ~ inject_Z (Z.of_nat (length (x :: y :: vs) - 1)) == 0).
  { intros E'. unfold Qeq in E'. simpl in E'. lia. }
  field. exact Hn.
Qed.

Lemma std_constant (qsqrt : Q -> Q) (v : Q) (xs : list float64) :
  qsqrt 0 == 0 ->
  Forall (fin_eq v) (filter notna xs) ->
  std qsqrt xs = NaN \/ std qsqrt xs = Fin 0.
Proof.
  intros Hs H. unfold std.
  destruct (var_constant v xs H) as [-> | ->]; [now left | right].
  simpl. f_equal. now apply Qred_zero.
Qed.

Lemma zscore_constant (qsqrt : Q -> Q) (v : Q) (xs : list float64) (x : float64) :
  qsqrt 0 == 0 ->
  Forall (fin_eq v) (filter notna xs) ->
  x = NaN \/ fin_eq v x ->
  fabs (fdiv (fsub x (mean xs)) (std qsqrt xs)) = NaN.
Proof.
  intros Hs H Hx.
  destruct Hx as [-> | [q [-> Hq]]]; [reflexivity |].
  destruct (std_constant qsqrt v xs Hs H) as [-> | ->].
  - now rewrite fdiv_nan_r.
  - unfold mean. destruct (filter notna xs) as [| y vs] eqn:E; [reflexivity |].
    destruct (mean_constant v y vs H) as [m [-> Hm]].
    unfold fsub, fopp, fadd, fdiv.
    change (Qzero 0) with true. cbn iota.
    replace (Qzero (Qred (q + Qred (- m)))) with true; [reflexivity |].
    symmetry. apply Qzero_iff. rewrite !Qred_correct, Hq, Hm. ring.
Qed.

Lemma zscores_constant (qsqrt : Q -> Q) (v : Q) (xs : list float64) :
  qsqrt 0 == 0 ->
  all_equal_to v xs = true ->
  Detector.zscores qsqrt xs = map (fun _ => NaN) xs.
Proof.
  intros Hs Hc. unfold Detector.zscores.
  pose proof (all_equal_to_spec v xs Hc) as H.
  apply map_ext_in. intros x Hx.
  apply (zscore_constant qsqrt v xs x Hs H).
  unfold all_equal_to in Hc. rewrite forallb_forall in Hc.
  specialize (Hc x Hx). destruct x as [| s | q]; auto; [discriminate |].
  right. exists q. split; [reflexivity | now apply Qeq_bool_iff].
Qed.

(** ** Quantiles *)

Lemma lerp_Fin (a b t : Q) :
  exists r, lerp (Fin a) (Fin b) t = Fin r /\ r == a + (b - a) * t.
Proof.
  unfold lerp, fsub, fopp, fadd, fmul.
  destruct (Qle_bool (1 # 2) t); eexists; (split; [reflexivity |]);
    rewrite !Qred_correct; ring.
Qed.

Lemma lerp_nan_or_eq (v : Q) (a b : float64) (t : Q) :
  nan_or_eq v a -> nan_or_eq v b -> nan_or_eq v (lerp a b t).
Proof.
  intros [-> | [qa [-> Ha]]] Hb.
  - left. unfold lerp. destruct b; simpl; destruct (Qle_bool (1 # 2) t); reflexivity.
  - destruct Hb as [-> | [qb [-> Hb]]].
    + left. unfold lerp. simpl. destruct (Qle_bool (1 # 2) t); reflexivity.
    + right. destruct (lerp_Fin qa qb t) as [r [-> Hr]].
      exists r. split; [reflexivity |]. rewrite Hr, Ha, Hb. ring.
Qed.

Lemma nth_nan_or_eq (v : Q) (vs : list float64) (i : nat) :
  Forall (fin_eq v) vs -> nan_or_eq v (nth i vs NaN).
Proof.
  intros H. destruct (Nat.lt_ge_cases i (length vs)) as [L | G].
  - right. rewrite Forall_forall in H. apply H. now apply nth_In.
  - left. now apply nth_overflow.
Qed.

Lemma quantile_constant (v q : Q) (xs : list float64) :
  all_equal_to v xs = true -> nan_or_eq v (quantile q xs).
Proof.
  intros Hc. unfold quantile.
  assert (Hs : Forall (fin_eq v) (sort_by fleb (filter notna xs))).
  { pose proof (all_equal_to_spec v xs Hc) as H.
    rewrite Forall_forall in *. intros x Hx. apply H.
    now apply (Permutation_in _ (sort_by_perm fleb _)). }
  destruct (sort_by fleb (filter notna xs)) as [| y ys] eqn:E; [now left |].
  apply lerp_nan_or_eq; now apply nth_nan_or_eq.
Qed.

Lemma iqr_bounds_constant (v : Q) (xs : list float64) :
  all_equal_to v xs = true ->
  nan_or_eq v (fst (Processor.iqr_bounds xs)) /\
  nan_or_eq v (snd (Processor.iqr_bounds xs)).
Proof.
  intros Hc. unfold Processor.iqr_bounds. cbn [fst snd].
  pose proof (quantile_constant v (1 # 4) xs Hc) as H1.
  pose proof (quantile_constant v (3 # 4) xs Hc) as H3.
  destruct H1 as [-> | [q1 [-> E1]]], H3 as [-> | [q3 [-> E3]]];
    split; try (left; reflexivity);
    right; unfold fsub, fopp, fadd, fmul, of_Z;
    eexists; (split; [reflexivity |]);
    rewrite !Qred_correct, E1, E3; unfold inject_Z; ring.
Qed.

Lemma clip_value_constant (v : Q) (lo hi : option float64) (x : float64) :
  (forall l, lo = Some l -> fin_eq v l) ->
  (forall u, hi = Some u -> fin_eq v u) ->
  nan_or_eq v x -> clip_value lo hi x = x.
Proof.
  intros Hl Hu [-> | [q [-> Hq]]]; [reflexivity |].
  unfold clip_value. cbn [is_nan].
  assert (Hge : forall l, lo = Some l -> fgeb (Fin q) l = true).
  { intros l E. destruct (Hl l E) as [ql [-> El]].
    apply fgeb_Fin. rewrite El, Hq. apply Qle_refl. }
  assert (Hle : forall u, hi = Some u -> fleb (Fin q) u = true).
  { intros u E. destruct (Hu u E) as [qu [-> Eu]].
    apply fleb_Fin. rewrite Eu, Hq. apply Qle_refl. }
  destruct lo as [l |], hi as [u |];
    try rewrite (Hge _ eq_refl); try rewrite (Hle _ eq_refl); reflexivity.
Qed.

Lemma bound_nan_or_eq (v : Q) (b l : float64) :
  nan_or_eq v b -> bound b = Some l -> fin_eq v l.
Proof.
  intros [-> | H]; [discriminate |].
  destruct H as [q [-> Hq]]. unfold bound; simpl.
  intros E; injection E as <-. exists q. auto.
Qed.

(** A column whose non-missing values are all equal comes out of the
    clip against its own quartile fence unchanged. *)
Lemma clip_constant (v : Q) (xs : list float64) :
  all_equal_to v xs = true ->
  clip (fst (Processor.iqr_bounds xs)) (snd (Processor.iqr_bounds xs)) xs = xs.
Proof.
  intros Hc. destruct (iqr_bounds_constant v xs Hc) as [Hlo Hhi].
  pose proof (fun l => bound_nan_or_eq v _ l Hlo) as Bl.
  pose proof (fun u => bound_nan_or_eq v _ u Hhi) as Bh.
  unfold clip.
  assert (Hx : forall x, In x xs -> nan_or_eq v x).
  { intros x Hx. unfold all_equal_to in Hc. rewrite forallb_forall in Hc.
    specialize (Hc x Hx). destruct x as [| s | q]; [now left | discriminate |].
    right. exists q. split; [reflexivity | now apply Qeq_bool_iff]. }
  destruct (bound (fst (Processor.iqr_bounds xs))) as [l |],
           (bound (snd (Processor.iqr_bounds xs))) as [u |];
    try destruct (fleb l u);
    rewrite <- (map_id xs) at 2; apply map_ext_in; intros x Hin;
    apply (clip_value_constant v); auto;
    intros b Hb; injection Hb as <-; auto; discriminate.
Qed.

(** *** The quartiles of a finite column are in order *)

Lemma sorted_nth_le (qs : list Q) (i j : nat) :
  StronglySorted Qle qs -> (i <= j < length qs)%nat ->
  nth i qs 0 <= nth j qs 0.
Proof.
  intros Hs; revert i j; induction Hs as [| q qs Hs IH Hq]; intros i j Hij;
    simpl in *; [lia |].
  destruct i as [| i], j as [| j]; try lia.
  - apply Qle_refl.
  - rewrite Forall_forall in Hq. apply Hq. apply nth_In. lia.
  - apply IH. lia.
Qed.

Lemma Qmult_le_l_weak_nonneg (a b c : Q) : 0 <= a -> b <= c -> a * b <= a * c.
Proof.
  intros Ha Hbc. rewrite (Qmult_comm a b), (Qmult_comm a c).
  now apply Qmult_le_compat_r.
Qed.

Lemma floor_position (n : nat) (q : Q) :
  0 <= q -> q <= 1 ->
  let pos := inject_Z (Z.of_nat n) * q in
  (0 <= Qfloor pos <= Z.of_nat n)%Z /\
  0 <= pos - inject_Z (Qfloor pos) /\ pos - inject_Z (Qfloor pos) <= 1.
Proof.
  intros H0 H1 pos.
  assert (Hn : 0 <= inject_Z (Z.of_nat n)).
  { change 0 with (inject_Z 0). rewrite <- Zle_Qle. lia. }
  assert (Hpos0 : 0 <= pos) by (unfold pos; now apply Qmult_le_0_compat).
  assert (Hposn : pos <= inject_Z (Z.of_nat n)).
  { unfold pos. rewrite <- (Qmult_1_r (inject_Z (Z.of_nat n))) at 2.
    apply Qmult_le_l_weak_nonneg; auto. }
  pose proof (Qfloor_le pos) as Hfl.
  pose proof (Qlt_floor pos) as Hlt.
  rewrite inject_Z_plus in Hlt. change (inject_Z 1) with 1 in Hlt.
  repeat split; try lra.
  - rewrite <- (Qfloor_Z 0). now apply Qfloor_resp_le.
  - rewrite <- (Qfloor_Z (Z.of_nat n)). now apply Qfloor_resp_le.
Qed.

Lemma interpolate_mono (qs : list Q) (q q' : Q) :
  StronglySorted Qle qs -> qs <> [] ->
  0 <= q -> q <= q' -> q' <= 1 ->
  interpolate qs q <= interpolate qs q'.
Proof.
  intros Hs Hne H0 Hqq H1. unfold interpolate.
  set (N := (length qs - 1)%nat).
  assert (Hlen : length qs = S N).
  { unfold N. destruct qs; [congruence | simpl; lia]. }
  set (pos := inject_Z (Z.of_nat N) * q).
  set (pos' := inject_Z (Z.of_nat N) * q').
  assert (Hq1 : q <= 1) by lra. assert (Hq0' : 0 <= q') by lra.
  destruct (floor_position N q H0 Hq1) as [[Hi0 HiN] [Hg0 Hg1]].
  destruct (floor_position N q' Hq0' H1) as [[Hi0' HiN'] [Hg0' Hg1']].
  fold pos in Hi0, HiN, Hg0, Hg1. fold pos' in Hi0', HiN', Hg0', Hg1'.
  assert (Hpp : pos <= pos').
  { unfold pos, pos'. apply Qmult_le_l_weak_nonneg; auto.
    change 0 with (inject_Z 0). rewrite <- Zle_Qle. lia. }
  assert (Hfl : (Qfloor pos <= Qfloor pos')%Z) by now apply Qfloor_resp_le.
  set (i := Z.to_nat (Qfloor pos)) in *.
  set (i' := Z.to_nat (Qfloor pos')) in *.
  assert (Hi : (i <= N)%nat) by (unfold i; lia).
  assert (Hi' : (i' <= N)%nat) by (unfold i'; lia).
  assert (Hii : (i <= i')%nat) by (unfold i, i'; lia).
  set (g := pos - inject_Z (Qfloor pos)) in *.
  set (g' := pos' - inject_Z (Qfloor pos')) in *.
  set (a := nth i qs 0). set (b := nth (Nat.min (i + 1) N) qs 0).
  set (a' := nth i' qs 0). set (b' := nth (Nat.min (i' + 1) N) qs 0).
  assert (Hab : a <= b) by (apply sorted_nth_le; auto; lia).
  assert (Hab' : a' <= b') by (apply sorted_nth_le; auto; lia).
  destruct (Nat.eq_dec i i') as [E | NE].
  - assert (Ea : a' = a) by (unfold a, a'; now rewrite E).
    assert (Eb : b' = b) by (unfold b, b'; now rewrite E).
    rewrite Ea, Eb.
    assert (Hgg : g <= g').
    { unfold g, g'. unfold i, i' in E.
      assert (Qfloor pos = Qfloor pos') by lia.
      rewrite H. lra. }
    apply Qplus_le_r. apply Qmult_le_l_weak_nonneg; lra.
  - assert (Hba : b <= a') by (apply sorted_nth_le; auto; lia).
    assert (Hup : a + (b - a) * g <= b).
    { assert ((b - a) * g <= (b - a) * 1)
        by (apply Qmult_le_l_weak_nonneg; lra).
      lra. }
    assert (Hdown : a' <= a' + (b' - a') * g').
    { assert (0 <= (b' - a') * g') by (apply Qmult_le_0_compat; lra).
      lra. }
    lra.
Qed.

Lemma fleb_finite_total (a b : float64) :
  is_finite a = true -> is_finite b = true ->
  fleb a b = true \/ fleb b a = true.
Proof.
  destruct a, b; try discriminate. intros _ _.
  rewrite !fleb_Fin. destruct (Qlt_le_dec q q0); auto.
  left. now apply Qlt_le_weak.
Qed.

Lemma fleb_finite_trans (a b c : float64) :
  is_finite a = true -> is_finite b = true -> is_finite c = true ->
  fleb a b = true -> fleb b c = true -> fleb a c = true.
Proof.
  destruct a, b, c; try discriminate. intros _ _ _.
  rewrite !fleb_Fin. apply Qle_trans.
Qed.

Lemma finite_values (vs : list float64) :
  Forall (fun x => is_finite x = true) vs ->
  StronglySorted (fun a b => fleb a b = true) vs ->
  exists qs, vs = map Fin qs /\ StronglySorted Qle qs.
Proof.
  intros Hf Hs. induction Hs as [| x vs Hs IH Hx].
  - exists []. split; constructor.
  - inversion Hf as [| ? ? Fx Fvs]; subst.
    destruct (IH Fvs) as [qs [-> Hqs]].
    destruct x as [| s | q]; try discriminate.
    exists (q :: qs). split; [reflexivity |].
    constructor; [exact Hqs |].
    rewrite Forall_forall in *. intros r Hr.
    apply fleb_Fin. apply Hx. now apply in_map.
Qed.

(** The quantile of a column of numbers, some possibly missing. *)
Lemma quantile_finite (q : Q) (xs : list float64) :
  0 <= q -> q <= 1 ->
  forallb finite_or_nan xs = true ->
  existsb notna xs = true ->
  exists qs r,
    StronglySorted Qle qs /\ qs <> [] /\
    sort_by fleb (filter notna xs) = map Fin qs /\
    quantile q xs = Fin r /\ r == interpolate qs q.
Proof.
  intros Hq0 Hq1 Hfin Hex. unfold quantile.
  set (vs := sort_by fleb (filter notna xs)).
  assert (Hall : Forall (fun x => is_finite x = true) (filter notna xs)).
  { rewrite Forall_forall. intros x Hx. apply filter_In in Hx.
    destruct Hx as [Hin Hn]. rewrite forallb_forall in Hfin.
    specialize (Hfin x Hin). now destruct x. }
  assert (Hvs : Forall (fun x => is_finite x = true) vs).
  { rewrite Forall_forall in *. intros x Hx. apply Hall.
    now apply (Permutation_in _ (sort_by_perm fleb _)). }
  assert (Hsorted : StronglySorted (fun a b => fleb a b = true) vs).
  { apply (sort_by_sorted fleb (fun x => is_finite x = true)); auto.
    - apply fleb_finite_total.
    - apply fleb_finite_trans. }
  destruct (finite_values vs Hvs Hsorted) as [qs [Eq Hqs]].
  assert (Hne : qs <> []).
  { intros ->. simpl in Eq.
    apply existsb_exists in Hex. destruct Hex as [x [Hin Hn]].
    assert (In x vs).
    { apply (Permutation_in _ (Permutation_sym (sort_by_perm fleb _))).
      apply filter_In. auto. }
    rewrite Eq in H. contradiction. }
  rewrite Eq. destruct qs as [| q0 qs']; [congruence |].
  cbn [map]. rewrite <- (map_cons Fin q0 qs').
  set (ql := q0 :: qs') in *.
  rewrite length_map.
  set (N := (length ql - 1)%nat).
  assert (Hlen : length ql = S N) by (unfold N, ql; simpl; lia).
  destruct (floor_position N q Hq0 Hq1) as [[Hi0 HiN] _].
  set (pos := inject_Z (Z.of_nat N) * q) in *.
  set (i := Z.to_nat (Qfloor pos)).
  assert (Hi : (i <= N)%nat) by (unfold i; lia).
  rewrite (nth_map_lt Fin ql i NaN 0) by lia.
  rewrite (nth_map_lt Fin ql (Nat.min (i + 1) N) NaN 0) by lia.
  destruct (lerp_Fin (nth i ql 0) (nth (Nat.min (i + 1) N) ql 0)
              (Qred (pos - inject_Z (Qfloor pos)))) as [r [Hr Er]].
  exists ql, r. repeat split; auto.
  rewrite Er, Qred_correct. unfold interpolate.
  fold N. fold pos. fold i. reflexivity.
Qed.

Lemma map_Fin_inj (a b : list Q) : map Fin a = map Fin b -> a = b.
Proof.
  revert b; induction a as [| x a IH]; intros [| y b] H; simpl in H;
    try discriminate; auto.
  injection H as -> H. f_equal. now apply IH.
Qed.

Lemma iqr_bounds_finite (xs : list float64) :
  forallb finite_or_nan xs = true ->
  existsb notna xs = true ->
  exists l h, Processor.iqr_bounds xs = (Fin l, Fin h) /\ l <= h.
Proof.
  intros Hfin Hex. unfold Processor.iqr_bounds.
  destruct (quantile_finite (1 # 4) xs) as [qs [r1 [Hs [Hne [E1 [-> Er1]]]]]];
    auto; try (unfold Qle; simpl; lia).
  destruct (quantile_finite (3 # 4) xs) as [qs' [r3 [_ [_ [E3 [-> Er3]]]]]];
    auto; try (unfold Qle; simpl; lia).
  assert (qs' = qs) by (apply map_Fin_inj; congruence). subst qs'.
  assert (Hle : r1 <= r3).
  { rewrite Er1, Er3. apply interpolate_mono; auto;
      unfold Qle; simpl; lia. }
  unfold fsub, fopp, fadd, fmul, of_Z.
  eexists. eexists. split; [reflexivity |].
  rewrite !Qred_correct. change (inject_Z 3) with 3. lra.
Qed.

Lemma clip_value_within (l h : Q) (x : float64) :
  l <= h ->
  let y := clip_value (Some (Fin l)) (Some (Fin h)) x in
  y = NaN \/ (fleb (Fin l) y = true /\ fleb y (Fin h) = true).
Proof.
  intros Hlh. unfold clip_value.
  destruct x as [| s | q]; [now left | |]; right; cbn [is_nan].
  - destruct s; simpl; split; apply fleb_Fin; lra.
  - destruct (fgeb (Fin q) (Fin l)) eqn:Eg;
      destruct (fleb (Fin q) (Fin h)) eqn:El;
      try apply fgeb_Fin in Eg; try apply fleb_Fin in El;
      try apply fleb_Fin_false in Eg; try apply fleb_Fin_false in El;
      split; apply fleb_Fin; lra.
Qed.

Lemma clip_within (l h : Q) (xs : list float64) (y : float64) :
  l <= h ->
  In y (clip (Fin l) (Fin h) xs) ->
  y = NaN \/ (fleb (Fin l) y = true /\ fleb y (Fin h) = true).
Proof.
  intros Hlh. unfold clip, bound. cbn [is_nan].
  replace (fleb (Fin l) (Fin h)) with true by (symmetry; now apply fleb_Fin).
  intros Hy. apply in_map_iff in Hy. destruct Hy as [x [<- _]].
  now apply clip_value_within.
Qed.

Lemma columns_setitem_present (n : string) (c c0 : column) (df : table) :
  lookup n df = Some c0 -> columns (setitem n c df) = columns df.
Proof.
  unfold columns. induction df as [| [m c1] df IH]; simpl; [discriminate |].
  destruct (String.eqb_spec n m) as [-> | Hne]; simpl; [reflexivity |].
  intros H. now rewrite IH.
Qed.

(** ** Rolling windows *)

Lemma window_length_le {A} (w i : nat) (xs : list A) :
  (length (window w i xs) <= Nat.min w (i + 1))%nat.
Proof. unfold window. rewrite length_firstn. lia. Qed.

Lemma filter_length_le {A} (f : A -> bool) (l : list A) :
  (length (filter f l) <= length l)%nat.
Proof.
  induction l as [| x l IH]; simpl; [lia |]. destruct (f x); simpl; lia.
Qed.

Lemma rolling_length (w mp : nat) (agg : list float64 -> float64)
    (xs : list float64) :
  length (rolling w mp agg xs) = length xs.
Proof. unfold rolling. now rewrite length_map, length_seq. Qed.

Lemma nth_rolling (w mp : nat) (agg : list float64 -> float64)
    (xs : list float64) (i : nat) :
  (i < length xs)%nat ->
  nth i (rolling w mp agg xs) NaN
  = if Nat.ltb (length (filter notna (window w i xs))) mp then NaN
    else agg (filter notna (window w i xs)).
Proof.
  intros H. unfold rolling.
  rewrite (nth_map_lt _ _ _ _ 0%nat) by (now rewrite length_seq).
  now rewrite seq_nth.
Qed.

(** ** data_processor.py *)

Module ProcessorFacts.
Import Processor.

(** C8, as stated, fails on a column of strings: both strings are
    well-formed date-times, yet the column is not of a date-time type and
    the report says [has_valid_timestamps = false]. *)
Lemma has_valid_timestamps_rejects_parseable_strings :
  exists c r,
    lookup "timestamp" iso_stamps = Some c /\
    validate_data iso_stamps = inr r /\
    ~ (has_valid_timestamps r = true <-> parseable_as_datetime c = true).
Proof.
  eexists. eexists. split; [reflexivity |]. split; [reflexivity |].
  simpl. intros [_ H]. specialize (H eq_refl). discriminate.
Qed.

(** C8, amended.  For every table with a [timestamp] column,
    [validate_data] reports [has_valid_timestamps = true] exactly when that
    column has a date-time type, whatever its values; a column of strings
    gives [false] even when every string is a well-formed date-time.  The
    report is produced whenever the range-checked columns [voltage] and
    [temperature] are numeric or absent. *)
Theorem has_valid_timestamps_is_dtype_check (data : table) (c : column) :
  lookup "timestamp" data = Some c ->
  (forall r, validate_data data = inr r ->
             (has_valid_timestamps r = true <-> exists ts, c = TimeCol ts)) /\
  (numeric_or_absent "voltage" data = true ->
   numeric_or_absent "temperature" data = true ->
   exists r, validate_data data = inr r).
Proof.
  intros Hts. unfold validate_data. rewrite Hts. split.
  - intros r.
    destruct (match lookup "voltage" data with
              | Some c0 => _ | None => _ end) as [e | b]; simpl;
      [discriminate |].
    destruct (match lookup "temperature" data with
              | Some c0 => _ | None => _ end) as [e | b']; simpl;
      [discriminate |].
    intros H; injection H as <-; simpl.
    destruct c; simpl; split; intros H; try discriminate; eauto;
      destruct H as [ts H]; discriminate.
  - unfold numeric_or_absent. intros Hv Ht.
    destruct (lookup "voltage" data) as [[]|]; try discriminate;
      destruct (lookup "temperature" data) as [[]|]; try discriminate;
      simpl; eauto.
Qed.

Lemma has_valid_timestamps_is_dtype_check_witness :
  (forall r, validate_data minute_stamps = inr r ->
             (has_valid_timestamps r = true <->
              exists ts, TimeCol [Some 0%Z; Some 60000000000%Z] = TimeCol ts)) /\
  (numeric_or_absent "voltage" minute_stamps = true ->
   numeric_or_absent "temperature" minute_stamps = true ->
   exists r, validate_data minute_stamps = inr r).
Proof.
  apply (has_valid_timestamps_is_dtype_check minute_stamps). reflexivity.
Defined.

(** *** calculate_derived_features *)

Lemma derive_power_frame (df df' : table) (n : string) :
  derive_power df = inr df' -> n <> "power" -> lookup n df' = lookup n df.
Proof.
  unfold derive_power. intros H Hn.
  destruct (negb (has_col "power" df) && has_col "voltage" df
            && has_col "current" df).
  - destruct (getitem "voltage" df) as [e | v]; simpl in H; [discriminate |].
    destruct (getitem "current" df) as [e | c]; simpl in H; [discriminate |].
    destruct (mul_columns v c) as [e | p]; simpl in H; [discriminate |].
    injection H as <-. now apply lookup_setitem_ne.
  - now injection H as <-.
Qed.

Lemma mul_columns_ok (a b : column) :
  numeric_view_ok a = true -> numeric_view_ok b = true ->
  exists p, mul_columns a b = inr p /\ numeric_view_ok p = true.
Proof.
  destruct a, b; simpl; try discriminate; eauto.
Qed.

Lemma derive_power_ok (df : table) :
  numeric_or_absent "voltage" df = true ->
  numeric_or_absent "current" df = true ->
  numeric_or_absent "power" df = true ->
  exists df', derive_power df = inr df' /\
              numeric_or_absent "power" df' = true.
Proof.
  unfold numeric_or_absent, derive_power, has_col, getitem.
  intros Hv Hc Hp.
  destruct (lookup "power" df) as [p |] eqn:Ep; simpl; [eauto |].
  - exists df. split; auto. unfold numeric_or_absent. now rewrite Ep.
  - destruct (lookup "voltage" df) as [v |]; simpl.
    2:{ exists df. split; auto. unfold numeric_or_absent. now rewrite Ep. }
    destruct (lookup "current" df) as [c |]; simpl.
    2:{ exists df. split; auto. unfold numeric_or_absent. now rewrite Ep. }
    destruct (mul_columns_ok v c Hv Hc) as [p [-> Hok]]. simpl.
    eexists; split; [reflexivity |].
    unfold numeric_or_absent. now rewrite lookup_setitem_eq.
Qed.

Lemma sort_values_lookup (name n : string) (df df' : table) :
  sort_values name df = inr df' ->
  exists f : forall A, list A -> list A,
    forall m, lookup m df' = option_map (map_rows f) (lookup m df).
Proof.
  unfold sort_values. destruct (getitem name df) as [e | key]; simpl;
    [discriminate |].
  intros H; injection H as <-.
  eexists. intros m. apply lookup_select_rows.
Qed.

(** C9.  A table with a [temperature] column and no [timestamp] column
    makes [calculate_derived_features] raise: the temperature-rate step
    reads [df['timestamp']] without a guard.  When the telemetry columns
    are numeric, the exception is the [KeyError] for ["timestamp"]. *)
Theorem temperature_without_timestamp_raises (qsqrt : Q -> Q) (data : table) :
  has_col "temperature" data = true ->
  has_col "timestamp" data = false ->
  (exists e, calculate_derived_features qsqrt data = inl e) /\
  (numeric_or_absent "temperature" data = true ->
   numeric_or_absent "voltage" data = true ->
   numeric_or_absent "current" data = true ->
   numeric_or_absent "power" data = true ->
   calculate_derived_features qsqrt data = inl (KeyError "timestamp")).
Proof.
  intros Ht Hts.
  assert (Hstep : forall df1,
             derive_power data = inr df1 ->
             (exists e, (let? df := derive_energy df1 in
                         let? df := derive_temperature df in
                         derive_voltage qsqrt df) = inl e) /\
             (numeric_or_absent "temperature" data = true ->
              (let? df := derive_energy df1 in
               let? df := derive_temperature df in
               derive_voltage qsqrt df) = inl (KeyError "timestamp"))).
  { intros df1 E1.
    assert (Ht1 : lookup "temperature" df1 = lookup "temperature" data)
      by (apply (derive_power_frame _ _ _ E1); discriminate).
    assert (Hts1 : lookup "timestamp" df1 = lookup "timestamp" data)
      by (apply (derive_power_frame _ _ _ E1); discriminate).
    unfold derive_energy.
    replace (has_col "timestamp" df1) with false
      by (unfold has_col in *; now rewrite Hts1).
    rewrite andb_false_r. simpl.
    unfold derive_temperature.
    replace (has_col "temperature" df1) with true
      by (unfold has_col in *; now rewrite Ht1).
    unfold has_col in Ht. unfold numeric_or_absent.
    destruct (lookup "temperature" data) as [c |]; [| discriminate].
    rewrite (getitem_lookup _ _ _ Ht1). simpl.
    assert (Hkey : forall d,
               getitem "timestamp" (setitem "temp_delta" (FloatCol d) df1)
               = inl (KeyError "timestamp")).
    { intros d. apply getitem_absent. rewrite has_col_setitem_ne by discriminate.
      unfold has_col in *. now rewrite Hts1. }
    split.
    - destruct (diff_column c) as [e | d]; simpl; [eauto |].
      rewrite getitem_setitem_eq. simpl.
      rewrite Hkey. simpl. eauto.
    - intros Hc. destruct c; try discriminate; simpl;
        rewrite getitem_setitem_eq; simpl; now rewrite Hkey. }
  unfold calculate_derived_features. split.
  - destruct (derive_power data) as [e | df1] eqn:E1; simpl; [eauto |].
    now apply Hstep.
  - intros Hc Hv Hi Hp.
    destruct (derive_power_ok data Hv Hi Hp) as [df1 [E1 _]].
    rewrite E1. simpl. now apply Hstep.
Qed.

Lemma temperature_without_timestamp_raises_witness :
  (exists e, calculate_derived_features sqrt_micro temperature_only = inl e) /\
  (numeric_or_absent "temperature" temperature_only = true ->
   numeric_or_absent "voltage" temperature_only = true ->
   numeric_or_absent "current" temperature_only = true ->
   numeric_or_absent "power" temperature_only = true ->
   calculate_derived_features sqrt_micro temperature_only
   = inl (KeyError "timestamp")).
Proof.
  apply (temperature_without_timestamp_raises sqrt_micro temperature_only);
    reflexivity.
Defined.

Lemma derive_energy_typed (df : table) (T : list float64) (TS : list (option Z)) :
  lookup "temperature" df = Some (FloatCol T) ->
  lookup "timestamp" df = Some (TimeCol TS) ->
  numeric_or_absent "power" df = true ->
  numeric_or_absent "voltage" df = true ->
  exists df' T' TS',
    derive_energy df = inr df' /\
    lookup "temperature" df' = Some (FloatCol T') /\
    lookup "timestamp" df' = Some (TimeCol TS') /\
    numeric_or_absent "voltage" df' = true.
Proof.
  intros HT HTS Hp Hv. unfold derive_energy.
  replace (has_col "timestamp" df) with true
    by (unfold has_col; now rewrite HTS).
  rewrite andb_true_r.
  destruct (has_col "power" df) eqn:Epow.
  2:{ exists df, T, TS. auto. }
  unfold sort_values. rewrite (getitem_lookup _ _ _ HTS). cbn [rbind ok].
  set (f := fun A : Set => @take A (argsort (cells (TimeCol TS)))).
  set (df2 := select_rows f df).
  assert (L : forall m, lookup m df2 = option_map (map_rows f) (lookup m df))
    by (intros m; apply lookup_select_rows).
  assert (HTS2 : lookup "timestamp" df2 = Some (TimeCol (f _ TS)))
    by (rewrite L, HTS; reflexivity).
  assert (HT2 : lookup "temperature" df2 = Some (FloatCol (f _ T)))
    by (rewrite L, HT; reflexivity).
  rewrite (getitem_lookup _ _ _ HTS2). simpl.
  unfold numeric_or_absent, has_col in *.
  destruct (lookup "power" df) as [p |] eqn:Ep; [| discriminate].
  assert (Hp2 : lookup "power" df2 = Some (map_rows f p))
    by (rewrite L, Ep; reflexivity).
  rewrite (getitem_lookup _ _ _ Hp2). simpl.
  destruct (as_float_ok (map_rows f p)) as [ps ->];
    [now rewrite numeric_view_ok_map_rows |].
  simpl. eexists. exists (f _ T), (f _ TS).
  split; [reflexivity |].
  rewrite !lookup_setitem_ne by discriminate.
  repeat split; auto.
  rewrite L. destruct (lookup "voltage" df); simpl; auto.
  now rewrite numeric_view_ok_map_rows.
Qed.

Lemma derive_voltage_ok (qsqrt : Q -> Q) (df : table) :
  numeric_or_absent "voltage" df = true ->
  exists df', derive_voltage qsqrt df = inr df' /\
              forall n, n <> "voltage_rolling_std" -> lookup n df' = lookup n df.
Proof.
  unfold numeric_or_absent, derive_voltage, has_col, getitem.
  destruct (lookup "voltage" df) as [v |]; simpl; [| eauto].
  intros Hv. destruct (as_float_ok v Hv) as [xs ->]. simpl.
  eexists; split; [reflexivity |].
  intros n Hn. now apply lookup_setitem_ne.
Qed.




(** *** clean_data: the clipping loop *)

Lemma clip_outliers_step (df df' : table) (col : string) :
  clip_outliers df col = inr df' ->
  columns df' = columns df /\
  lookup col df' = option_map clip_column (lookup col df) /\
  (forall n, n <> col -> lookup n df' = lookup n df).
Proof.
  unfold clip_outliers, has_col, getitem.
  destruct (lookup col df) as [c |] eqn:E.
  2:{ intros H; injection H as <-. rewrite E. auto. }
  cbn [rbind ok]. destruct c; cbn [float_values rbind ok raise];
    try discriminate.
  unfold iqr_bounds at 1. intros H; injection H as <-.
  split; [eapply columns_setitem_present; eauto |].
  split; [now rewrite lookup_setitem_eq |].
  intros n Hn. now apply lookup_setitem_ne.
Qed.

Lemma clip_outliers_ok (df : table) (col : string) :
  float_or_absent col df = true -> exists df', clip_outliers df col = inr df'.
Proof.
  unfold float_or_absent, clip_outliers, has_col, getitem.
  destruct (lookup col df) as [[] |]; try discriminate; intros _;
    cbn [rbind ok float_values]; unfold iqr_bounds; eauto.
Qed.

Lemma clipping_loop (df out : table) :
  for_each CLIPPED_COLUMNS clip_outliers df = inr out ->
  columns out = columns df /\
  forall n, lookup n out
            = if is_clipped n then option_map clip_column (lookup n df)
              else lookup n df.
Proof.
  unfold CLIPPED_COLUMNS. cbn [for_each].
  destruct (clip_outliers df "voltage") as [e | d1] eqn:E1;
    cbn [rbind]; [discriminate |].
  destruct (clip_outliers d1 "current") as [e | d2] eqn:E2;
    cbn [rbind]; [discriminate |].
  destruct (clip_outliers d2 "temperature") as [e | d3] eqn:E3;
    cbn [rbind]; [discriminate |].
  intros H; injection H as <-.
  destruct (clip_outliers_step _ _ _ E1) as [C1 [V1 O1]].
  destruct (clip_outliers_step _ _ _ E2) as [C2 [V2 O2]].
  destruct (clip_outliers_step _ _ _ E3) as [C3 [V3 O3]].
  split; [congruence |].
  intros n. unfold is_clipped, CLIPPED_COLUMNS. cbn [existsb].
  destruct (String.eqb_spec n "voltage") as [-> | Nv].
  { rewrite O3, O2 by discriminate. exact V1. }
  destruct (String.eqb_spec n "current") as [-> | Nc].
  { rewrite O3 by discriminate. rewrite V2. now rewrite O1 by discriminate. }
  destruct (String.eqb_spec n "temperature") as [-> | Nt].
  { rewrite V3. now rewrite O2, O1 by discriminate. }
  cbn [orb]. now rewrite O3, O2, O1.
Qed.

Lemma clipping_loop_ok (df : table) :
  forallb (fun col => float_or_absent col df) CLIPPED_COLUMNS = true ->
  exists out, for_each CLIPPED_COLUMNS clip_outliers df = inr out.
Proof.
  unfold CLIPPED_COLUMNS. cbn [forallb for_each]. intros H.
  apply andb_true_iff in H. destruct H as [Hv H].
  apply andb_true_iff in H. destruct H as [Hc H].
  apply andb_true_iff in H. destruct H as [Ht _].
  destruct (clip_outliers_ok df "voltage" Hv) as [d1 E1].
  rewrite E1. cbn [rbind].
  destruct (clip_outliers_step _ _ _ E1) as [_ [_ O1]].
  destruct (clip_outliers_ok d1 "current") as [d2 E2].
  { unfold float_or_absent in *. now rewrite O1 by discriminate. }
  rewrite E2. cbn [rbind].
  destruct (clip_outliers_step _ _ _ E2) as [_ [_ O2]].
  destruct (clip_outliers_ok d2 "temperature") as [d3 E3].
  { unfold float_or_absent in *. now rewrite O2, O1 by discriminate. }
  rewrite E3. cbn [rbind]. eauto.
Qed.

Lemma col_len_clip_column (c : column) : col_len (clip_column c) = col_len c.
Proof. destruct c; simpl; auto. apply clip_length. Qed.

(** C2, as stated, fails on a column with two distinct values: eight
    readings of 0 and one of 100 have both quartiles at 0, the fence is
    [0, 0], and the clipping step turns the 100 into 0. *)
Lemma clipping_changes_two_valued_column :
  exists pre out,
    before_clip two_levels = inr pre /\
    clean_data two_levels = inr out /\
    lookup "voltage" pre = Some (FloatCol (repeat (Fin 0) 8 ++ [Fin 100])) /\
    (n_distinct (repeat (Fin 0) 8 ++ [Fin 100]) < 4)%nat /\
    lookup "voltage" out = Some (FloatCol (repeat (Fin 0) 9)) /\
    lookup "voltage" out <> lookup "voltage" pre.
Proof.
  eexists. eexists.
  split; [vm_compute; reflexivity |].
  split; [vm_compute; reflexivity |].
  split; [reflexivity |].
  split; [vm_compute; lia |].
  split; [reflexivity |].
  discriminate.
Qed.

(** C2, amended.  [clean_data] has no skip in its clipping step: every one
    of [voltage], [current], [temperature] that is present is clipped to
    its own fence.  The step never changes the shape of the table (same
    column names in the same order, same column lengths) and leaves every
    other column as it was.  A column that is entirely missing, or whose
    non-missing values are all equal, is returned unchanged; the clipping
    step runs to the end whenever the three columns are float columns or
    absent. *)
Theorem clipping_step_shape_and_constant_columns (data pre : table) :
  before_clip data = inr pre ->
  (forall out, clean_data data = inr out ->
     columns out = columns pre /\
     (forall n, option_map col_len (lookup n out)
                = option_map col_len (lookup n pre)) /\
     (forall n, is_clipped n = false -> lookup n out = lookup n pre) /\
     (forall n xs, is_clipped n = true ->
                   lookup n pre = Some (FloatCol xs) ->
                   lookup n out = Some (clip_column (FloatCol xs))) /\
     (forall n xs v, lookup n pre = Some (FloatCol xs) ->
                     all_equal_to v xs = true ->
                     lookup n out = Some (FloatCol xs))) /\
  (forallb (fun col => float_or_absent col pre) CLIPPED_COLUMNS = true ->
   exists out, clean_data data = inr out).
Proof.
  intros Hpre. unfold clean_data. rewrite Hpre. cbn [rbind].
  split; [| apply clipping_loop_ok].
  intros out Hout. destruct (clipping_loop _ _ Hout) as [Hc Hl].
  split; [exact Hc |].
  split.
  { intros n. rewrite Hl. destruct (is_clipped n); [| reflexivity].
    destruct (lookup n pre); simpl; [| reflexivity].
    now rewrite col_len_clip_column. }
  split; [intros n Hn; now rewrite Hl, Hn |].
  split; [intros n xs Hn Hx; now rewrite Hl, Hn, Hx |].
  intros n xs v Hx Hv. rewrite Hl, Hx.
  destruct (is_clipped n); [| reflexivity].
  cbn [option_map clip_column]. now rewrite (clip_constant v xs Hv).
Qed.

Lemma clipping_step_shape_and_constant_columns_witness :
  exists pre,
    before_clip shuffled = inr pre /\
    (forall out, clean_data shuffled = inr out ->
       columns out = columns pre /\
       (forall n, option_map col_len (lookup n out)
                  = option_map col_len (lookup n pre)) /\
       (forall n, is_clipped n = false -> lookup n out = lookup n pre) /\
       (forall n xs, is_clipped n = true ->
                     lookup n pre = Some (FloatCol xs) ->
                     lookup n out = Some (clip_column (FloatCol xs))) /\
       (forall n xs v, lookup n pre = Some (FloatCol xs) ->
                       all_equal_to v xs = true ->
                       lookup n out = Some (FloatCol xs))) /\
    (forallb (fun col => float_or_absent col pre) CLIPPED_COLUMNS = true ->
     exists out, clean_data shuffled = inr out).
Proof.
  eexists. split; [vm_compute; reflexivity |].
  apply (clipping_step_shape_and_constant_columns shuffled).
  vm_compute. reflexivity.
Defined.

(** C3, as stated, fails when rows are dropped before the quartiles are
    taken.  Eight of the nine input rows share a time stamp; the nine
    original voltages (eight at 0, one at 100, so the variance is not 0)
    have both quartiles at 0 and the fence [0, 0].  The cleaner keeps two
    rows, takes the quartiles of [0, 100] and returns the 100 untouched. *)
Lemma voltage_outside_fence_of_original_values :
  exists out original v,
    lookup "voltage" repeated_stamp = Some (FloatCol original) /\
    var original = Fin v /\ 0 < v /\
    iqr_bounds original = (Fin 0, Fin 0) /\
    clean_data repeated_stamp = inr out /\
    lookup "voltage" out = Some (FloatCol [Fin 0; Fin 100]) /\
    fleb (Fin 100) (Fin 0) = false.
Proof.
  eexists. eexists. eexists.
  split; [reflexivity |].
  split; [vm_compute; reflexivity |].
  split; [reflexivity |].
  split; [vm_compute; reflexivity |].
  split; [vm_compute; reflexivity |].
  split; reflexivity.
Qed.

(** C3, amended.  Every voltage value in the table returned by
    [clean_data] is missing or lies inside [Q1 - 3 IQR, Q3 + 3 IQR], where
    the quartiles are those of the voltage column as it stands when the
    clipping step starts, that is after de-duplication, sorting and
    filling (not those of the original values); this for a voltage column
    of numbers.  A column with no non-missing value stays as it is, and a
    column without missing values comes out without any. *)
Theorem voltage_within_fence_of_filled_values
    (data pre out : table) (xs : list float64) :
  before_clip data = inr pre ->
  clean_data data = inr out ->
  lookup "voltage" pre = Some (FloatCol xs) ->
  forallb finite_or_nan xs = true ->
  exists ys,
    lookup "voltage" out = Some (FloatCol ys) /\
    length ys = length xs /\
    (existsb notna xs = false -> ys = xs) /\
    (existsb notna xs = true ->
     exists l h,
       iqr_bounds xs = (Fin l, Fin h) /\ l <= h /\
       (forall y, In y ys ->
                  y = NaN \/ exists q, y = Fin q /\ l <= q /\ q <= h) /\
       (forallb notna xs = true ->
        forall y, In y ys -> exists q, y = Fin q /\ l <= q /\ q <= h)).
Proof.
  intros Hpre Hout Hx Hfin.
  unfold clean_data in Hout. rewrite Hpre in Hout. cbn [rbind] in Hout.
  destruct (clipping_loop _ _ Hout) as [_ Hl].
  specialize (Hl "voltage"). rewrite Hx in Hl.
  change (is_clipped "voltage") with true in Hl.
  cbn [option_map clip_column] in Hl.
  eexists. split; [exact Hl |].
  split; [apply clip_length |].
  split.
  - intros Hnone. apply (clip_constant 0).
    unfold all_equal_to. apply forallb_forall. intros x Hin.
    destruct x; auto; exfalso;
      (assert (existsb notna xs = true)
        by (apply existsb_exists; eexists; split; [exact Hin | reflexivity]));
      congruence.
  - intros Hsome.
    destruct (iqr_bounds_finite xs Hfin Hsome) as [l [h [Eb Hlh]]].
    exists l, h. split; [exact Eb |]. split; [exact Hlh |].
    rewrite Eb. cbn [fst snd].
    assert (Hin : forall y, In y (clip (Fin l) (Fin h) xs) ->
                    y = NaN \/ exists q, y = Fin q /\ l <= q /\ q <= h).
    { intros y Hy. destruct (clip_within l h xs y Hlh Hy) as [-> | [H1 H2]];
        [now left |].
      destruct y as [| s | q]; [now left | |].
      - destruct s; simpl in *; discriminate.
      - right. exists q. apply fleb_Fin in H1, H2. auto. }
    split; [exact Hin |].
    intros Hno y Hy. destruct (Hin y Hy) as [-> | H]; [| exact H].
    exfalso.
    assert (Hall : Forall (fun x => notna x = true) (clip (Fin l) (Fin h) xs)).
    { apply clip_notna. apply Forall_forall.
      now apply forallb_forall. }
    rewrite Forall_forall in Hall. specialize (Hall NaN Hy). discriminate.
Qed.

Lemma voltage_within_fence_of_filled_values_witness :
  exists pre out xs ys,
    before_clip shuffled = inr pre /\
    clean_data shuffled = inr out /\
    lookup "voltage" pre = Some (FloatCol xs) /\
    forallb finite_or_nan xs = true /\
    lookup "voltage" out = Some (FloatCol ys) /\
    length ys = length xs /\
    (existsb notna xs = false -> ys = xs) /\
    (existsb notna xs = true ->
     exists l h,
       iqr_bounds xs = (Fin l, Fin h) /\ l <= h /\
       (forall y, In y ys ->
                  y = NaN \/ exists q, y = Fin q /\ l <= q /\ q <= h) /\
       (forallb notna xs = true ->
        forall y, In y ys -> exists q, y = Fin q /\ l <= q /\ q <= h)).
Proof.
  assert (Hpre : before_clip shuffled = inr shuffled_clean)
    by (vm_compute; reflexivity).
  assert (Hout : clean_data shuffled = inr shuffled_clean)
    by (vm_compute; reflexivity).
  destruct (voltage_within_fence_of_filled_values shuffled shuffled_clean
              shuffled_clean [Fin 48; Fin 48; Fin 50] Hpre Hout
              eq_refl eq_refl) as [ys [H1 H2]].
  exists shuffled_clean, shuffled_clean, [Fin 48; Fin 48; Fin 50], ys.
  split; [exact Hpre |].
  split; [exact Hout |].
  split; [reflexivity |].
  split; [reflexivity |].
  split; [exact H1 | exact H2].
Defined.

(** *** clean_data: the frame before clipping *)

Lemma lookup_fill_numeric (n : string) (df : table) :
  lookup n (fill_numeric df) = option_map fill_column (lookup n df).
Proof.
  unfold fill_numeric. induction df as [| [m c] df IH]; simpl; auto.
  destruct (String.eqb n m); auto.
Qed.

Lemma columns_select_rows (f : forall A : Set, list A -> list A) (df : table) :
  columns (select_rows f df) = columns df.
Proof. unfold columns, select_rows. rewrite map_map. now apply map_ext. Qed.

Lemma columns_fill_numeric (df : table) : columns (fill_numeric df) = columns df.
Proof. unfold columns, fill_numeric. rewrite map_map. now apply map_ext. Qed.

Lemma before_clip_eq (data : table) (ts : column) :
  lookup "timestamp" data = Some ts ->
  let keep := map negb (duplicated (cells ts)) in
  let dd := select_rows (fun A : Set => @mask_filter A keep) data in
  let idx := argsort (cells (map_rows (fun A : Set => @mask_filter A keep) ts)) in
  drop_duplicates "timestamp" data = inr dd /\
  before_clip data
  = inr (fill_numeric (select_rows (fun A : Set => @take A idx) dd)).
Proof.
  intros Hts keep dd idx. unfold before_clip, drop_duplicates.
  rewrite (getitem_lookup _ _ _ Hts). cbn [rbind ok]. fold keep. fold dd.
  split; [reflexivity |].
  assert (Hdd : lookup "timestamp" dd
                = Some (map_rows (fun A : Set => @mask_filter A keep) ts))
    by (unfold dd; rewrite lookup_select_rows, Hts; reflexivity).
  replace (has_col "timestamp" dd) with true
    by (unfold has_col; now rewrite Hdd).
  unfold sort_values. rewrite (getitem_lookup _ _ _ Hdd). reflexivity.
Qed.

Lemma lookup_In (n : string) (c : column) (df : table) :
  lookup n df = Some c -> In (n, c) df.
Proof.
  induction df as [| [m c0] df IH]; simpl; [discriminate |].
  destruct (String.eqb_spec n m) as [-> | Hne].
  - intros H; injection H as <-. now left.
  - intros H. right. now apply IH.
Qed.

Lemma wf_col_len (df : table) (n : string) (c : column) :
  wf_table df = true -> lookup n df = Some c -> col_len c = nrows df.
Proof.
  unfold wf_table. intros H Hl. apply andb_true_iff in H. destruct H as [_ H].
  rewrite forallb_forall in H. specialize (H _ (lookup_In _ _ _ Hl)).
  now apply Nat.eqb_eq in H.
Qed.

Lemma col_len_mask (keep : list bool) (c : column) :
  col_len (map_rows (fun A : Set => @mask_filter A keep) c)
  = length (mask_filter keep (cells c)).
Proof. now rewrite col_len_cells, cells_map_rows by (intros; apply mask_filter_map). Qed.

Lemma col_len_take (idx : list nat) (c : column) :
  col_len (map_rows (fun A : Set => @take A idx) c)
  = length (take idx (cells c)).
Proof. now rewrite col_len_cells, cells_map_rows by (intros; apply take_map). Qed.

Lemma col_len_fill (c : column) : col_len (fill_column c) = col_len c.
Proof. destruct c; simpl; auto. apply fill_length. Qed.

Lemma argsort_in_range (ks : list cell) :
  Forall (fun i => (i < length ks)%nat) (argsort ks).
Proof.
  rewrite Forall_forall. intros i Hi.
  apply (Permutation_in _ (argsort_perm ks)) in Hi.
  apply in_seq in Hi. lia.
Qed.

Lemma argsort_length (ks : list cell) : length (argsort ks) = length ks.
Proof.
  rewrite (Permutation_length (argsort_perm ks)). apply length_seq.
Qed.

Lemma nrows_first (df : table) (n : string) (rest : list string) :
  columns df = n :: rest ->
  exists c, lookup n df = Some c /\ nrows df = col_len c.
Proof.
  destruct df as [| [m c] df]; simpl; [discriminate |].
  intros H; injection H as -> _. exists c. now rewrite String.eqb_refl.
Qed.

Lemma fill_column_free (c : column) :
  fill_free c = true -> fill_column c = c.
Proof.
  unfold fill_free. destruct c; simpl; auto.
  intros H. f_equal. apply fill_id. apply Forall_forall.
  now apply forallb_forall.
Qed.

Lemma fill_free_rows (f : forall A : Set, list A -> list A) (c : column) :
  (forall (A : Set) (xs : list A) x, In x (f A xs) -> In x xs) ->
  fill_free c = true -> fill_free (map_rows f c) = true.
Proof.
  intros Hf. unfold fill_free. destruct c; simpl; auto.
  rewrite !forallb_forall. intros H x Hx. apply H. eapply Hf; eauto.
Qed.

(** *** clean_data: rows, order and gaps *)

(** C1, as stated, fails when the only reading of a column sits in a row
    that de-duplication drops: the voltage column of the input has the
    non-missing value 5, the first row with that time stamp is kept, and
    the output column is missing throughout. *)
Lemma dropped_row_leaves_column_missing :
  exists out xs,
    lookup "voltage" hidden_reading = Some (FloatCol xs) /\
    existsb notna xs = true /\
    clean_data hidden_reading = inr out /\
    lookup "voltage" out = Some (FloatCol [NaN]) /\
    forallb notna [NaN] = false.
Proof.
  eexists. eexists.
  split; [reflexivity |]. split; [reflexivity |].
  split; [vm_compute; reflexivity |].
  split; reflexivity.
Qed.

(** C1, amended.  On a well-formed table with a [timestamp] column (not a
    float column with missing values, which the filling step would
    rewrite) whose [voltage], [current] and [temperature] columns are
    float columns or absent, [clean_data] returns a table with the same
    columns and at most as many rows as the input; its time stamps are
    strictly increasing in the order of the sort, missing last, so no two
    are equal; and every numeric column that has a non-missing value in a
    row kept by the de-duplication has no missing value in the output. *)
Theorem clean_data_rows_order_gaps (data : table) (ts : column) :
  wf_table data = true ->
  lookup "timestamp" data = Some ts ->
  fill_free ts = true ->
  forallb (fun col => float_or_absent col data) CLIPPED_COLUMNS = true ->
  exists dd out ts',
    drop_duplicates "timestamp" data = inr dd /\
    clean_data data = inr out /\
    columns out = columns data /\
    (nrows out <= nrows data)%nat /\
    (forall n c, lookup n out = Some c -> col_len c = nrows out) /\
    lookup "timestamp" out = Some ts' /\
    strictly_increasing ts' /\
    (forall n xs,
        lookup n dd = Some (FloatCol xs) -> existsb notna xs = true ->
        exists ys, lookup n out = Some (FloatCol ys) /\
                   forallb notna ys = true).
Proof.
  intros Hwf Hts Hfree Hfloat.
  destruct (before_clip_eq data ts Hts) as [Hdd Hpre].
  set (keep := map negb (duplicated (cells ts))) in *.
  set (fmask := fun A : Set => @mask_filter A keep) in *.
  set (dd := select_rows fmask data) in *.
  set (ks := cells (map_rows fmask ts)) in *.
  set (idx := argsort ks) in *.
  set (ftake := fun A : Set => @take A idx) in *.
  set (pre := fill_numeric (select_rows ftake dd)) in *.
  assert (Lpre : forall n,
             lookup n pre
             = option_map (fun c => fill_column (map_rows ftake (map_rows fmask c)))
                 (lookup n data)).
  { intros n. unfold pre, dd.
    rewrite lookup_fill_numeric, !lookup_select_rows.
    now destruct (lookup n data). }
  assert (Hks : ks = mask_filter keep (cells ts))
    by (unfold ks, fmask; apply cells_map_rows; intros; apply mask_filter_map).
  (* every column of [pre] has [length ks] cells *)
  assert (Hlen : forall n c, lookup n data = Some c ->
                   col_len (fill_column (map_rows ftake (map_rows fmask c)))
                   = length ks).
  { intros n c Hc. rewrite col_len_fill. unfold ftake.
    rewrite col_len_take, take_length.
    - apply argsort_length.
    - assert (E : length (cells (map_rows fmask c)) = length ks).
      { rewrite <- col_len_cells. unfold fmask. rewrite col_len_mask, Hks.
        apply mask_filter_length_eq.
        rewrite <- !col_len_cells.
        now rewrite (wf_col_len _ _ _ Hwf Hc), (wf_col_len _ _ _ Hwf Hts). }
      rewrite E. apply argsort_in_range. }
  assert (Hfloat' : forallb (fun col => float_or_absent col pre) CLIPPED_COLUMNS
                    = true).
  { rewrite forallb_forall in *. intros col Hcol. specialize (Hfloat col Hcol).
    unfold float_or_absent in *. rewrite Lpre.
    destruct (lookup col data) as [[] |]; simpl in *; auto. }
  destruct (clipping_loop_ok pre Hfloat') as [out Hout].
  destruct (clipping_loop _ _ Hout) as [Hcols Lout].
  assert (Hclean : clean_data data = inr out)
    by (unfold clean_data; rewrite Hpre; exact Hout).
  assert (Hcols' : columns out = columns data).
  { rewrite Hcols. unfold pre, dd.
    now rewrite columns_fill_numeric, !columns_select_rows. }
  assert (Hlen_out : forall n c, lookup n out = Some c -> col_len c = length ks).
  { intros n c Hc. rewrite Lout, Lpre in Hc.
    destruct (lookup n data) as [c0 |] eqn:E0;
      [| destruct (is_clipped n); discriminate].
    destruct (is_clipped n); simpl in Hc; injection Hc as <-;
      [rewrite col_len_clip_column |]; eapply Hlen; eauto. }
  assert (Hrows : nrows out = length ks /\ (length ks <= nrows data)%nat).
  { destruct (columns data) as [| n0 rest] eqn:Ec.
    { destruct data; [discriminate | discriminate]. }
    destruct (nrows_first out n0 rest) as [c [Hc Hn]]; [congruence |].
    split; [rewrite Hn; eapply Hlen_out; eauto |].
    rewrite Hks, <- (wf_col_len _ _ _ Hwf Hts), col_len_cells.
    apply mask_filter_length_le. }
  destruct Hrows as [Hrows Hle].
  exists dd, out, (map_rows ftake (map_rows fmask ts)).
  split; [exact Hdd |]. split; [exact Hclean |]. split; [exact Hcols' |].
  split; [lia |].
  split; [intros n c Hc; rewrite Hrows; eapply Hlen_out; eauto |].
  split.
  { rewrite Lout. change (is_clipped "timestamp") with false.
    rewrite Lpre, Hts. cbn [option_map]. f_equal.
    apply fill_column_free.
    apply fill_free_rows; [intros; eapply take_In; eauto |].
    apply fill_free_rows; [intros; eapply mask_filter_In; eauto |].
    exact Hfree. }
  split.
  { unfold strictly_increasing, ftake.
    rewrite cells_map_rows by (intros; apply take_map).
    fold ks. fold idx. unfold idx.
    apply strictly_sorted; [apply take_argsort_sorted |].
    apply (distinct_keys_perm ks);
      [symmetry; apply take_argsort_perm |].
    rewrite Hks. apply (duplicated_distinct (cells ts) []). }
  intros n xs Hn Hex.
  unfold dd in Hn. rewrite lookup_select_rows in Hn.
  destruct (lookup n data) as [c0 |] eqn:E0; [| discriminate].
  cbn [option_map] in Hn. injection Hn as Hn.
  assert (Hxs : length xs = length ks).
  { change (length xs) with (col_len (FloatCol xs)). rewrite <- Hn.
    unfold fmask. rewrite col_len_mask, Hks.
    apply mask_filter_length_eq. rewrite <- !col_len_cells.
    now rewrite (wf_col_len _ _ _ Hwf E0), (wf_col_len _ _ _ Hwf Hts). }
  (* the sort keeps the non-missing value *)
  assert (Hex' : existsb notna (take idx xs) = true).
  { apply existsb_exists in Hex. destruct Hex as [x [Hin Hx]].
    apply existsb_exists. exists x. split; [| exact Hx].
    destruct (In_nth_error _ _ Hin) as [i Hi].
    apply (In_take idx xs x i Hi).
    apply (Permutation_in _ (Permutation_sym (argsort_perm ks))).
    apply in_seq. split; [lia |]. simpl. rewrite <- Hxs.
    apply nth_error_Some. congruence. }
  pose proof (fill_notna _ Hex') as Hfilled.
  rewrite Lout, Lpre, E0. cbn [option_map]. rewrite Hn.
  cbn [map_rows fill_column]. unfold ftake.
  destruct (is_clipped n); cbn [option_map clip_column];
    eexists; (split; [reflexivity |]);
    apply forallb_forall; apply Forall_forall; auto.
  now apply clip_notna.
Qed.

Lemma clean_data_rows_order_gaps_witness :
  exists dd out ts',
    drop_duplicates "timestamp" shuffled = inr dd /\
    clean_data shuffled = inr out /\
    columns out = columns shuffled /\
    (nrows out <= nrows shuffled)%nat /\
    (forall n c, lookup n out = Some c -> col_len c = nrows out) /\
    lookup "timestamp" out = Some ts' /\
    strictly_increasing ts' /\
    (forall n xs,
        lookup n dd = Some (FloatCol xs) -> existsb notna xs = true ->
        exists ys, lookup n out = Some (FloatCol ys) /\
                   forallb notna ys = true).
Proof.
  apply (clean_data_rows_order_gaps shuffled
           (TimeCol [Some 3%Z; Some 1%Z; Some 1%Z; Some 2%Z]));
    reflexivity.
Defined.

(** *** clean_data without time stamps *)

Lemma clip_outliers_error (df : table) (col : string) (e : error) :
  clip_outliers df col = inl e -> e = TypeError.
Proof.
  unfold clip_outliers. destruct (has_col col df) eqn:Hc; [| discriminate].
  destruct (getitem_has_col _ _ Hc) as [c [_ ->]]. cbn [rbind].
  destruct c; cbn [float_values rbind raise ok]; try congruence.
  destruct (iqr_bounds xs). discriminate.
Qed.

Lemma for_each_error {A S} (body : S -> A -> result S) (P : error -> Prop)
    (l : list A) :
  (forall s x e, body s x = inl e -> P e) ->
  forall s e, for_each l body s = inl e -> P e.
Proof.
  intros Hb. induction l as [| x l IH]; intros s e H; cbn [for_each] in H.
  - discriminate.
  - destruct (body s x) as [e' | s'] eqn:E; cbn [rbind] in H.
    + injection H as <-. eauto.
    + eauto.
Qed.

(** [clean_data] needs the [timestamp] column: without it the call raises
    [KeyError] for ["timestamp"], and that is the only way to get this
    exception; the de-duplication, when it returns, returns a frame that
    has the column, so the test [if 'timestamp' in df.columns] before the
    sort never fails.  Whatever else [clean_data] raises is a
    [TypeError]. *)
Theorem clean_data_requires_timestamp (data : table) :
  (has_col "timestamp" data = false <->
   clean_data data = raise (KeyError "timestamp")) /\
  (forall dd, drop_duplicates "timestamp" data = inr dd ->
              has_col "timestamp" dd = true) /\
  (forall e, clean_data data = inl e ->
             e = KeyError "timestamp" \/ e = TypeError).
Proof.
  destruct (has_col "timestamp" data) eqn:Hts.
  - destruct (getitem_has_col _ _ Hts) as [ts [Hl Hg]].
    destruct (before_clip_eq data ts Hl) as [Hdd Hpre].
    assert (Herr : forall e, clean_data data = inl e -> e = TypeError).
    { intros e. unfold clean_data. rewrite Hpre. cbn [rbind].
      apply (for_each_error clip_outliers (fun e => e = TypeError)).
      intros s x e'. apply clip_outliers_error. }
    split; [| split].
    + split; [discriminate |]. intros H. apply Herr in H. discriminate.
    + intros dd H. rewrite Hdd in H. injection H as <-.
      unfold has_col. rewrite lookup_select_rows, Hl. reflexivity.
    + intros e H. right. now apply Herr.
  - assert (E : clean_data data = raise (KeyError "timestamp")).
    { unfold clean_data, before_clip, drop_duplicates.
      now rewrite (getitem_absent _ _ Hts). }
    split; [| split].
    + split; auto.
    + intros dd. unfold drop_duplicates. rewrite (getitem_absent _ _ Hts).
      discriminate.
    + intros e H. left. rewrite E in H. now injection H.
Qed.

(** *** validate_data after clean_data *)

(** What the cleaner leaves behind, as far as later checks need it: one
    time stamp per row, no two equal, and columns of the types they had.
    (The hypotheses are those of [clean_data]'s own contract.) *)
Lemma clean_data_keys (data : table) (ts : column) :
  wf_table data = true ->
  lookup "timestamp" data = Some ts ->
  fill_free ts = true ->
  forallb (fun col => float_or_absent col data) CLIPPED_COLUMNS = true ->
  exists out ts',
    clean_data data = inr out /\
    lookup "timestamp" out = Some ts' /\
    distinct_keys (cells ts') /\
    nrows out = length (cells ts') /\
    columns out = columns data /\
    (forall n, option_map is_numeric (lookup n out)
               = option_map is_numeric (lookup n data)) /\
    (forall n, option_map kind (lookup n out)
               = option_map kind (lookup n data)) /\
    (nrows out <= nrows data)%nat /\
    (forall n c, lookup n out = Some c -> col_len c = nrows out).
Proof.
  intros Hwf Hts Hfree Hfloat.
  destruct (before_clip_eq data ts Hts) as [Hdd Hpre].
  set (keep := map negb (duplicated (cells ts))) in *.
  set (fmask := fun A : Set => @mask_filter A keep) in *.
  set (dd := select_rows fmask data) in *.
  set (ks := cells (map_rows fmask ts)) in *.
  set (idx := argsort ks) in *.
  set (ftake := fun A : Set => @take A idx) in *.
  set (pre := fill_numeric (select_rows ftake dd)) in *.
  assert (Lpre : forall n,
             lookup n pre
             = option_map (fun c => fill_column (map_rows ftake (map_rows fmask c)))
                 (lookup n data)).
  { intros n. unfold pre, dd.
    rewrite lookup_fill_numeric, !lookup_select_rows.
    now destruct (lookup n data). }
  assert (Hks : ks = mask_filter keep (cells ts))
    by (unfold ks, fmask; apply cells_map_rows; intros; apply mask_filter_map).
  assert (Hlen : forall n c, lookup n data = Some c ->
                   col_len (fill_column (map_rows ftake (map_rows fmask c)))
                   = length ks).
  { intros n c Hc. rewrite col_len_fill. unfold ftake.
    rewrite col_len_take, take_length.
    - apply argsort_length.
    - assert (E : length (cells (map_rows fmask c)) = length ks).
      { rewrite <- col_len_cells. unfold fmask. rewrite col_len_mask, Hks.
        apply mask_filter_length_eq.
        rewrite <- !col_len_cells.
        now rewrite (wf_col_len _ _ _ Hwf Hc), (wf_col_len _ _ _ Hwf Hts). }
      rewrite E. apply argsort_in_range. }
  assert (Hfloat' : forallb (fun col => float_or_absent col pre) CLIPPED_COLUMNS
                    = true).
  { rewrite forallb_forall in *. intros col Hcol. specialize (Hfloat col Hcol).
    unfold float_or_absent in *. rewrite Lpre.
    destruct (lookup col data) as [[] |]; simpl in *; auto. }
  destruct (clipping_loop_ok pre Hfloat') as [out Hout].
  destruct (clipping_loop _ _ Hout) as [Hcols Lout].
  assert (Hclean : clean_data data = inr out)
    by (unfold clean_data; rewrite Hpre; exact Hout).
  assert (Hcols' : columns out = columns data).
  { rewrite Hcols. unfold pre, dd.
    now rewrite columns_fill_numeric, !columns_select_rows. }
  assert (Hlen_out : forall n c, lookup n out = Some c -> col_len c = length ks).
  { intros n c Hc. rewrite Lout, Lpre in Hc.
    destruct (lookup n data) as [c0 |] eqn:E0;
      [| destruct (is_clipped n); discriminate].
    destruct (is_clipped n); simpl in Hc; injection Hc as <-;
      [rewrite col_len_clip_column |]; eapply Hlen; eauto. }
  assert (Hrows : nrows out = length ks).
  { destruct (columns data) as [| n0 rest] eqn:Ec.
    { destruct data; [discriminate | discriminate]. }
    destruct (nrows_first out n0 rest) as [c [Hc Hn]]; [congruence |].
    rewrite Hn. eapply Hlen_out; eauto. }
  assert (Hts' : lookup "timestamp" out
                 = Some (map_rows ftake (map_rows fmask ts))).
  { rewrite Lout. change (is_clipped "timestamp") with false.
    rewrite Lpre, Hts. cbn [option_map]. f_equal.
    apply fill_column_free.
    apply fill_free_rows; [intros; eapply take_In; eauto |].
    apply fill_free_rows; [intros; eapply mask_filter_In; eauto |].
    exact Hfree. }
  assert (Hcells : cells (map_rows ftake (map_rows fmask ts)) = take idx ks).
  { unfold ftake. rewrite cells_map_rows by (intros; apply take_map).
    reflexivity. }
  exists out, (map_rows ftake (map_rows fmask ts)).
  split; [exact Hclean |]. split; [exact Hts' |].
  split.
  { rewrite Hcells. unfold idx.
    apply (distinct_keys_perm ks); [symmetry; apply take_argsort_perm |].
    rewrite Hks. apply (duplicated_distinct (cells ts) []). }
  split.
  { rewrite Hrows, Hcells. unfold idx.
    rewrite take_length by apply argsort_in_range.
    symmetry. apply argsort_length. }
  split; [exact Hcols' |].
  split.
  { intros n. rewrite Lout, Lpre.
    destruct (lookup n data) as [[] |]; destruct (is_clipped n); reflexivity. }
  split.
  { intros n. rewrite Lout, Lpre.
    destruct (lookup n data) as [[] |]; destruct (is_clipped n); reflexivity. }
  split.
  { rewrite Hrows, Hks, <- (wf_col_len _ _ _ Hwf Hts), col_len_cells.
    apply mask_filter_length_le. }
  intros n c Hc. rewrite Hrows. eapply Hlen_out; eauto.
Qed.

Lemma row_eqb_at (df : table) (n : string) (c : column) (i j : nat) :
  lookup n df = Some c ->
  row_eqb (row df i) (row df j) = true ->
  cell_eqb (nth i (cells c) CNa) (nth j (cells c) CNa) = true.
Proof.
  unfold row. induction df as [| [m c0] df IH]; cbn [lookup map row_eqb fst snd];
    [discriminate |].
  intros Hl H. apply andb_true_iff in H. destruct H as [Hhd Htl].
  destruct (String.eqb n m).
  - injection Hl as <-. exact Hhd.
  - now apply IH.
Qed.

Lemma distinct_keys_nth (l : list cell) (i j : nat) :
  distinct_keys l -> (i < j < length l)%nat ->
  cell_eqb (nth i l CNa) (nth j l CNa) = false.
Proof.
  revert i j. induction l as [| x l IH]; intros i j Hd Hij;
    cbn [length] in Hij; [lia |].
  destruct Hd as [Hx Hd]. destruct j as [| j]; [lia |].
  destruct i as [| i]; cbn [nth].
  - apply Hx. apply nth_In. lia.
  - apply IH; [exact Hd | lia].
Qed.

Lemma rows_duplicated_from_false (rows : list (list cell)) :
  forall seen,
    (forall r s, In r rows -> In s seen -> row_eqb r s = false) ->
    ForallOrdPairs (fun a b => row_eqb b a = false) rows ->
    existsb (fun b => b) (rows_duplicated_from seen rows) = false.
Proof.
  induction rows as [| r rows IH]; intros seen Hseen Hpairs; [reflexivity |].
  cbn [rows_duplicated_from existsb].
  inversion Hpairs as [| a l Hhd Htl]; subst.
  replace (existsb (row_eqb r) seen) with false.
  - cbn [orb]. apply IH; [| exact Htl].
    intros r' s Hr' [<- | Hs].
    + rewrite Forall_forall in Hhd. now apply Hhd.
    + apply Hseen; [now right | exact Hs].
  - symmetry. apply not_true_iff_false. intros H.
    apply existsb_exists in H. destruct H as [s [Hs H]].
    rewrite Hseen in H; [discriminate | now left | exact Hs].
Qed.

Lemma ordered_pairs_map_seq {B} (R : B -> B -> Prop) (f : nat -> B) (n : nat) :
  forall s,
    (forall i j, (s <= i < j)%nat -> (j < s + n)%nat -> R (f i) (f j)) ->
    ForallOrdPairs R (map f (seq s n)).
Proof.
  induction n as [| n IH]; intros s H; cbn [seq map]; constructor.
  - apply Forall_forall. intros y Hy. apply in_map_iff in Hy.
    destruct Hy as [j [<- Hj]]. apply in_seq in Hj. apply H; lia.
  - apply IH. intros i j Hij Hj. apply H; lia.
Qed.

Lemma rows_not_duplicated (df : table) (ts : column) :
  lookup "timestamp" df = Some ts ->
  distinct_keys (cells ts) ->
  nrows df = length (cells ts) ->
  existsb (fun b => b) (rows_duplicated df) = false.
Proof.
  intros Hl Hd Hn. unfold rows_duplicated.
  apply rows_duplicated_from_false; [intros r s _ [] |].
  apply ordered_pairs_map_seq. intros i j Hij Hj.
  apply not_true_iff_false. intros H.
  apply (row_eqb_at df "timestamp" ts j i Hl) in H.
  rewrite cell_eqb_sym in H.
  rewrite distinct_keys_nth in H; [discriminate | exact Hd | lia].
Qed.

(** Cleaning removes what the validator calls duplicates.  On a
    well-formed frame with a [timestamp] column (free of gaps a fill
    would rewrite) and float or absent [voltage], [current] and
    [temperature], [clean_data] returns a frame on which
    [validate_data] returns a report with [has_duplicates = False], also
    when the report on the input says [True]; the required-columns
    finding is the same before and after. *)
Theorem cleaned_data_validates_without_duplicates (data : table) (ts : column) :
  wf_table data = true ->
  lookup "timestamp" data = Some ts ->
  fill_free ts = true ->
  forallb (fun col => float_or_absent col data) CLIPPED_COLUMNS = true ->
  exists out before after,
    clean_data data = inr out /\
    validate_data data = inr before /\
    validate_data out = inr after /\
    has_duplicates after = false /\
    has_required_columns after = has_required_columns before.
Proof.
  intros Hwf Hts Hfree Hfloat.
  destruct (clean_data_keys data ts Hwf Hts Hfree Hfloat)
    as [out [ts' [Hclean [Hts' [Hd [Hn [Hcols [Hty _]]]]]]]].
  assert (Hvalid : forall df,
             (forall n, option_map is_numeric (lookup n df)
                        = option_map is_numeric (lookup n data)) ->
             exists r, validate_data df = inr r /\
                       has_duplicates r
                       = existsb (fun b => b) (rows_duplicated df) /\
                       has_required_columns r
                       = forallb (fun c => has_col c data) REQUIRED_COLUMNS).
  { intros df Hdf.
    assert (Hv : float_or_absent "voltage" data = true)
      by (rewrite forallb_forall in Hfloat; apply Hfloat; simpl; auto).
    assert (Ht : float_or_absent "temperature" data = true)
      by (rewrite forallb_forall in Hfloat; apply Hfloat; simpl; auto).
    assert (Hhas : forall n, has_col n df = has_col n data).
    { intros n. unfold has_col. specialize (Hdf n).
      destruct (lookup n df), (lookup n data); simpl in Hdf;
        congruence. }
    unfold float_or_absent in Hv, Ht. unfold validate_data.
    pose proof (Hdf "voltage") as Hdv. pose proof (Hdf "temperature") as Hdt.
    destruct (lookup "voltage" data) as [cv |];
      destruct (lookup "voltage" df) as [[] |]; simpl in Hdv;
      try discriminate; try (rewrite Hv in Hdv; discriminate);
      destruct (lookup "temperature" data) as [ct |];
      destruct (lookup "temperature" df) as [[] |]; simpl in Hdt;
      try discriminate; try (rewrite Ht in Hdt; discriminate);
      cbn [as_float rbind ok];
      eexists; (split; [reflexivity |]); cbn [has_duplicates has_required_columns];
      (split; [reflexivity |]);
      cbn [forallb REQUIRED_COLUMNS]; now rewrite !Hhas. }
  destruct (Hvalid data (fun n => eq_refl)) as [before [Eb [_ Hb]]].
  destruct (Hvalid out Hty) as [after [Ea [Ha Hr]]].
  exists out, before, after.
  split; [exact Hclean |]. split; [exact Eb |]. split; [exact Ea |].
  split.
  - rewrite Ha. now apply (rows_not_duplicated out ts').
  - now rewrite Hr, Hb.
Qed.

Lemma cleaned_data_validates_without_duplicates_witness :
  exists out before after,
    clean_data shuffled = inr out /\
    validate_data shuffled = inr before /\
    validate_data out = inr after /\
    has_duplicates after = false /\
    has_required_columns after = has_required_columns before.
Proof.
  apply (cleaned_data_validates_without_duplicates shuffled
           (TimeCol [Some 3%Z; Some 1%Z; Some 1%Z; Some 2%Z]));
    reflexivity.
Defined.

(** *** The derived columns of a telemetry frame *)

(** The frame [calculate_derived_features] builds from the four required
    columns when there is no [power] column yet: the rows are put in the
    order of the time stamps and the derived columns follow. *)
Lemma derived_features_explicit (qsqrt : Q -> Q) (data : table)
    (TS : list (option Z)) (V C T : list float64) :
  lookup "timestamp" data = Some (TimeCol TS) ->
  lookup "voltage" data = Some (FloatCol V) ->
  lookup "current" data = Some (FloatCol C) ->
  lookup "temperature" data = Some (FloatCol T) ->
  has_col "power" data = false ->
  let f := fun A : Set => @take A (argsort (cells (TimeCol TS))) in
  let P := f _ (zip_with fmul V C) in
  let secs := map total_seconds (diff_time (f _ TS)) in
  let E := map (fun x => fdiv x (of_Z 1000))
               (zip_with fmul P (map (fun s => fdiv s (of_Z 3600)) secs)) in
  let D := diff (f _ T) in
  calculate_derived_features qsqrt data
  = inr (setitem "voltage_rolling_std"
           (FloatCol (rolling_std qsqrt 10 1 (f _ V)))
           (setitem "temp_rate" (FloatCol (zip_with fdiv D secs))
              (setitem "temp_delta" (FloatCol D)
                 (setitem "cumulative_energy" (FloatCol (cumsum E))
                    (setitem "energy_delta" (FloatCol E)
                       (select_rows f
                          (setitem "power" (FloatCol (zip_with fmul V C))
                             data))))))).
Proof.
  intros HTS HV HC HT HP f P secs E D.
  unfold calculate_derived_features.
  (* power *)
  unfold derive_power. rewrite HP.
  replace (has_col "voltage" data) with true
    by (unfold has_col; now rewrite HV).
  replace (has_col "current" data) with true
    by (unfold has_col; now rewrite HC).
  cbn [negb andb].
  rewrite (getitem_lookup _ _ _ HV), (getitem_lookup _ _ _ HC).
  cbn [rbind mul_columns as_float ok].
  set (df1 := setitem "power" (FloatCol (zip_with fmul V C)) data).
  assert (L1 : forall n, n <> "power" -> lookup n df1 = lookup n data)
    by (intros n Hn; unfold df1; now apply lookup_setitem_ne).
  (* energy *)
  unfold derive_energy.
  replace (has_col "power" df1) with true
    by (symmetry; apply has_col_setitem_eq).
  replace (has_col "timestamp" df1) with true
    by (unfold has_col; rewrite L1 by discriminate; now rewrite HTS).
  cbn [andb]. unfold sort_values.
  assert (HTS1 : lookup "timestamp" df1 = Some (TimeCol TS))
    by (rewrite L1 by discriminate; exact HTS).
  rewrite (getitem_lookup _ _ _ HTS1). cbn [rbind ok].
  fold f. set (df2 := select_rows f df1).
  assert (L2 : forall m, lookup m df2 = option_map (map_rows f) (lookup m df1))
    by (intros m; apply lookup_select_rows).
  assert (HTS2 : lookup "timestamp" df2 = Some (TimeCol (f _ TS)))
    by (rewrite L2, HTS1; reflexivity).
  assert (HP2 : lookup "power" df2 = Some (FloatCol P)).
  { rewrite L2. unfold df1. rewrite lookup_setitem_eq. reflexivity. }
  assert (HT2 : lookup "temperature" df2 = Some (FloatCol (f _ T))).
  { rewrite L2, L1 by discriminate. rewrite HT. reflexivity. }
  assert (HV2 : lookup "voltage" df2 = Some (FloatCol (f _ V))).
  { rewrite L2, L1 by discriminate. rewrite HV. reflexivity. }
  rewrite (getitem_lookup _ _ _ HTS2). cbn [rbind elapsed_seconds ok].
  rewrite (getitem_lookup _ _ _ HP2). cbn [rbind as_float ok].
  fold secs. fold E.
  set (df3 := setitem "cumulative_energy" (FloatCol (cumsum E))
                (setitem "energy_delta" (FloatCol E) df2)).
  assert (L3 : forall n, n <> "cumulative_energy" -> n <> "energy_delta" ->
                         lookup n df3 = lookup n df2).
  { intros n H1 H2. unfold df3. now rewrite !lookup_setitem_ne. }
  (* temperature *)
  unfold derive_temperature.
  replace (has_col "temperature" df3) with true
    by (unfold has_col; rewrite L3 by discriminate; now rewrite HT2).
  assert (HT3 : lookup "temperature" df3 = Some (FloatCol (f _ T)))
    by (rewrite L3 by discriminate; exact HT2).
  rewrite (getitem_lookup _ _ _ HT3). cbn [rbind diff_column ok].
  fold D. rewrite getitem_setitem_eq. cbn [rbind as_float ok].
  rewrite getitem_setitem_ne by discriminate.
  assert (HTS3 : lookup "timestamp" df3 = Some (TimeCol (f _ TS)))
    by (rewrite L3 by discriminate; exact HTS2).
  rewrite (getitem_lookup _ _ _ HTS3). cbn [rbind elapsed_seconds ok].
  fold secs.
  (* voltage *)
  unfold derive_voltage.
  assert (HV4 : lookup "voltage"
                  (setitem "temp_rate" (FloatCol (zip_with fdiv D secs))
                     (setitem "temp_delta" (FloatCol D) df3))
                = Some (FloatCol (f _ V))).
  { rewrite !lookup_setitem_ne by discriminate.
    rewrite L3 by discriminate. exact HV2. }
  replace (has_col "voltage"
             (setitem "temp_rate" (FloatCol (zip_with fdiv D secs))
                (setitem "temp_delta" (FloatCol D) df3))) with true
    by (unfold has_col; now rewrite HV4).
  rewrite (getitem_lookup _ _ _ HV4). cbn [rbind as_float ok].
  reflexivity.
Qed.

Lemma nth_error_zip_with {A B C} (g : A -> B -> C) (xs : list A) (ys : list B)
    (i : nat) :
  length xs = length ys ->
  nth_error (zip_with g xs ys) i
  = match nth_error xs i, nth_error ys i with
    | Some x, Some y => Some (g x y)
    | _, _ => None
    end.
Proof.
  revert ys i. induction xs as [| x xs IH]; intros [| y ys] [| i] H;
    simpl in *; try discriminate; try reflexivity.
  apply IH. lia.
Qed.

Lemma zip_with_app {A B C} (g : A -> B -> C) (a a' : list A) (b b' : list B) :
  length a = length b ->
  zip_with g (a ++ a')%list (b ++ b')%list
  = (zip_with g a b ++ zip_with g a' b')%list.
Proof.
  revert b. induction a as [| x a IH]; intros [| y b] H; simpl in *;
    try discriminate; [reflexivity |].
  f_equal. apply IH. lia.
Qed.

(** Picking rows commutes with a row-wise operation. *)
Lemma take_zip_with {A B C} (g : A -> B -> C) (idx : list nat)
    (xs : list A) (ys : list B) :
  length xs = length ys ->
  take idx (zip_with g xs ys) = zip_with g (take idx xs) (take idx ys).
Proof.
  intros H. unfold take. induction idx as [| i idx IH]; [reflexivity |].
  cbn [flat_map]. rewrite IH, (nth_error_zip_with g xs ys i H).
  destruct (nth_error xs i) as [x |] eqn:Ex; destruct (nth_error ys i) as [y |] eqn:Ey.
  - reflexivity.
  - exfalso. apply nth_error_None in Ey.
    assert (nth_error xs i <> None) by congruence.
    apply nth_error_Some in H0. lia.
  - exfalso. apply nth_error_None in Ex.
    assert (nth_error ys i <> None) by congruence.
    apply nth_error_Some in H0. lia.
  - reflexivity.
Qed.

Lemma take_seq_from {A} (pre xs : list A) :
  take (seq (length pre) (length xs)) (pre ++ xs)%list = xs.
Proof.
  revert pre. induction xs as [| x xs IH]; intros pre; [reflexivity |].
  cbn [length seq]. unfold take in *. cbn [flat_map].
  rewrite nth_error_app2, Nat.sub_diag by lia. cbn [nth_error app].
  f_equal. specialize (IH (pre ++ [x])%list).
  rewrite length_app, <- app_assoc in IH. cbn [length app] in IH.
  replace (length pre + 1)%nat with (S (length pre)) in IH by lia.
  exact IH.
Qed.

(** Picking every row once, in any order, rearranges the column. *)
Lemma take_perm {A} (idx : list nat) (xs : list A) :
  Permutation idx (seq 0 (length xs)) -> Permutation (take idx xs) xs.
Proof.
  intros H.
  rewrite <- (take_seq_from [] xs) at 2. cbn [length app].
  unfold take. now apply Permutation_flat_map.
Qed.

Lemma take_rows_length {A} (ks : list cell) (xs : list A) :
  length xs = length ks -> length (take (argsort ks) xs) = length ks.
Proof.
  intros H. rewrite take_length.
  - apply argsort_length.
  - rewrite H. apply argsort_in_range.
Qed.

Lemma time_cells_length (ts : list (option Z)) :
  length (cells (TimeCol ts)) = length ts.
Proof. apply length_map. Qed.

(** [cumsum] at a row: missing where the value is missing, otherwise the
    sum of the non-missing values up to that row. *)
Lemma nth_cumsum_from (xs : list float64) :
  forall acc i,
    (i < length xs)%nat ->
    nth i (cumsum_from acc xs) NaN
    = if is_nan (nth i xs NaN) then NaN
      else fold_left fadd (filter notna (firstn (i + 1) xs)) acc.
Proof.
  induction xs as [| x xs IH]; intros acc i Hi; cbn [length] in Hi; [lia |].
  cbn [cumsum_from]. destruct i as [| i].
  - cbn [nth firstn Nat.add filter]. unfold notna.
    destruct (is_nan x); reflexivity.
  - cbn [nth]. replace (S i + 1)%nat with (S (i + 1)) by lia.
    cbn [firstn filter]. unfold notna at 1.
    destruct (is_nan x); cbn [negb nth fold_left]; apply IH; lia.
Qed.

Lemma cumsum_length (xs : list float64) : length (cumsum xs) = length xs.
Proof.
  unfold cumsum. generalize (Fin 0).
  induction xs as [| x xs IH]; intros acc; cbn [cumsum_from length];
    [reflexivity |].
  destruct (is_nan x); cbn [length]; now rewrite IH.
Qed.

Lemma fmul_nan_r (x : float64) : fmul x NaN = NaN.
Proof. now destruct x. Qed.

(** The energy of a row, when both factors are numbers: the power times
    the elapsed nanoseconds, in kilowatt hours. *)
Lemma energy_of_row (p : Q) (a b : Z) :
  exists e,
    fdiv (fmul (Fin p)
            (fdiv (total_seconds (time_sub (Some b) (Some a))) (of_Z 3600)))
         (of_Z 1000) = Fin e /\
    e == p * (inject_Z (b - a) / 1000000000 / 3600) / 1000.
Proof.
  eexists. split; [reflexivity |].
  rewrite !Qred_correct. reflexivity.
Qed.

(** The rows of the derived frame: sorted by time stamp, each with the
    product of its own voltage and current. *)
Lemma derived_rows
    (qsqrt : Q -> Q) (data : table)
    (TS : list (option Z)) (V C T : list float64) :
  wf_table data = true ->
  lookup "timestamp" data = Some (TimeCol TS) ->
  lookup "voltage" data = Some (FloatCol V) ->
  lookup "current" data = Some (FloatCol C) ->
  lookup "temperature" data = Some (FloatCol T) ->
  has_col "power" data = false ->
  exists out TS' V' C',
    calculate_derived_features qsqrt data = inr out /\
    lookup "timestamp" out = Some (TimeCol TS') /\
    lookup "voltage" out = Some (FloatCol V') /\
    lookup "current" out = Some (FloatCol C') /\
    lookup "power" out = Some (FloatCol (zip_with fmul V' C')) /\
    StronglySorted (fun a b => cell_leb a b = true) (cells (TimeCol TS')) /\
    Permutation TS' TS /\ Permutation V' V /\ Permutation C' C.
Proof.
  intros Hwf HTS HV HC HT HP.
  pose proof (derived_features_explicit qsqrt data TS V C T HTS HV HC HT HP)
    as E. cbv zeta in E.
  set (ks := cells (TimeCol TS)) in *.
  set (f := fun A : Set => @take A (argsort ks)) in *.
  assert (HnV : length V = length ks).
  { unfold ks. rewrite time_cells_length.
    pose proof (wf_col_len _ _ _ Hwf HV) as H1.
    pose proof (wf_col_len _ _ _ Hwf HTS) as H2.
    cbn [col_len] in H1, H2. congruence. }
  assert (HnC : length C = length ks).
  { unfold ks. rewrite time_cells_length.
    pose proof (wf_col_len _ _ _ Hwf HC) as H1.
    pose proof (wf_col_len _ _ _ Hwf HTS) as H2.
    cbn [col_len] in H1, H2. congruence. }
  assert (Hperm : forall (A : Type) (xs : list A),
             length xs = length ks -> Permutation (take (argsort ks) xs) xs).
  { intros A xs Hx. apply take_perm. rewrite Hx. apply argsort_perm. }
  eexists. exists (f _ TS), (f _ V), (f _ C).
  split; [exact E |].
  rewrite !lookup_setitem_ne by discriminate.
  rewrite !lookup_select_rows.
  rewrite !lookup_setitem_ne by discriminate.
  rewrite lookup_setitem_eq, HTS, HV, HC. cbn [option_map map_rows].
  split; [reflexivity |]. split; [reflexivity |]. split; [reflexivity |].
  split.
  { f_equal. f_equal. unfold f. apply take_zip_with. congruence. }
  split.
  { unfold f. change (cells (TimeCol (take (argsort ks) TS)))
      with (map (fun t => match t with Some z => CTime z | None => CNa end)
              (take (argsort ks) TS)).
    rewrite take_map. apply take_argsort_sorted. }
  split; [| split]; unfold f; apply Hperm; auto.
  unfold ks. now rewrite time_cells_length.
Qed.



Lemma hd_error_nth {A} (l : list A) (d : A) :
  l <> [] -> hd_error l = Some (nth 0 l d).
Proof. destruct l; [congruence | reflexivity]. Qed.

Lemma elapsed_first (ts : list (option Z)) :
  nth 0 (map total_seconds (diff_time ts)) NaN = NaN.
Proof. destruct ts; reflexivity. Qed.

Lemma length_not_nil {A} (l : list A) : (0 < length l)%nat -> l <> [].
Proof. destruct l; simpl; [lia | discriminate]. Qed.



Lemma rolling_std_first (qsqrt : Q -> Q) (xs : list float64) :
  nth 0 (rolling_std qsqrt 10 1 xs) NaN = NaN.
Proof.
  destruct xs as [| x xs]; [reflexivity |].
  unfold rolling_std. rewrite nth_rolling by (simpl; lia).
  unfold window. cbn [Nat.add Nat.sub Nat.min skipn firstn filter].
  destruct (notna x) eqn:Ex; [| reflexivity].
  cbn [length Nat.ltb Nat.leb]. unfold std, var. cbn [filter]. rewrite Ex.
  reflexivity.
Qed.

Lemma any_null_column (df : table) (n : string) (xs : list float64) :
  lookup n df = Some (FloatCol xs) -> hd_error xs = Some NaN ->
  any_null df = true.
Proof.
  intros Hl Hh. unfold any_null. apply existsb_exists.
  exists (n, FloatCol xs). split; [now apply lookup_In |].
  destruct xs as [| x xs]; [discriminate |]. injection Hh as ->.
  reflexivity.
Qed.



(** *** validate_data, the range check *)

Lemma voltage_check (x : float64) :
  fgeb x (of_Z 0) = true <-> voltage_in_range x.
Proof.
  unfold voltage_in_range. destruct x as [| s | q].
  - split; [discriminate |]. intros [H | [q [H _]]]; discriminate.
  - destruct s; (split; [intros H; try discriminate; now left |]).
    + intros [H | [q [H _]]]; discriminate.
    + reflexivity.
  - unfold of_Z. change (inject_Z 0) with 0. rewrite fgeb_Fin. split.
    + intros H. right. eauto.
    + intros [H | [q' [H Hq]]]; [discriminate |]. now injection H as ->.
Qed.

Lemma temperature_check (x : float64) :
  fgeb x (of_Z (-50)) && fleb x (of_Z 100) = true <-> temperature_in_range x.
Proof.
  unfold temperature_in_range. destruct x as [| s | q].
  - split; [discriminate |]. intros [q [H _]]; discriminate.
  - split; [now destruct s |]. intros [q [H _]]; discriminate.
  - unfold of_Z. change (inject_Z (-50)) with (-50).
    change (inject_Z 100) with 100.
    rewrite andb_true_iff, fgeb_Fin, fleb_Fin. split.
    + intros [H1 H2]. eauto.
    + intros [q' [H [H1 H2]]]. now injection H as ->.
Qed.

Lemma forallb_id_map {A} (g : A -> bool) (l : list A) :
  forallb (fun b => b) (map g l) = forallb g l.
Proof. induction l as [| x l IH]; simpl; [reflexivity | now rewrite IH]. Qed.

Lemma forallb_Forall {A} (g : A -> bool) (P : A -> Prop) (l : list A) :
  (forall x, g x = true <-> P x) ->
  (forallb g l = true <-> Forall P l).
Proof.
  intros H. rewrite forallb_forall, Forall_forall.
  split; intros Hl x Hx; apply H; auto.
Qed.


End ProcessorFacts.

(** ** data_processor.py, the pipeline *)

Module PipelineFacts.
Import Processor Pipeline ProcessorFacts.

Lemma lookup_distinct (df : table) (n : string) (c : column) :
  distinct (columns df) = true -> In (n, c) df -> lookup n df = Some c.
Proof.
  unfold columns. induction df as [| [m c0] df IH]; cbn [map fst distinct lookup];
    [intros _ [] |].
  intros Hd Hin. apply andb_true_iff in Hd. destruct Hd as [Hm Hd].
  destruct Hin as [E | Hin].
  - injection E as -> ->. now rewrite String.eqb_refl.
  - destruct (String.eqb_spec n m) as [-> | Hne]; [| now apply IH].
    exfalso. apply negb_true_iff in Hm.
    assert (existsb (String.eqb m) (map fst df) = true); [| congruence].
    apply existsb_exists. exists m. split; [| apply String.eqb_refl].
    now apply (in_map fst) in Hin.
Qed.

Lemma wf_intro (df : table) :
  distinct (columns df) = true ->
  (forall n c, lookup n df = Some c -> col_len c = nrows df) ->
  wf_table df = true.
Proof.
  intros Hd Hl. unfold wf_table. rewrite Hd. cbn [andb].
  apply forallb_forall. intros [n c] Hin. cbn [snd].
  apply Nat.eqb_eq. apply (Hl n). now apply lookup_distinct.
Qed.

Lemma kind_float (c : column) : kind c = 0%nat -> exists xs, c = FloatCol xs.
Proof. destruct c; try discriminate; eauto. Qed.

Lemma kind_time (c : column) : kind c = 1%nat -> exists ts, c = TimeCol ts.
Proof. destruct c; try discriminate; eauto. Qed.

Lemma validate_telemetry (frame : table) (V T : list float64) :
  lookup "voltage" frame = Some (FloatCol V) ->
  lookup "temperature" frame = Some (FloatCol T) ->
  exists r, validate_data frame = inr r /\
            has_required_columns r
            = forallb (fun c => has_col c frame) REQUIRED_COLUMNS.
Proof.
  intros HV HT. unfold validate_data. rewrite HV, HT.
  cbn [as_float rbind ok]. eexists. split; reflexivity.
Qed.

(** The pipeline's gate looks at the column names only.  When [voltage]
    and [temperature] are numeric or absent, [process_pipeline] raises
    the missing-columns [ValueError] whenever one of the four required
    columns is absent, whatever the flags; and when all four are there,
    a run with every step switched off (an empty frequency counts as
    none) returns the frame as it came, whatever the validator found
    about ranges, duplicates or missing values.  Either way [self.data]
    ends up holding the unprocessed frame. *)
Theorem pipeline_checks_only_required_columns
    (qsqrt : Q -> Q) (resample_mean : string -> column -> table -> result table)
    (frame : table) (self : processor) :
  numeric_or_absent "voltage" frame = true ->
  numeric_or_absent "temperature" frame = true ->
  (forall clean add_features resample_freq,
      snd (process_pipeline qsqrt resample_mean frame clean add_features
             resample_freq self)
      = {| data := Some frame |}) /\
  (forallb (fun c => has_col c frame) REQUIRED_COLUMNS = false ->
   forall clean add_features resample_freq,
     fst (process_pipeline qsqrt resample_mean frame clean add_features
            resample_freq self)
     = raise missing_required_columns) /\
  (forallb (fun c => has_col c frame) REQUIRED_COLUMNS = true ->
   forall resample_freq,
     resample_freq = None \/ resample_freq = Some "" ->
     fst (process_pipeline qsqrt resample_mean frame false false
            resample_freq self)
     = ok frame).
Proof.
  intros Hv Ht.
  assert (Hval : exists r, validate_data frame = inr r /\
                           has_required_columns r
                           = forallb (fun c => has_col c frame) REQUIRED_COLUMNS).
  { unfold validate_data, numeric_or_absent in *.
    destruct (lookup "voltage" frame) as [[] |]; try discriminate;
      destruct (lookup "temperature" frame) as [[] |]; try discriminate;
      cbn [as_float rbind ok]; eexists; split; reflexivity. }
  destruct Hval as [r [Er Hr]].
  split; [reflexivity |]. split.
  - intros Hmiss clean add_features resample_freq.
    unfold process_pipeline, load_data. cbn [fst].
    rewrite Er. cbn [rbind]. rewrite Hr, Hmiss. reflexivity.
  - intros Hall resample_freq Hfreq.
    unfold process_pipeline, load_data. cbn [fst].
    rewrite Er. cbn [rbind]. rewrite Hr, Hall. cbn [negb rbind ok].
    destruct Hfreq as [-> | ->]; reflexivity.
Qed.

Lemma pipeline_checks_only_required_columns_witness :
  (forall clean add_features resample_freq,
      snd (process_pipeline sqrt_micro (fun _ _ t => ok t) below_zero clean
             add_features resample_freq {| data := None |})
      = {| data := Some below_zero |}) /\
  (forallb (fun c => has_col c below_zero) REQUIRED_COLUMNS = false ->
   forall clean add_features resample_freq,
     fst (process_pipeline sqrt_micro (fun _ _ t => ok t) below_zero clean
            add_features resample_freq {| data := None |})
     = raise missing_required_columns) /\
  (forallb (fun c => has_col c below_zero) REQUIRED_COLUMNS = true ->
   forall resample_freq,
     resample_freq = None \/ resample_freq = Some "" ->
     fst (process_pipeline sqrt_micro (fun _ _ t => ok t) below_zero false false
            resample_freq {| data := None |})
     = ok below_zero).
Proof.
  apply (pipeline_checks_only_required_columns sqrt_micro (fun _ _ t => ok t)
           below_zero {| data := None |});
    reflexivity.
Defined.



End PipelineFacts.

Lemma nth_map_seq {B} (f : nat -> B) (n i : nat) (d : B) :
  (i < n)%nat -> nth i (map f (seq 0 n)) d = f i.
Proof.
  intros H. rewrite (nth_map_lt _ _ _ _ 0%nat) by (now rewrite length_seq).
  now rewrite seq_nth.
Qed.

Lemma nth_const_false {A} (xs : list A) (i : nat) :
  nth i (map (fun _ => false) xs) false = false.
Proof.
  revert i; induction xs as [| x xs IH]; intros [| i]; simpl; auto.
Qed.

Lemma all_numeric_setitem (cols : list string) (n : string) (v : column)
    (t : table) :
  numeric_view_ok v = true ->
  all_numeric cols t = true ->
  all_numeric cols (setitem n v t) = true.
Proof.
  unfold all_numeric. rewrite !forallb_forall. intros Hv H col Hc.
  destruct (String.eqb_spec col n) as [-> | Hne].
  - now rewrite lookup_setitem_eq.
  - rewrite lookup_setitem_ne by exact Hne. now apply H.
Qed.

Lemma all_numeric_lookup (cols : list string) (t : table) (col : string) :
  all_numeric cols t = true -> In col cols ->
  exists cc, lookup col t = Some cc /\ numeric_view_ok cc = true.
Proof.
  unfold all_numeric. rewrite forallb_forall. intros H Hc.
  specialize (H col Hc). destruct (lookup col t); [eauto | discriminate].
Qed.

Lemma no_collision_spec (c : string) (cols : list string) (col : string) :
  no_collision c cols = true -> In col cols ->
  c <> "is" /\ c <> col ++ "_anomaly" /\ c <> col ++ "_zscore".
Proof.
  unfold no_collision. intros H Hc.
  apply andb_true_iff in H. destruct H as [His H].
  rewrite forallb_forall in H. specialize (H col Hc).
  apply andb_true_iff in H. destruct H as [Ha Hz].
  repeat split; apply String.eqb_neq; now apply negb_true_iff.
Qed.

(** Selecting boolean columns for [any(axis=1)] never fails. *)
Lemma select_flags (t : table) (names : list string) :
  (forall n, In n names -> exists bs, lookup n t = Some (BoolCol bs)) ->
  exists bcols,
    Detector.select
      (fun n => let? c := getitem n t in Detector.truth_values c) names
    = inr bcols /\
    forall bs, In bs bcols ->
               exists n, In n names /\ lookup n t = Some (BoolCol bs).
Proof.
  induction names as [| n names IH]; intros H.
  - exists []. split; [reflexivity |]. intros bs [].
  - destruct (H n (or_introl eq_refl)) as [bs Hbs].
    destruct IH as [bcols [Hsel Hin]];
      [intros k Hk; apply H; now right |].
    exists (bs :: bcols). split.
    + cbn [Detector.select]. rewrite (getitem_lookup _ _ _ Hbs).
      cbn [rbind Detector.truth_values ok]. rewrite Hsel. reflexivity.
    + intros bs' [<- | Hb].
      * exists n. split; [now left | exact Hbs].
      * destruct (Hin bs' Hb) as [k [Hk Hl]]. exists k. split; [now right | exact Hl].
Qed.

(** ** anomaly_detector.py *)

Module DetectorFacts.
Import Detector.

Section Store.
Context {Model : Type}.

Abbreviation state := (Detector.state Model).
Abbreviation M := (Detector.M Model).

Notation "x <- m ;; k" := (bind m (fun x => k))
  (at level 61, m at next level, right associativity).
Notation "m ;;; k" := (bind m (fun _ => k))
  (at level 61, right associativity).

Lemma wp_bind {A B} (m : M A) (k : A -> M B) st Q :
  wp m st (fun r st' =>
             match r with
             | inl e => Q (inl e) st'
             | inr a => wp (k a) st' Q
             end) ->
  wp (bind m k) st Q.
Proof.
  unfold wp, bind. destruct (m st) as [[e | a] st']; simpl; auto.
Qed.

Lemma wp_ret {A} (a : A) st (Q : result A -> state -> Prop) :
  Q (inr a) st -> wp (ret a) st Q.
Proof. auto. Qed.

Lemma wp_throw {A} (e : error) st (Q : result A -> state -> Prop) :
  Q (inl e) st -> wp (throw e) st Q.
Proof. auto. Qed.

Lemma wp_lift {A} (r : result A) st (Q : result A -> state -> Prop) :
  Q r st -> wp (lift r) st Q.
Proof. auto. Qed.

Lemma wp_mono {A} (m : M A) st (Q Q' : result A -> state -> Prop) :
  (forall r st', Q r st' -> Q' r st') -> wp m st Q -> wp m st Q'.
Proof. unfold wp. auto. Qed.

Lemma nth_last_app {A} (l : list A) (x d : A) : nth (length l) (l ++ [x]) d = x.
Proof. rewrite app_nth2, Nat.sub_diag by lia. reflexivity. Qed.

Lemma update_last_app {A} (f : A -> A) (l : list A) (x : A) :
  update (length l) f (l ++ [x]) = (l ++ [f x])%list.
Proof. induction l as [| y l IH]; simpl; [reflexivity | now rewrite IH]. Qed.

Lemma wp_copy (r : ref) st (Q : result ref -> state -> Prop) :
  (forall st',
      frames st' = (frames st ++ [frame_at st r])%list ->
      isolation_forest st' = isolation_forest st ->
      contamination st' = contamination st ->
      Q (inr (length (frames st))) st') ->
  wp (copy r) st Q.
Proof. intros H. unfold wp, copy; simpl. now apply H. Qed.

Lemma wp_read_last (old : list table) (t : table) st
    (Q : result table -> state -> Prop) :
  frames st = (old ++ [t])%list ->
  Q (inr t) st ->
  wp (read (length old)) st Q.
Proof.
  intros Hf HQ. unfold wp, read, frame_at; simpl.
  now rewrite Hf, nth_last_app.
Qed.

Lemma wp_assign_last (old : list table) (t : table) (n : string) (c : column)
    st (Q : result unit -> state -> Prop) :
  frames st = (old ++ [t])%list ->
  (forall st',
      frames st' = (old ++ [setitem n c t])%list ->
      isolation_forest st' = isolation_forest st ->
      contamination st' = contamination st ->
      Q (inr tt) st') ->
  wp (assign (length old) n c) st Q.
Proof.
  intros Hf HQ. unfold wp, assign; simpl. apply HQ; simpl; auto.
  now rewrite Hf, update_last_app.
Qed.

(** A loop keeps an invariant that may depend on the part of the list
    already visited; [E] is what holds if the body raises. *)
Lemma wp_for_ {A} (body : A -> M unit) (I : list A -> state -> Prop)
    (E : state -> Prop) (l : list A) :
  forall done st,
    (forall d x st0,
        (exists rest, (done ++ l = d ++ x :: rest)%list) ->
        I d st0 ->
        wp (body x) st0 (fun r st' =>
                           match r with
                           | inl _ => E st'
                           | inr _ => I (d ++ [x])%list st'
                           end)) ->
    I done st ->
    wp (for_ l body) st (fun r st' =>
                           match r with
                           | inl _ => E st'
                           | inr _ => I (done ++ l)%list st'
                           end).
Proof.
  induction l as [| x l IH]; intros done st Hbody HI; simpl.
  - apply wp_ret. now rewrite app_nil_r.
  - apply wp_bind.
    eapply wp_mono; [| apply (Hbody done x st); eauto].
    intros [e | []] st' H; simpl in *; [assumption |].
    replace (done ++ x :: l)%list with ((done ++ [x]) ++ l)%list
      by (now rewrite <- app_assoc).
    apply IH; auto.
    intros d y st0 [rest Hr] Hd. apply Hbody; auto.
    exists rest. now rewrite <- Hr, <- app_assoc.
Qed.

Lemma wp_for_with {A V} (body : V -> A -> M V) (I : V -> state -> Prop)
    (E : state -> Prop) (l : list A) :
  forall v st,
    (forall v0 x st0,
        In x l -> I v0 st0 ->
        wp (body v0 x) st0 (fun r st' =>
                              match r with
                              | inl _ => E st'
                              | inr v' => I v' st'
                              end)) ->
    I v st ->
    wp (for_with l body v) st (fun r st' =>
                                 match r with
                                 | inl _ => E st'
                                 | inr v' => I v' st'
                                 end).
Proof.
  induction l as [| x l IH]; intros v st Hbody HI; simpl.
  - now apply wp_ret.
  - apply wp_bind.
    eapply wp_mono; [| apply (Hbody v x st); simpl; auto].
    intros [e | v'] st' H; simpl in *; [assumption |].
    apply IH; [| assumption].
    intros v0 y st0 Hy. apply Hbody. simpl; auto.
Qed.

Lemma frame_at_old (st st' : state) (new : list table) (r : ref) :
  frames st' = (frames st ++ new)%list ->
  (r < length (frames st))%nat ->
  frame_at st' r = frame_at st r.
Proof.
  intros Hf Hr. unfold frame_at. rewrite Hf. now apply app_nth1.
Qed.

Lemma frame_at_last (st' : state) (old : list table) (t : table) :
  frames st' = (old ++ [t])%list -> frame_at st' (length old) = t.
Proof. intros Hf. unfold frame_at. rewrite Hf. apply nth_last_app. Qed.

Lemma sudden_change_flag (a b c : Q) :
  fgtb (fabs (fsub (Fin a) (Fin b))) (Fin c) = true <-> c < Qabs (a - b).
Proof.
  unfold fsub, fopp, fadd, fabs. rewrite fgtb_Fin.
  rewrite !Qred_correct. unfold Qminus. reflexivity.
Qed.

(** *** detect_sudden_changes *)


(** *** The passes only add generated columns *)

Lemma grown_last (old : list table) (t : table) (st : state) :
  frames st = (old ++ [t])%list -> grown old st.
Proof. intros H. now exists [t]. Qed.

Lemma at_last_here (old : list table) (P : table -> Prop) (t : table)
    (st : state) :
  frames st = (old ++ [t])%list -> P t -> at_last old P (length old) st.
Proof.
  intros Hf HP. exists old, t. repeat split; auto.
  exists []. now rewrite app_nil_r.
Qed.

Lemma working_grown (old : list table) (t0 : table) (st : state) :
  working old t0 st -> grown old st.
Proof. intros [t [Hf _]]. eapply grown_last; eauto. Qed.

Ltac wp_lift_or_fail Hf :=
  apply wp_bind, wp_lift;
  match goal with
  | |- match ?r with inl _ => _ | inr _ => _ end =>
      let e := fresh "e" in
      destruct r as [e |] eqn:?;
      [try (eapply grown_last; exact Hf);
       try (eapply working_grown; eexists; split; [exact Hf | eauto with frames])
      |]
  end.

Lemma statistical_additive (qsqrt : Q -> Q) (st : state) (data : ref)
    (cols : option (list string)) (std_threshold : float64) :
  wp (detect_statistical_anomalies qsqrt data cols std_threshold) st
     (outcome (frames st) (additive (frame_at st data))).
Proof.
  unfold detect_statistical_anomalies.
  set (t0 := frame_at st data). set (old := frames st).
  apply wp_bind, wp_copy. intros st1 Hf1 _ _. fold t0 old in Hf1 |- *.
  apply wp_bind. eapply wp_read_last; [eassumption |].
  apply wp_bind.
  eapply wp_mono;
    [| apply (wp_for_ _ (fun _ => working old t0) (grown old) _ []);
       [| exists t0; split; [exact Hf1 | apply additive_refl]]].
  - intros [e | []] st2; [auto |]. intros [t2 [Hf2 Ha2]].
    apply wp_bind. eapply wp_read_last; [eassumption |].
    wp_lift_or_fail Hf2.
    apply wp_bind. eapply wp_assign_last; [eassumption |].
    intros st3 Hf3 _ _. apply wp_ret.
    eapply at_last_here; [eassumption |].
    apply additive_step; [reflexivity | assumption].
  - intros d col st2 _ [t2 [Hf2 Ha2]].
    apply wp_bind. eapply wp_read_last; [eassumption |].
    destruct (has_col col t2).
    2:{ apply wp_ret. exists t2. auto. }
    wp_lift_or_fail Hf2.
    wp_lift_or_fail Hf2.
    apply wp_bind. eapply wp_assign_last; [eassumption |].
    intros st3 Hf3 _ _.
    eapply wp_assign_last; [eassumption |].
    intros st4 Hf4 _ _.
    eexists; split; [exact Hf4 |].
    apply additive_step; [apply generated_name_suffix; simpl; auto |].
    apply additive_step; [apply generated_name_suffix; simpl; auto |].
    exact Ha2.
Qed.

Lemma threshold_additive (st : state) (data : ref)
    (thresholds : list (string * (float64 * float64))) :
  wp (detect_threshold_violations data thresholds) st
     (outcome (frames st) (additive (frame_at st data))).
Proof.
  unfold detect_threshold_violations.
  set (t0 := frame_at st data). set (old := frames st).
  apply wp_bind, wp_copy. intros st1 Hf1 _ _. fold t0 old in Hf1 |- *.
  apply wp_bind.
  eapply wp_mono;
    [| apply (wp_for_ _ (fun _ => working old t0) (grown old) _ []);
       [| exists t0; split; [exact Hf1 | apply additive_refl]]].
  - intros [e | []] st2; [auto |]. intros [t2 [Hf2 Ha2]].
    apply wp_bind. eapply wp_read_last; [eassumption |].
    wp_lift_or_fail Hf2.
    apply wp_bind. eapply wp_assign_last; [eassumption |].
    intros st3 Hf3 _ _. apply wp_ret.
    eapply at_last_here; [eassumption |].
    apply additive_step; [reflexivity | assumption].
  - intros d [col [min_val max_val]] st2 _ [t2 [Hf2 Ha2]].
    apply wp_bind. eapply wp_read_last; [eassumption |].
    destruct (has_col col t2).
    2:{ apply wp_ret. exists t2. auto. }
    wp_lift_or_fail Hf2.
    wp_lift_or_fail Hf2.
    eapply wp_assign_last; [eassumption |].
    intros st3 Hf3 _ _.
    eexists; split; [exact Hf3 |].
    apply additive_step; [apply generated_name_suffix; simpl; auto |].
    exact Ha2.
Qed.

Lemma sudden_additive (st : state) (data : ref) (column : string)
    (change_threshold : float64) :
  wp (detect_sudden_changes data column change_threshold) st
     (outcome (frames st) (additive (frame_at st data))).
Proof.
  unfold detect_sudden_changes.
  set (t0 := frame_at st data). set (old := frames st).
  apply wp_bind, wp_copy. intros st1 Hf1 _ _. fold t0 old in Hf1 |- *.
  apply wp_bind. eapply wp_read_last; [eassumption |].
  destruct (negb (has_col column t0)).
  { apply wp_throw. eapply grown_last; eassumption. }
  wp_lift_or_fail Hf1.
  wp_lift_or_fail Hf1.
  apply wp_bind. eapply wp_assign_last; [eassumption |].
  intros st2 Hf2 _ _.
  apply wp_bind. eapply wp_read_last; [eassumption |].
  wp_lift_or_fail Hf2.
  wp_lift_or_fail Hf2.
  apply wp_bind. eapply wp_assign_last; [eassumption |].
  intros st3 Hf3 _ _. apply wp_ret.
  eapply at_last_here; [eassumption |].
  apply additive_step; [apply generated_name_suffix; simpl; auto 10 |].
  apply additive_step; [apply generated_name_suffix; simpl; auto 10 |].
  apply additive_refl.
Qed.

Lemma pattern_additive (qsqrt : Q -> Q) (st : state) (data : ref)
    (column : string) (window : nat) :
  wp (detect_pattern_deviations qsqrt data column window) st
     (outcome (frames st) (additive (frame_at st data))).
Proof.
  unfold detect_pattern_deviations.
  set (t0 := frame_at st data). set (old := frames st).
  apply wp_bind, wp_copy. intros st1 Hf1 _ _. fold t0 old in Hf1 |- *.
  apply wp_bind. eapply wp_read_last; [eassumption |].
  destruct (negb (has_col column t0)).
  { apply wp_throw. eapply grown_last; eassumption. }
  wp_lift_or_fail Hf1.
  wp_lift_or_fail Hf1.
  apply wp_bind. eapply wp_assign_last; [eassumption |].
  intros st2 Hf2 _ _.
  apply wp_bind. eapply wp_assign_last; [eassumption |].
  intros st3 Hf3 _ _.
  apply wp_bind. eapply wp_read_last; [eassumption |].
  do 6 wp_lift_or_fail Hf3.
  apply wp_bind. eapply wp_assign_last; [eassumption |].
  intros st4 Hf4 _ _. apply wp_ret.
  eapply at_last_here; [eassumption |].
  repeat (apply additive_step; [apply generated_name_suffix; simpl; auto 10 |]).
  apply additive_refl.
Qed.

Lemma wp_get_forest st (Q : result (option (option Model)) -> state -> Prop) :
  Q (inr (isolation_forest st)) st -> wp get_forest st Q.
Proof. auto. Qed.

Lemma wp_set_forest f st (Q : result unit -> state -> Prop) :
  (forall st', frames st' = frames st -> Q (inr tt) st') ->
  wp (set_forest f) st Q.
Proof. intros H. apply H. reflexivity. Qed.

(** The isolation forest reads the frame and touches the estimator
    only. *)
Lemma forest_keeps_frames forest_fit forest_predict (st : state) (data : ref)
    (features : option (list string)) :
  wp (detect_isolation_forest forest_fit forest_predict data features) st
     (fun _ st' => frames st' = frames st).
Proof.
  unfold detect_isolation_forest.
  apply wp_bind. unfold wp at 1, read; simpl.
  apply wp_bind, wp_lift.
  match goal with
  | |- match ?r with inl _ => _ | inr _ => _ end => destruct r as [e | X]
  end; [reflexivity |].
  apply wp_bind, wp_get_forest.
  apply wp_bind.
  destruct (isolation_forest st) as [f |].
  - apply wp_ret. apply wp_bind, wp_get_forest.
    destruct (isolation_forest st) as [[m |] |];
      try (apply wp_throw; reflexivity).
    apply wp_lift. reflexivity.
  - apply wp_bind, wp_set_forest. intros st1 Hf1.
    apply wp_bind. unfold wp at 1, get_contamination; simpl.
    apply wp_bind, wp_lift.
    destruct (forest_fit (contamination st1) X) as [e | m]; [exact Hf1 |].
    apply wp_set_forest. intros st2 Hf2.
    apply wp_bind, wp_get_forest.
    destruct (isolation_forest st2) as [[m' |] |];
      try (apply wp_throw; congruence).
    apply wp_lift. congruence.
Qed.

Lemma at_last_grown (base : list table) (P : table -> Prop) (df : ref)
    (st : state) :
  at_last base P df st -> grown base st.
Proof.
  intros [old [t [Hf [_ [[mid ->] _]]]]].
  exists (mid ++ [t])%list. now rewrite Hf, app_assoc.
Qed.

Lemma grown_same (base : list table) (st st' : state) :
  frames st' = frames st -> grown base st -> grown base st'.
Proof. intros Hf [new H]. exists new. congruence. Qed.

Lemma at_last_same (base : list table) (P : table -> Prop) (df : ref)
    (st st' : state) :
  frames st' = frames st -> at_last base P df st -> at_last base P df st'.
Proof.
  intros Hf [old [t [H1 H2]]]. exists old, t. split; [congruence | exact H2].
Qed.

Lemma at_last_intro (base mid old : list table) (P : table -> Prop)
    (t : table) (st' : state) :
  old = (base ++ mid)%list ->
  frames st' = (old ++ [t])%list ->
  P t ->
  at_last base P (length old) st'.
Proof.
  intros Ho Hf HP. exists old, t.
  split; [exact Hf |]. split; [reflexivity |]. split; [eauto | exact HP].
Qed.

Lemma at_last_assign (base mid old : list table) (t0 t : table) (n : string)
    (c : column) (st' : state) :
  old = (base ++ mid)%list ->
  frames st' = (old ++ [setitem n c t])%list ->
  additive t0 t ->
  generated_name n = true ->
  at_last base (additive t0) (length old) st'.
Proof.
  intros Ho Hf Ha Hn. exists old, (setitem n c t).
  split; [exact Hf |]. split; [reflexivity |].
  split; [eauto | now apply additive_step].
Qed.

(** A pass run on the newest frame of a grown store keeps the store
    grown from the same base. *)
Lemma outcome_rebase (base : list table) (t0 : table) (df : ref) (st : state) :
  at_last base (additive t0) df st ->
  forall r (st' : state),
    outcome (frames st) (additive (frame_at st df)) r st' ->
    outcome base (additive t0) r st'.
Proof.
  intros [old [t [Hf [-> [[mid ->] Ha]]]]] r st'.
  rewrite (frame_at_last _ _ _ Hf).
  destruct r as [e | df']; simpl.
  - intros [new Hn]. exists (mid ++ [t] ++ new)%list.
    rewrite Hn, Hf. now rewrite <- !app_assoc.
  - intros [old' [t' [Hf' [-> [[mid' ->] Ha']]]]].
    exists (frames st ++ mid')%list, t'. repeat split; auto.
    + exists (mid ++ [t] ++ mid')%list. rewrite Hf.
      now rewrite <- !app_assoc.
    + destruct Ha as [[e1 H1] _], Ha' as [[e2 H2] _].
      exists (e1 ++ e2)%list. now rewrite H2, H1, app_assoc.
    + intros c Hc. destruct Ha as [_ L1], Ha' as [_ L2].
      now rewrite L2, L1.
Qed.

Lemma comprehensive_additive (qsqrt : Q -> Q) forest_fit forest_predict
    (st : state) (data : ref)
    (thresholds : option (list (string * (float64 * float64)))) :
  wp (comprehensive_anomaly_detection qsqrt forest_fit forest_predict
        data thresholds) st
     (outcome (frames st) (additive (frame_at st data))).
Proof.
  unfold comprehensive_anomaly_detection.
  set (t0 := frame_at st data). set (base := frames st).
  apply wp_bind, wp_copy. intros st1 Hf1 _ _. fold t0 base in Hf1 |- *.
  assert (H1 : at_last base (additive t0) (length base) st1)
    by (eapply at_last_here; [exact Hf1 | apply additive_refl]).
  apply wp_bind.
  eapply wp_mono; [| apply statistical_additive].
  intros r st2 Ho. apply (outcome_rebase _ _ _ _ H1) in Ho.
  destruct r as [e | df]; [exact Ho |]. simpl in Ho.
  destruct Ho as [old [t2 [Hf2 [-> [[mid Hmid] Ha2]]]]].
  apply wp_bind. eapply wp_read_last; [eassumption |].
  apply wp_bind.
  apply wp_mono with
    (Q := fun r st' =>
            match r with
            | inl _ => grown base st'
            | inr _ => at_last base (additive t0) (length old) st'
            end).
  2:{ destruct (select_numeric t2) as [| c0 numeric_cols].
      - apply wp_ret. eapply at_last_intro; eauto.
      - apply wp_bind.
        eapply wp_mono; [| apply forest_keeps_frames].
        intros r st3 Hf3. simpl in Hf3.
        assert (Hf3' : frames st3 = (old ++ [t2])%list) by congruence.
        destruct r as [e | preds].
        { exists (mid ++ [t2])%list. rewrite Hf3', Hmid.
          now rewrite app_assoc. }
        apply wp_bind. unfold assign_array.
        apply wp_bind. eapply wp_read_last; [eassumption |].
        destruct (Nat.eqb (length preds) (nrows t2)).
        2:{ apply wp_throw. exists (mid ++ [t2])%list.
            rewrite Hf3', Hmid. now rewrite app_assoc. }
        eapply wp_assign_last; [eassumption |].
        intros st4 Hf4 _ _.
        assert (H4 : at_last base (additive t0) (length old) st4)
          by (eapply at_last_assign; eauto).
        apply wp_bind. eapply wp_read_last; [eassumption |].
        apply wp_bind, wp_lift.
        rewrite getitem_setitem_eq. cbn [as_float ok].
        apply wp_bind, wp_lift.
        eapply wp_assign_last; [eassumption |].
        intros st5 Hf5 _ _.
        eapply at_last_assign; eauto.
        destruct H4 as [old4 [t4 [Hf4' [Hl [_ Ha4]]]]].
        rewrite Hf4 in Hf4'. apply app_inj_tail in Hf4'.
        destruct Hf4' as [_ <-]. exact Ha4. }
  clear dependent t2. clear dependent st2.
  intros r st2 Ho. destruct r as [e | []]; [exact Ho |].
  apply wp_bind.
  eapply wp_mono; [| apply threshold_additive].
  intros r st3 Ho3. apply (outcome_rebase _ _ _ _ Ho) in Ho3.
  destruct r as [e | df]; [exact Ho3 |]. simpl in Ho3.
  clear dependent st2.
  apply wp_bind.
  eapply wp_mono;
    [| apply (wp_for_with _ (at_last base (additive t0)) (grown base));
       [| exact Ho3]].
  2:{ intros df0 col st0 _ H0.
      apply wp_bind.
      pose proof H0 as [old0 [u0 [Hf0 [-> _]]]].
      eapply wp_read_last; [eassumption |].
      destruct (has_col col u0); [| apply wp_ret; exact H0].
      eapply wp_mono; [| apply sudden_additive].
      intros r st' Ho'. apply (outcome_rebase _ _ _ _ H0) in Ho'.
      destruct r; exact Ho'. }
  clear dependent st3.
  intros r st3 Ho3. destruct r as [e | df3]; [exact Ho3 |].
  apply wp_bind.
  eapply wp_mono;
    [| apply (wp_for_with _ (at_last base (additive t0)) (grown base));
       [| exact Ho3]].
  2:{ intros df0 col st0 _ H0.
      apply wp_bind.
      pose proof H0 as [old0 [u0 [Hf0 [-> _]]]].
      eapply wp_read_last; [eassumption |].
      destruct (has_col col u0); [| apply wp_ret; exact H0].
      eapply wp_mono; [| apply pattern_additive].
      intros r st' Ho'. apply (outcome_rebase _ _ _ _ H0) in Ho'.
      destruct r; exact Ho'. }
  clear dependent st3.
  intros r st3 Ho3. destruct r as [e | df4]; [exact Ho3 |].
  pose proof Ho3 as [old3 [t3 [Hf3 [-> [[mid3 Hmid3] Ha3]]]]].
  apply wp_bind. eapply wp_read_last; [eassumption |].
  apply wp_bind.
  apply wp_mono with
    (Q := fun r st' =>
            match r with
            | inl _ => grown base st'
            | inr _ => at_last base (additive t0) (length old3) st'
            end).
  2:{ destruct (filter is_indicator (columns t3)) as [| i0 indicators].
      - apply wp_ret. exact Ho3.
      - apply wp_bind, wp_lift.
        destruct (sum_axis1 t3 (i0 :: indicators)) as [e | s];
          [eapply at_last_grown; exact Ho3 |].
        eapply wp_assign_last; [eassumption |].
        intros st4 Hf4 _ _. eapply at_last_assign; eauto. }
  intros r st4 Ho4. destruct r as [e | []]; [exact Ho4 |].
  apply wp_ret. exact Ho4.
Qed.

Lemma outcome_additive_run (m : M ref) (st : state) (data : ref) :
  wp m st (outcome (frames st) (additive (frame_at st data))) ->
  additive_run m st data.
Proof.
  unfold additive_run. apply wp_mono. intros r st' Ho. split.
  - intros k Hk.
    assert (Hg : grown (frames st) st')
      by (destruct r; [exact Ho | eapply at_last_grown; exact Ho]).
    destruct Hg as [new Hn]. now apply (frame_at_old st st' new).
  - destruct r as [e | out]; [exact I |]. simpl in Ho.
    destruct Ho as [old [t [Hf [-> [_ Ha]]]]].
    now rewrite (frame_at_last _ _ _ Hf).
Qed.


(** *** detect_statistical_anomalies on a constant column *)

Ltac names_differ :=
  first
    [ apply anomaly_is_not_zscore
    | let E := fresh "E" in
      intros E; symmetry in E; revert E; apply anomaly_is_not_zscore
    | let E := fresh "E" in
      intros E; apply append_inj_l in E; congruence
    | congruence ].

Lemma zscore_step (qsqrt : Q -> Q) (std_threshold : float64)
    (old : list table) (cols : list string) (c : string) (xs : list float64)
    (v : Q) (done : list string) (col : string) (st : state) :
  qsqrt 0 == 0 ->
  all_equal_to v xs = true ->
  no_collision c cols = true ->
  In col cols ->
  zscore_invariant old cols c xs done st ->
  wp (t <- read (length old) ;;
      if has_col col t then
        cc <- lift (getitem col t) ;;
        ys <- lift (as_float cc) ;;
        assign (length old) (col ++ "_anomaly")
          (BoolCol (map (fun z => fgtb z std_threshold) (zscores qsqrt ys))) ;;;
        assign (length old) (col ++ "_zscore") (FloatCol (zscores qsqrt ys))
      else ret tt) st
     (fun r st' =>
        match r with
        | inl _ => False
        | inr _ => zscore_invariant old cols c xs (done ++ [col])%list st'
        end).
Proof.
  intros Hs Hconst Hcoll Hcol [t [Hf [Hc [Hnum [Hflags Hdone]]]]].
  destruct (no_collision_spec _ _ _ Hcoll Hcol) as [_ [Hca Hcz]].
  destruct (all_numeric_lookup _ _ _ Hnum Hcol) as [cc [Hcc Hok]].
  apply wp_bind. eapply wp_read_last; [eassumption |].
  replace (has_col col t) with true by (unfold has_col; now rewrite Hcc).
  apply wp_bind, wp_lift. rewrite (getitem_lookup _ _ _ Hcc).
  apply wp_bind, wp_lift.
  destruct (as_float_ok cc Hok) as [ys Hys]. rewrite Hys.
  apply wp_bind. eapply wp_assign_last; [eassumption |].
  intros st1 Hf1 _ _.
  eapply wp_assign_last; [eassumption |].
  intros st2 Hf2 _ _.
  eexists. split; [exact Hf2 |].
  split; [now rewrite !lookup_setitem_ne by congruence |].
  split; [repeat apply all_numeric_setitem; auto |].
  split.
  - intros k Hk.
    rewrite lookup_setitem_ne by apply anomaly_is_not_zscore.
    destruct (String.eqb_spec (k ++ "_anomaly") (col ++ "_anomaly")) as [-> | Hne].
    + rewrite lookup_setitem_eq. eauto.
    + rewrite lookup_setitem_ne by exact Hne.
      apply in_app_or in Hk. destruct Hk as [Hk | [<- | []]].
      * now apply Hflags.
      * congruence.
  - intros Hin.
    destruct (String.eqb_spec col c) as [-> | Hne].
    + rewrite Hc in Hcc. injection Hcc as <-. simpl in Hys.
      injection Hys as <-.
      rewrite lookup_setitem_eq.
      rewrite lookup_setitem_ne by names_differ.
      rewrite lookup_setitem_eq.
      rewrite (zscores_constant qsqrt v xs Hs Hconst).
      split; [reflexivity |]. f_equal. f_equal.
      rewrite map_map. apply map_ext. intros a. apply fltb_nan_r.
    + apply in_app_or in Hin. destruct Hin as [Hin | [E | []]];
        [| congruence].
      destruct (Hdone Hin) as [Hz Ha].
      rewrite !lookup_setitem_ne by names_differ. auto.
Qed.


(** *** detect_pattern_deviations *)

Lemma append_inj_r (a s1 s2 : string) : a ++ s1 = a ++ s2 -> s1 = s2.
Proof.
  induction a as [| ch a IH]; simpl; intros H; [exact H |].
  injection H as H. now apply IH.
Qed.

Lemma append_longer (a suffix : string) :
  suffix <> "" -> a <> a ++ suffix.
Proof.
  intros Hs H. apply (f_equal String.length) in H.
  rewrite length_append in H. destruct suffix; [congruence | simpl in H; lia].
Qed.


(** *** detect_isolation_forest *)

Lemma forest_run_fitted forest_fit forest_predict (st : state) (data : ref)
    (features : option (list string)) (m : Model) (X : list (list float64)) :
  isolation_forest st = Some (Some m) ->
  feature_matrix (frame_at st data) features = inr X ->
  detect_isolation_forest forest_fit forest_predict data features st
  = (forest_predict m X, st).
Proof.
  intros Hm HX. unfold detect_isolation_forest, feature_matrix in *.
  unfold bind, read, lift, get_forest, ret, ok. cbn beta iota.
  rewrite HX. cbn beta iota. rewrite Hm. cbn beta iota. rewrite Hm.
  reflexivity.
Qed.

Lemma forest_run_unfitted forest_fit forest_predict (st : state) (data : ref)
    (features : option (list string)) (X : list (list float64)) :
  isolation_forest st = Some None ->
  feature_matrix (frame_at st data) features = inr X ->
  exists msg,
    detect_isolation_forest forest_fit forest_predict data features st
    = (inl (ValueError msg), st).
Proof.
  intros Hm HX. unfold detect_isolation_forest, feature_matrix in *.
  unfold bind, read, lift, get_forest, ret, throw, ok. cbn beta iota.
  rewrite HX. cbn beta iota. rewrite Hm. cbn beta iota. rewrite Hm.
  eexists. reflexivity.
Qed.

(** The forest is fitted once, on the first data it sees.  When the
    detector has no estimator yet and the fit on the first frame's
    features succeeds with [m], the call predicts with [m] and stores it;
    every later call, on whatever frame and features, predicts with that
    same [m] and fits nothing: the data of a later call never reaches the
    estimator's [fit].  No call changes a frame of the store. *)
Theorem isolation_forest_is_fitted_once
    forest_fit forest_predict (st : state) (data : ref)
    (features : option (list string)) (X : list (list float64)) (m : Model) :
  isolation_forest st = None ->
  feature_matrix (frame_at st data) features = inr X ->
  forest_fit (contamination st) X = inr m ->
  let res := fst (detect_isolation_forest forest_fit forest_predict data features st) in
  let st1 := snd (detect_isolation_forest forest_fit forest_predict data features st) in
  res = forest_predict m X /\
  frames st1 = frames st /\
  isolation_forest st1 = Some (Some m) /\
  forall other_fit data2 features2 X2,
    feature_matrix (frame_at st1 data2) features2 = inr X2 ->
    detect_isolation_forest other_fit forest_predict data2 features2 st1
    = (forest_predict m X2, st1).
Proof.
  intros Hnone HX Hfit res st1.
  assert (E : detect_isolation_forest forest_fit forest_predict data features st
              = (forest_predict m X,
                 {| frames := frames st;
                    contamination := contamination st;
                    isolation_forest := Some (Some m) |})).
  { unfold detect_isolation_forest, feature_matrix in *.
    unfold bind, read, lift, get_forest, set_forest, get_contamination, ret, ok.
    cbn beta iota. rewrite HX. cbn beta iota. rewrite Hnone.
    cbn beta iota delta [contamination frames isolation_forest].
    rewrite Hfit. reflexivity. }
  subst res st1. rewrite E. cbn [fst snd].
  split; [reflexivity |]. split; [reflexivity |]. split; [reflexivity |].
  intros other_fit data2 features2 X2 HX2.
  now apply forest_run_fitted.
Qed.


(** *** detect_threshold_violations *)

Lemma distinct_NoDup (l : list string) : distinct l = true -> NoDup l.
Proof.
  induction l as [| x l IH]; simpl; intros H; [constructor |].
  apply andb_true_iff in H. destruct H as [Hx Hl].
  constructor; [| now apply IH].
  intros Hin. apply negb_true_iff in Hx.
  assert (existsb (String.eqb x) l = true); [| congruence].
  apply existsb_exists. exists x. split; [exact Hin | apply String.eqb_refl].
Qed.

Lemma lookup_columns (n : string) (t : table) :
  In n (columns t) -> exists c, lookup n t = Some c.
Proof.
  unfold columns. induction t as [| [m c0] t IH]; simpl; [intros [] |].
  intros H. destruct (String.eqb_spec n m) as [-> | Hne]; [eauto |].
  destruct H as [H | H]; [congruence | now apply IH].
Qed.

Lemma columns_lookup (n : string) (c : column) (t : table) :
  lookup n t = Some c -> In n (columns t).
Proof.
  unfold columns. induction t as [| [m c0] t IH]; simpl; [discriminate |].
  destruct (String.eqb_spec n m) as [-> | Hne]; [now left |].
  intros H. right. now apply IH.
Qed.

Lemma select_flags_member (t : table) (names : list string) :
  forall bcols n bs,
    select (fun n => let? c := getitem n t in truth_values c) names = inr bcols ->
    In n names -> lookup n t = Some (BoolCol bs) -> In bs bcols.
Proof.
  induction names as [| m names IH]; intros bcols n bs Hsel Hn Hl; [destruct Hn |].
  cbn [select] in Hsel.
  destruct (getitem m t) as [e | c] eqn:Eg; cbn [rbind] in Hsel; [discriminate |].
  destruct (truth_values c) as [e | b] eqn:Et; cbn [rbind] in Hsel; [discriminate |].
  destruct (select _ names) as [e | rest] eqn:Es; cbn [rbind ok] in Hsel;
    [discriminate |].
  injection Hsel as <-.
  destruct Hn as [-> | Hn].
  - left. rewrite (getitem_lookup _ _ _ Hl) in Eg. injection Eg as <-.
    simpl in Et. now injection Et.
  - right. eapply IH; eauto.
Qed.

Lemma out_of_bounds_nan (lo hi : float64) : fltb NaN lo || fgtb NaN hi = false.
Proof. unfold fgtb. now rewrite fltb_nan_l, fltb_nan_r. Qed.

Lemma violation_columns_lookup (t : table) (n : string) (c : column) :
  violation_columns_boolean t = true ->
  lookup n t = Some c -> endswith n "_violation" = true ->
  exists bs, c = BoolCol bs.
Proof.
  unfold violation_columns_boolean. rewrite forallb_forall.
  intros H Hl He. specialize (H (n, c) (ProcessorFacts.lookup_In _ _ _ Hl)).
  cbn [fst snd] in H. rewrite He in H. cbn [negb orb] in H.
  destruct c; try discriminate. eauto.
Qed.

Lemma threshold_step (old : list table)
    (thresholds : list (string * (float64 * float64)))
    (col : string) (xs : list float64) (lo hi : float64)
    (d rest : list (string * (float64 * float64)))
    (k : string) (a b : float64) (st : state) :
  thresholds = (d ++ (k, (a, b)) :: rest)%list ->
  In (col, (lo, hi)) thresholds ->
  NoDup (map fst thresholds) ->
  (forall j, In j (map fst thresholds) -> j ++ "_violation" <> col) ->
  violation_invariant old (map fst thresholds) col xs lo hi d st ->
  wp (t <- read (length old) ;;
      if has_col k t then
        c <- lift (getitem k t) ;;
        ys <- lift (as_float c) ;;
        assign (length old) (k ++ "_violation")
          (BoolCol (map (fun x => fltb x a || fgtb x b) ys))
      else ret tt) st
     (fun r st' =>
        match r with
        | inl _ => False
        | inr _ =>
            violation_invariant old (map fst thresholds) col xs lo hi
              (d ++ [(k, (a, b))])%list st'
        end).
Proof.
  intros Hth Hin Hnd Hfresh [t [Hf [Hc [Hnum [Hbool Hdone]]]]].
  assert (Hk : In k (map fst thresholds)).
  { rewrite Hth, map_app. apply in_or_app. right. now left. }
  (* the entry of [col] is the one being visited as soon as the keys agree *)
  assert (Hsame : k = col -> a = lo /\ b = hi /\ ~ In (col, (lo, hi)) d).
  { intros ->. rewrite Hth in Hin, Hnd. rewrite map_app in Hnd. cbn [map fst] in Hnd.
    pose proof (NoDup_remove_2 _ _ _ Hnd) as Hnot.
    apply in_app_or in Hin. destruct Hin as [Hd | [E | Hr]].
    - exfalso. apply Hnot. apply in_or_app. left.
      now apply (in_map fst) in Hd.
    - injection E as -> ->. repeat split; auto.
      intros Hd. apply Hnot. apply in_or_app. left.
      now apply (in_map fst) in Hd.
    - exfalso. apply Hnot. apply in_or_app. right.
      now apply (in_map fst) in Hr. }
  assert (Hother : In (col, (lo, hi)) d -> k <> col).
  { intros Hd ->. destruct (Hsame eq_refl) as [_ [_ Hn]]. auto. }
  apply wp_bind. eapply wp_read_last; [eassumption |].
  destruct (has_col k t) eqn:Hcol.
  2:{ apply wp_ret. exists t. repeat split; auto.
      intros Hd. apply in_app_or in Hd. destruct Hd as [Hd | [E | []]]; auto.
      injection E as -> _ _. unfold has_col in Hcol. rewrite Hc in Hcol.
      discriminate. }
  destruct (getitem_has_col _ _ Hcol) as [c0 [Hc0 Hg]].
  apply wp_bind, wp_lift. rewrite Hg.
  apply wp_bind, wp_lift.
  assert (Hok : numeric_view_ok c0 = true).
  { specialize (Hnum k Hk). unfold numeric_or_absent in Hnum.
    now rewrite Hc0 in Hnum. }
  destruct (as_float_ok c0 Hok) as [ys Hys]. rewrite Hys.
  eapply wp_assign_last; [eassumption |].
  intros st1 Hf1 _ _.
  eexists. split; [exact Hf1 |].
  split.
  { rewrite lookup_setitem_ne; [exact Hc |].
    intros E. apply (Hfresh k Hk). now symmetry. }
  split.
  { intros j Hj. unfold numeric_or_absent.
    destruct (String.eqb_spec j (k ++ "_violation")) as [-> | Hne].
    - now rewrite lookup_setitem_eq.
    - rewrite lookup_setitem_ne by exact Hne. now apply Hnum. }
  split.
  { intros n c Hl He.
    destruct (String.eqb_spec n (k ++ "_violation")) as [-> | Hne].
    - rewrite lookup_setitem_eq in Hl. injection Hl as <-. eauto.
    - rewrite lookup_setitem_ne in Hl by exact Hne. eauto. }
  intros Hd. apply in_app_or in Hd. destruct Hd as [Hd | [E | []]].
  - rewrite lookup_setitem_ne; [now apply Hdone |].
    intros E. apply append_inj_l in E. symmetry in E. now apply Hother in E.
  - injection E as -> -> ->. rewrite lookup_setitem_eq.
    rewrite Hc in Hc0. injection Hc0 as <-. simpl in Hys. injection Hys as <-.
    reflexivity.
Qed.

(** The flag column of a threshold is the row-wise bound check of the
    column as the caller passed it.  For a float column [col] with the
    pair [(lo, hi)] among thresholds that name each column once, on a
    frame whose other threshold columns are numeric or absent and whose
    [_violation] columns, if any, are boolean, the pass returns; the
    column [<col>_violation] is true at a row exactly when the value is
    below [lo] or above [hi], so a missing value is never a violation;
    and [has_violation] is true in every row where that flag is. *)
Theorem threshold_violation_flags
    (st : state) (data : ref)
    (thresholds : list (string * (float64 * float64)))
    (col : string) (lo hi : float64) (xs : list float64) :
  lookup col (frame_at st data) = Some (FloatCol xs) ->
  In (col, (lo, hi)) thresholds ->
  thresholds_apply (map fst thresholds) col (frame_at st data) = true ->
  violation_columns_boolean (frame_at st data) = true ->
  exists df st' hv,
    detect_threshold_violations data thresholds st = (inr df, st') /\
    lookup (col ++ "_violation") (frame_at st' df)
    = Some (BoolCol (out_of_bounds lo hi xs)) /\
    (forall i, nth i xs NaN = NaN -> nth i (out_of_bounds lo hi xs) false = false) /\
    (forall i x l h,
        nth i xs NaN = Fin x -> lo = Fin l -> hi = Fin h ->
        (nth i (out_of_bounds lo hi xs) false = true <-> x < l \/ h < x)) /\
    lookup "has_violation" (frame_at st' df) = Some (BoolCol hv) /\
    (forall i, (i < length hv)%nat ->
       nth i (out_of_bounds lo hi xs) false = true -> nth i hv false = true).
Proof.
  intros Hc Hin Happ Hbool.
  set (t0 := frame_at st data) in *.
  set (old := frames st).
  set (keys := map fst thresholds) in *.
  unfold thresholds_apply in Happ.
  apply andb_true_iff in Happ. destruct Happ as [Happ Hhas].
  apply andb_true_iff in Happ. destruct Happ as [Happ Hfresh].
  apply andb_true_iff in Happ. destruct Happ as [Hdist Hnum].
  apply distinct_NoDup in Hdist.
  rewrite forallb_forall in Hnum, Hfresh.
  apply negb_true_iff in Hhas. apply String.eqb_neq in Hhas.
  assert (Hfresh' : forall j, In j keys -> j ++ "_violation" <> col).
  { intros j Hj. apply String.eqb_neq, negb_true_iff. now apply Hfresh. }
  assert (Hrow : forall i,
             (i < length xs)%nat ->
             nth i (out_of_bounds lo hi xs) false
             = fltb (nth i xs NaN) lo || fgtb (nth i xs NaN) hi).
  { intros i Hi. unfold out_of_bounds.
    now rewrite (nth_map_lt _ _ _ _ NaN). }
  enough (W : wp (detect_threshold_violations data thresholds) st
                (fun r st' =>
                   exists out hv,
                     r = inr out /\
                     lookup (col ++ "_violation") (frame_at st' out)
                     = Some (BoolCol (out_of_bounds lo hi xs)) /\
                     lookup "has_violation" (frame_at st' out)
                     = Some (BoolCol hv) /\
                     (forall i, (i < length hv)%nat ->
                        nth i (out_of_bounds lo hi xs) false = true ->
                        nth i hv false = true))).
  { unfold wp in W. destruct W as [out [hv [Hr [Hv [Hh Himp]]]]].
    exists out, (snd (detect_threshold_violations data thresholds st)), hv.
    split; [rewrite <- Hr; apply surjective_pairing |].
    split; [exact Hv |]. split.
    { intros i Hi.
      destruct (Nat.lt_ge_cases i (length xs)) as [L | G].
      - rewrite (Hrow i L), Hi. apply out_of_bounds_nan.
      - apply nth_overflow. unfold out_of_bounds. now rewrite length_map. }
    split; [| split; [exact Hh | exact Himp]].
    intros i x l h Hx -> ->.
    assert (L : (i < length xs)%nat).
    { destruct (Nat.lt_ge_cases i (length xs)) as [L | G]; [exact L |].
      rewrite nth_overflow in Hx by exact G. discriminate. }
    rewrite (Hrow i L), Hx, orb_true_iff, fltb_Fin, fgtb_Fin. reflexivity. }
  unfold detect_threshold_violations.
  apply wp_bind, wp_copy. intros st1 Hf1 _ _. fold t0 old in Hf1 |- *.
  apply wp_bind.
  eapply wp_mono;
    [| apply (wp_for_ _ (violation_invariant old keys col xs lo hi)
                (fun _ => False) _ [])].
  - intros [e | []] st2; [intros [] |]. cbn [app].
    intros [t [Hf [Hct [Hnt [Hbt Hdone]]]]].
    specialize (Hdone Hin).
    apply wp_bind. eapply wp_read_last; [eassumption |].
    set (names := filter (fun c => endswith c "_violation") (columns t)).
    destruct (select_flags t names) as [bcols [Hsel Hb]].
    { intros n Hn. apply filter_In in Hn. destruct Hn as [Hn He].
      destruct (lookup_columns _ _ Hn) as [c Hl].
      destruct (Hbt n c Hl He) as [bs ->]. eauto. }
    apply wp_bind, wp_lift. unfold any_axis1. rewrite Hsel. cbn [rbind ok].
    set (hv := map (fun i => existsb (fun c => nth i c false) bcols)
                 (seq 0 (nrows t))).
    apply wp_bind. eapply wp_assign_last; [eassumption |].
    intros st3 Hf3 _ _. apply wp_ret.
    exists (length old), hv. split; [reflexivity |].
    rewrite (frame_at_last _ _ _ Hf3).
    split.
    { rewrite lookup_setitem_ne; [exact Hdone |].
      change "has_violation" with ("has" ++ "_violation").
      intros E. apply append_inj_l in E. congruence. }
    split; [apply lookup_setitem_eq |].
    intros i Hi Hflag.
    assert (Hlt : (i < nrows t)%nat)
      by (unfold hv in Hi; now rewrite length_map, length_seq in Hi).
    unfold hv. rewrite nth_map_seq by exact Hlt.
    apply existsb_exists. exists (out_of_bounds lo hi xs).
    split; [| exact Hflag].
    apply (select_flags_member t names bcols (col ++ "_violation"));
      [exact Hsel | | exact Hdone].
    apply filter_In. split; [| apply endswith_append].
    eapply columns_lookup; eauto.
  - intros d [k [a b]] st0 [rest Hrest] Hinv. cbn [app] in Hrest.
    eapply threshold_step; eauto.
  - exists t0. split; [exact Hf1 |]. split; [exact Hc |].
    split; [exact Hnum |].
    split; [intros n c; now apply violation_columns_lookup | intros []].
Qed.

(** *** detect_statistical_anomalies, in general *)

Lemma flags_step (qsqrt : Q -> Q) (std_threshold : float64)
    (old : list table) (cols : list string) (c : string) (xs : list float64)
    (done : list string) (col : string) (st : state) :
  no_collision c cols = true ->
  In col cols ->
  flags_invariant old cols c xs (zscores qsqrt xs)
    (map (fun z => fgtb z std_threshold) (zscores qsqrt xs)) done st ->
  wp (t <- read (length old) ;;
      if has_col col t then
        cc <- lift (getitem col t) ;;
        ys <- lift (as_float cc) ;;
        assign (length old) (col ++ "_anomaly")
          (BoolCol (map (fun z => fgtb z std_threshold) (zscores qsqrt ys))) ;;;
        assign (length old) (col ++ "_zscore") (FloatCol (zscores qsqrt ys))
      else ret tt) st
     (fun r st' =>
        match r with
        | inl _ => False
        | inr _ =>
            flags_invariant old cols c xs (zscores qsqrt xs)
              (map (fun z => fgtb z std_threshold) (zscores qsqrt xs))
              (done ++ [col])%list st'
        end).
Proof.
  intros Hcoll Hcol [t [Hf [Hc [Hnum [Hflags Hdone]]]]].
  destruct (no_collision_spec _ _ _ Hcoll Hcol) as [_ [Hca Hcz]].
  destruct (all_numeric_lookup _ _ _ Hnum Hcol) as [cc [Hcc Hok]].
  apply wp_bind. eapply wp_read_last; [eassumption |].
  replace (has_col col t) with true by (unfold has_col; now rewrite Hcc).
  apply wp_bind, wp_lift. rewrite (getitem_lookup _ _ _ Hcc).
  apply wp_bind, wp_lift.
  destruct (as_float_ok cc Hok) as [ys Hys]. rewrite Hys.
  apply wp_bind. eapply wp_assign_last; [eassumption |].
  intros st1 Hf1 _ _.
  eapply wp_assign_last; [eassumption |].
  intros st2 Hf2 _ _.
  eexists. split; [exact Hf2 |].
  split; [now rewrite !lookup_setitem_ne by congruence |].
  split; [repeat apply all_numeric_setitem; auto |].
  split.
  - intros k Hk.
    rewrite lookup_setitem_ne by apply anomaly_is_not_zscore.
    destruct (String.eqb_spec (k ++ "_anomaly") (col ++ "_anomaly")) as [-> | Hne].
    + rewrite lookup_setitem_eq. eauto.
    + rewrite lookup_setitem_ne by exact Hne.
      apply in_app_or in Hk. destruct Hk as [Hk | [<- | []]].
      * now apply Hflags.
      * congruence.
  - intros Hin.
    destruct (String.eqb_spec col c) as [-> | Hne].
    + rewrite Hc in Hcc. injection Hcc as <-. simpl in Hys.
      injection Hys as <-.
      rewrite lookup_setitem_eq.
      rewrite lookup_setitem_ne by names_differ.
      rewrite lookup_setitem_eq. split; reflexivity.
    + apply in_app_or in Hin. destruct Hin as [Hin | [E | []]];
        [| congruence].
      destruct (Hdone Hin) as [Hz Ha].
      rewrite !lookup_setitem_ne by names_differ. auto.
Qed.

Lemma zscore_of_missing (qsqrt : Q -> Q) (xs : list float64) (thr : float64)
    (i : nat) :
  nth i xs NaN = NaN ->
  nth i (map (fun z => fgtb z thr) (zscores qsqrt xs)) false = false.
Proof.
  intros Hx.
  destruct (Nat.lt_ge_cases i (length xs)) as [L | G].
  - unfold zscores. rewrite map_map.
    rewrite (nth_map_lt _ _ _ _ NaN) by exact L. rewrite Hx.
    unfold fgtb. cbn [fsub fadd fdiv fabs]. apply fltb_nan_r.
  - apply nth_overflow. unfold zscores. now rewrite !length_map.
Qed.

Lemma zscore_of_number (qsqrt : Q -> Q) (xs : list float64) (i : nat)
    (q m s k : Q) :
  nth i xs NaN = Fin q -> mean xs = Fin m -> std qsqrt xs = Fin s ->
  ~ s == 0 ->
  (nth i (map (fun z => fgtb z (Fin k)) (zscores qsqrt xs)) false = true
   <-> k < Qabs ((q - m) / s)).
Proof.
  intros Hx Hm Hs Hnz.
  assert (L : (i < length xs)%nat).
  { destruct (Nat.lt_ge_cases i (length xs)) as [L | G]; [exact L |].
    rewrite nth_overflow in Hx by exact G. discriminate. }
  unfold zscores. rewrite map_map.
  rewrite (nth_map_lt _ _ _ _ NaN) by exact L. rewrite Hx, Hm, Hs.
  unfold fsub, fopp, fadd, fdiv. rewrite (CalculatorFacts.Qzero_false s Hnz).
  unfold fabs. rewrite fgtb_Fin, !Qred_correct. unfold Qminus. reflexivity.
Qed.


End Store.






Lemma isolation_forest_is_fitted_once_witness :
  let call := detect_isolation_forest sample_fit sample_predict 0%nat None in
  fst (call spike_store) = sample_predict tt [[Fin 20; Fin 35; Fin 30]] /\
  frames (snd (call spike_store)) = frames spike_store /\
  isolation_forest (snd (call spike_store)) = Some (Some tt) /\
  forall other_fit data2 features2 X2,
    feature_matrix (frame_at (snd (call spike_store)) data2) features2 = inr X2 ->
    detect_isolation_forest other_fit sample_predict data2 features2
      (snd (call spike_store))
    = (sample_predict tt X2, snd (call spike_store)).
Proof.
  apply (isolation_forest_is_fitted_once sample_fit sample_predict spike_store
           0%nat None [[Fin 20; Fin 35; Fin 30]] tt);
    reflexivity.
Defined.


Lemma threshold_violation_flags_witness :
  exists df st' hv,
    detect_threshold_violations 0%nat default_thresholds steady_store
    = (inr df, st') /\
    lookup ("current" ++ "_violation") (frame_at st' df)
    = Some (BoolCol (out_of_bounds (of_Z (-200)) (of_Z 200)
                       [Fin 1; Fin 2; Fin 3; Fin 40])) /\
    (forall i,
        nth i [Fin 1; Fin 2; Fin 3; Fin 40] NaN = NaN ->
        nth i (out_of_bounds (of_Z (-200)) (of_Z 200)
                 [Fin 1; Fin 2; Fin 3; Fin 40]) false = false) /\
    (forall i x l h,
        nth i [Fin 1; Fin 2; Fin 3; Fin 40] NaN = Fin x ->
        of_Z (-200) = Fin l -> of_Z 200 = Fin h ->
        (nth i (out_of_bounds (of_Z (-200)) (of_Z 200)
                  [Fin 1; Fin 2; Fin 3; Fin 40]) false = true
         <-> x < l \/ h < x)) /\
    lookup "has_violation" (frame_at st' df) = Some (BoolCol hv) /\
    (forall i, (i < length hv)%nat ->
       nth i (out_of_bounds (of_Z (-200)) (of_Z 200)
                [Fin 1; Fin 2; Fin 3; Fin 40]) false = true ->
       nth i hv false = true).
Proof.
  apply (threshold_violation_flags steady_store 0%nat default_thresholds
           "current" (of_Z (-200)) (of_Z 200) [Fin 1; Fin 2; Fin 3; Fin 40]).
  - reflexivity.
  - simpl. auto.
  - reflexivity.
  - reflexivity.
Defined.


End DetectorFacts.
